(** * Futures, combinators, lazy futures and executors

    A shallow embedding of the future runtime (the shared future state
    machine with its callback protocol, the [AllComplete] / [AllFinished]
    combinators) and of the lazy future header (executors, [Promise],
    [Compose], [LazyFuture]), with the properties stated for them.

    The heap of shared objects is explicit: a future handle is the address
    of its [FutureImpl] in the store, so that every holder of the handle
    sees the same core. Operations of the future core run one at a time,
    each to its end, on the calling thread; the mutexes that thread holds
    are tracked, and what a callback of a client observes is recorded.
    The threads of a thread-per-task executor run their tasks one at a
    time, in an order the scheduler chooses. *)

From Stdlib Require Import ZArith Lia String.
From stdpp Require Import base decidable option list strings.

(** ** Status (status.cc)

    A [Status] whose [state_] pointer is null is the OK status
    ([Status::CodeAsString] and [Status::ToString] test exactly that);
    otherwise it carries a code and a message.

    The declaration of [enum class StatusCode] is not among the sources.
    The enumerators are those status.cc names; [OtherCode raw] is any
    other value of the enumeration, the kind the [default:] branch of
    [Status::CodeAsString] is there for. *)

Inductive StatusCode : Type :=
| OK | OutOfMemory | KeyError | TypeError | Invalid | Cancelled | IOError
| CapacityError | IndexError | UnknownError | NotImplemented
| SerializationError | CodeGenError | ExpressionValidationError
| ExecutionError
| OtherCode (raw : Z).

Record State : Type := mkState { code : StatusCode; msg : string }.

Definition Status : Type := option State.

(** Modelled from the spec: the factories [Status::OK()] and
    [Status::Invalid(msg)] of the absent status header, "an ok or
    error(kind, message) shape"; the second builds [Status(code, msg)] as
    the constructor of status.cc does. *)
Definition Status_OK : Status := None.
Definition Status_Invalid (m : string) : Status := Some (mkState Invalid m).

(** Modelled from the spec: [Status::ok()] of the absent status header,
    "ok vs. not-ok". *)
Definition ok (s : Status) : bool :=
  match s with None => true | Some _ => false end.

#[global] Instance StatusCode_eq_dec : EqDecision StatusCode.
Proof. solve_decision. Defined.
#[global] Instance State_eq_dec : EqDecision State.
Proof. solve_decision. Defined.

(** *** Printing a status (status.cc) *)

(** [Status::CodeAsString(StatusCode)]: the label of a code; the last
    case is the [default:] branch of the switch. *)
Definition CodeAsString (c : StatusCode) : string :=
  match c with
  | OK => "OK"
  | OutOfMemory => "Out of memory"
  | KeyError => "Key error"
  | TypeError => "Type error"
  | Invalid => "Invalid"
  | Cancelled => "Cancelled"
  | IOError => "IOError"
  | CapacityError => "Capacity error"
  | IndexError => "Index error"
  | UnknownError => "Unknown error"
  | NotImplemented => "NotImplemented"
  | SerializationError => "Serialization error"
  | CodeGenError => "CodeGenError in Gandiva"
  | ExpressionValidationError => "ExpressionValidationError"
  | ExecutionError => "ExecutionError in Gandiva"
  | OtherCode _ => "Unknown"
  end.

(** The codes the switch of [Status::CodeAsString] has a case for. *)
Definition listed (c : StatusCode) : bool :=
  match c with OtherCode _ => false | _ => true end.

(** [Status::Status(code, msg)]: a state is allocated whatever the code. *)
Definition Status_make (c : StatusCode) (m : string) : Status :=
  Some (mkState c m).

(** [Status::CodeAsString() const] *)
Definition Status_CodeAsString (s : Status) : string :=
  match s with
  | None => "OK"
  | Some st => CodeAsString (code st)
  end.

(** [Status::ToString() const]. [detail] is the text of the detail of
    the state, when the state has one. *)
Definition Status_ToString (s : Status) (detail : option string) : string :=
  match s with
  | None => "OK"
  | Some st =>
      String.append (CodeAsString (code st))
        (String.append ": "
           (String.append (msg st)
              match detail with
              | Some d => String.append ". Detail: " d
              | None => ""
              end))
  end.

(** ** The future core (future.cc) *)

Module Core.

Inductive FutureState : Type := PENDING | SUCCESS | FAILURE.

(** Modelled from the spec: [IsFutureFinished] is declared in the absent
    core header; SUCCESS and FAILURE are "both terminal, collectively
    finished". *)
Definition IsFutureFinished (s : FutureState) : bool :=
  match s with PENDING => false | SUCCESS | FAILURE => true end.

(** The mutexes of future.cc: the process-wide [global_waiter_mutex], the
    [mutex_] member of the core at an address, and the [mutex] member of
    the [State] object an [AllComplete] call shares with its callbacks. *)
Inductive Mutex : Type :=
| global_waiter_mutex
| mutex_ (self : nat)
| State_mutex (state : nat).

#[global] Instance Mutex_eq_dec : EqDecision Mutex.
Proof. solve_decision. Defined.
#[global] Instance FutureState_eq_dec : EqDecision FutureState.
Proof. solve_decision. Defined.

(** The type-erased result slot of a core: a [Status] for [Future<>], the
    vector of collected results for the future that [All] returns. *)
Inductive Storage : Type :=
| StoredStatus (s : Status)
| StoredResults (results : list Status).

(** Callbacks are closures stored in the core they wait on; they are
    represented by their code and captured variables.
    - [UserCallback tag]: a callback of the client; it observes the core
      it is invoked on.
    - [AllCompleteCallback state out]: the lambda of [AllComplete]
      (captures [state] and [out]).
    - [AllCallback state out futures] and [ThenCallback on_success next]:
      the callbacks of [All] and of [Future::Then]. *)
Inductive Callback : Type :=
| UserCallback (tag : nat)
| AllCompleteCallback (state out : nat)
| AllCallback (state out : nat) (futures : list nat)
| ThenCallback (on_success : list Status -> Status) (next : nat).

Record FutureImpl : Type := mkFutureImpl {
  state_ : FutureState;
  callbacks_ : list Callback;
  result_ : option Storage
}.

(** What the running thread does that a client can observe. [EvInvoke]
    is what a user callback sees when it runs: the core it is given, the
    state and result it reads there, and the mutexes held at that
    moment. *)
Inductive Event : Type :=
| EvLock (m : Mutex)
| EvUnlock (m : Mutex)
| EvStore (self : nat) (st : FutureState) (held : list Mutex)
| EvPush (self : nat) (held : list Mutex)
| EvNotifyAll (self : nat)
| EvInvoke (tag self : nat) (st : FutureState) (res : option Storage)
           (held : list Mutex).

(** The store: cores and [State::n_remaining] counters by address, the
    mutexes the running thread holds, and the events so far. *)
Record World : Type := mkWorld {
  cores : list FutureImpl;
  counters : list Z;
  held : list Mutex;
  trace : list Event
}.

Definition empty_world : World := mkWorld [] [] [] [].

Definition set_cores (f : list FutureImpl -> list FutureImpl) (w : World) :=
  mkWorld (f (cores w)) (counters w) (held w) (trace w).
Definition set_counters (f : list Z -> list Z) (w : World) :=
  mkWorld (cores w) (f (counters w)) (held w) (trace w).
Definition set_held (f : list Mutex -> list Mutex) (w : World) :=
  mkWorld (cores w) (counters w) (f (held w)) (trace w).
Definition add_event (e : Event) (w : World) :=
  mkWorld (cores w) (counters w) (held w) (trace w ++ [e]).

(** *** Outcomes

    An operation either returns in a new world or does not return:
    locking a mutex the thread already holds never returns, a dangling
    address is an invalid access, and the interpreter of nested callbacks
    may run out of fuel. *)
Inductive Fault : Type := Deadlock | InvalidAccess | OutOfFuel.

Inductive Outcome (A : Type) : Type :=
| Ok (a : A) (w : World)
| Fail (e : Fault).
Arguments Ok {A} a w.
Arguments Fail {A} e.

Definition M (A : Type) : Type := World -> Outcome A.

Definition ret {A} (a : A) : M A := fun w => Ok a w.
Definition bind {A B} (m : M A) (k : A -> M B) : M B :=
  fun w => match m w with Ok a w' => k a w' | Fail e => Fail e end.
Definition fail {A} (e : Fault) : M A := fun _ => Fail e.

Declare Scope m_scope.
Delimit Scope m_scope with m.
Notation "x <- c1 ;; c2" := (bind c1 (fun x => c2))
  (at level 100, c1 at next level, right associativity) : m_scope.
Notation "c1 ;; c2" := (bind c1 (fun _ => c2))
  (at level 100, right associativity) : m_scope.
Local Open Scope m_scope.

Definition modify (f : World -> World) : M unit := fun w => Ok tt (f w).
Definition gets {A} (f : World -> A) : M A := fun w => Ok (f w) w.
Definition log (e : Event) : M unit := modify (add_event e).

(** [for (x : xs) body(x)] *)
Fixpoint for_each {A} (body : A -> M unit) (xs : list A) : M unit :=
  match xs with
  | [] => ret tt
  | x :: xs' => body x ;; for_each body xs'
  end.

(** [std::unique_lock] construction and release on a [std::mutex]. *)
Definition lock (m : Mutex) : M unit :=
  h <- gets held ;;
  if decide (m ∈ h) then fail Deadlock
  else modify (set_held (cons m)) ;; log (EvLock m).

Definition release (m : Mutex) (h : list Mutex) : list Mutex :=
  filter (fun m' => m' <> m) h.

Definition unlock (m : Mutex) : M unit :=
  modify (set_held (release m)) ;; log (EvUnlock m).

Definition get_core (self : nat) : M FutureImpl :=
  fun w => match cores w !! self with
           | Some c => Ok c w
           | None => Fail InvalidAccess
           end.

Definition put_core (self : nat) (c : FutureImpl) : M unit :=
  modify (set_cores (fun cs => <[self := c]> cs)).

Definition new_core (c : FutureImpl) : M nat :=
  self <- gets (fun w => length (cores w)) ;;
  modify (set_cores (fun cs => cs ++ [c])) ;;
  ret self.

(** *** [ConcreteFutureImpl]

    The invocation of a stored callback on a core is the parameter [invoke]
    of this section; it is instantiated below with the interpreter of the
    stored closures. *)
Section ConcreteFutureImpl.

Variable invoke : Callback -> nat -> M unit.

Definition AddCallback (self : nat) (callback : Callback) : M unit :=
  lock (mutex_ self) ;;
  c <- get_core self ;;
  if IsFutureFinished (state_ c) then
    unlock (mutex_ self) ;;
    invoke callback self
  else
    h <- gets held ;;
    put_core self (mkFutureImpl (state_ c) (callbacks_ c ++ [callback])
                                (result_ c)) ;;
    log (EvPush self h) ;;
    unlock (mutex_ self).

(** The factory is a [std::function<Callback()>]: code of the caller,
    which may do anything when it is called. It is called under the
    mutex of the core, and only on a pending core; the callback it
    returns is then pushed on the queue as the core holds it at that
    moment. *)
Definition TryAddCallback (self : nat) (callback_factory : M Callback)
  : M bool :=
  lock (mutex_ self) ;;
  c <- get_core self ;;
  if IsFutureFinished (state_ c) then
    unlock (mutex_ self) ;;
    ret false
  else
    callback <- callback_factory ;;
    c' <- get_core self ;;
    h <- gets held ;;
    put_core self (mkFutureImpl (state_ c')
                     (callbacks_ c' ++ [callback]) (result_ c')) ;;
    log (EvPush self h) ;;
    unlock (mutex_ self) ;;
    ret true.

Definition DoMarkFinishedOrFailed (self : nat) (state : FutureState)
  : M unit :=
  lock global_waiter_mutex ;;
  lock (mutex_ self) ;;
  c <- get_core self ;;
  h <- gets held ;;
  put_core self (mkFutureImpl state (callbacks_ c) (result_ c)) ;;
  log (EvStore self state h) ;;
  unlock (mutex_ self) ;;
  unlock global_waiter_mutex ;;
  log (EvNotifyAll self) ;;
  c <- get_core self ;;
  let callbacks := callbacks_ c in
  put_core self (mkFutureImpl (state_ c) [] (result_ c)) ;;
  for_each (fun callback => invoke callback self) callbacks.

Definition DoMarkFinished (self : nat) : M unit :=
  DoMarkFinishedOrFailed self SUCCESS.

Definition DoMarkFailed (self : nat) : M unit :=
  DoMarkFinishedOrFailed self FAILURE.

End ConcreteFutureImpl.

(** [FutureImpl::Make] and [FutureImpl::MakeFinished]. *)
Definition Make : M nat := new_core (mkFutureImpl PENDING [] None).

Definition MakeFinished (state : FutureState) : M nat :=
  new_core (mkFutureImpl state [] None).

(** *** The [State] of a combinator

    [n_remaining] is a [std::atomic<size_t>]: [fetch_sub] returns the old
    value and wraps around modulo 2^64. The constructor of [State] takes
    the size through an [int64_t] parameter. *)
Definition to_int64 (z : Z) : Z := ((z + 2 ^ 63) mod 2 ^ 64 - 2 ^ 63)%Z.
Definition to_size_t (z : Z) : Z := (z mod 2 ^ 64)%Z.

Definition new_State (n_futures : Z) : M nat :=
  state <- gets (fun w => length (counters w)) ;;
  modify (set_counters (fun cs => cs ++ [to_size_t (to_int64 n_futures)])) ;;
  ret state.

Definition fetch_sub (state : nat) (arg : Z) : M Z :=
  fun w => match counters w !! state with
           | Some old =>
               Ok old (set_counters
                         (fun cs => <[state := to_size_t (old - arg)%Z]> cs) w)
           | None => Fail InvalidAccess
           end.

(** *** The typed handles and the combinators *)
Section Combinators.

Variable invoke : Callback -> nat -> M unit.

(** Modelled from the spec: the [Future] handle of the absent core header
    (Future / Promise handles: "make() (pending core), make_finished
    (pre-resolved core)", "is_finished(): non-blocking state probe",
    "add_callback ... forward to FutureCore", and for the terminal
    mutation "writes the result, transitions the state"; the result is
    "written exactly once, immediately before the state transition is
    published"). A failure status marks the core failed, an OK status
    marks it finished. *)
Definition Future_Make : M nat := Make.

Definition set_result (self : nat) (res : Storage) : M unit :=
  c <- get_core self ;;
  put_core self (mkFutureImpl (state_ c) (callbacks_ c) (Some res)).

Definition Future_MakeFinished (s : Status) : M nat :=
  self <- MakeFinished (if ok s then SUCCESS else FAILURE) ;;
  set_result self (StoredStatus s) ;;
  ret self.

Definition Future_is_finished (self : nat) : M bool :=
  c <- get_core self ;;
  ret (IsFutureFinished (state_ c)).

Definition Future_MarkFinished (self : nat) (s : Status) : M unit :=
  set_result self (StoredStatus s) ;;
  if ok s then DoMarkFinished invoke self else DoMarkFailed invoke self.

Definition Future_AddCallback (self : nat) (callback : Callback) : M unit :=
  AddCallback invoke self callback.

(** The status a callback of a [Future<>] receives: the stored result of
    the core it is invoked on. *)
Definition Future_status (self : nat) : M Status :=
  c <- get_core self ;;
  match result_ c with
  | Some (StoredStatus s) => ret s
  | _ => fail InvalidAccess
  end.

(** The lambda that [AllComplete] registers on every input. *)
Definition AllComplete_lambda (state out self : nat) : M unit :=
  status <- Future_status self ;;
  if negb (ok status) then
    lock (State_mutex state) ;;
    finished <- Future_is_finished out ;;
    (if negb finished then Future_MarkFinished out status else ret tt) ;;
    unlock (State_mutex state)
  else
    old <- fetch_sub state 1%Z ;;
    if decide (old <> 1%Z) then ret tt
    else Future_MarkFinished out Status_OK.

Definition AllComplete (futures : list nat) : M nat :=
  match futures with
  | [] => Future_MakeFinished Status_OK
  | _ =>
      state <- new_State (Z.of_nat (length futures)) ;;
      out <- Future_Make ;;
      for_each (fun future =>
                  Future_AddCallback future (AllCompleteCallback state out))
               futures ;;
      ret out
  end.

(** Modelled from the spec: [All] of the absent core header, the "collect
    all results" combinator: its future resolves only after all inputs
    have finished and holds every individual result in collection order.
    For no input at all it is resolved at once with no result. *)
Fixpoint All_collect (out : nat) (futures : list nat) (results : list Status)
  : M unit :=
  match futures with
  | [] => set_result out (StoredResults results) ;; DoMarkFinished invoke out
  | f :: futures' =>
      s <- Future_status f ;; All_collect out futures' (results ++ [s])
  end.

Definition All_lambda (state out : nat) (futures : list nat) : M unit :=
  old <- fetch_sub state 1%Z ;;
  if decide (old <> 1%Z) then ret tt
  else All_collect out futures [].

Definition All (futures : list nat) : M nat :=
  match futures with
  | [] =>
      self <- MakeFinished SUCCESS ;;
      set_result self (StoredResults []) ;;
      ret self
  | _ =>
      state <- new_State (Z.of_nat (length futures)) ;;
      out <- Future_Make ;;
      for_each (fun future =>
                  Future_AddCallback future (AllCallback state out futures))
               futures ;;
      ret out
  end.

(** Modelled from the spec: [Future::Then] of the absent core header:
    "returns a new Future whose core is marked finished by a callback
    registered on the source core; map_fn runs inline in the firing
    thread of the source future". *)
Definition Then_lambda (on_success : list Status -> Status) (next self : nat)
  : M unit :=
  c <- get_core self ;;
  match result_ c with
  | Some (StoredResults results) => Future_MarkFinished next (on_success results)
  | _ => fail InvalidAccess
  end.

Definition Then (self : nat) (on_success : list Status -> Status) : M nat :=
  next <- Future_Make ;;
  Future_AddCallback self (ThenCallback on_success next) ;;
  ret next.

(** The lambda [AllFinished] passes to [Then]. *)
Fixpoint AllFinished_lambda (results : list Status) : Status :=
  match results with
  | [] => Status_OK
  | res :: results' =>
      if negb (ok res) then res else AllFinished_lambda results'
  end.

Definition AllFinished (futures : list nat) : M nat :=
  all <- All futures ;;
  Then all AllFinished_lambda.

End Combinators.

(** *** Running a stored callback

    A user callback observes the core it is given. The closures of the
    combinators run their code, in which a nested completion fires the
    callbacks of another core; [fuel] bounds that nesting. *)
Fixpoint run_callback (fuel : nat) (callback : Callback) (self : nat)
  : M unit :=
  match callback with
  | UserCallback tag =>
      c <- get_core self ;;
      h <- gets held ;;
      log (EvInvoke tag self (state_ c) (result_ c) h)
  | AllCompleteCallback state out =>
      match fuel with
      | O => fail OutOfFuel
      | S fuel' => AllComplete_lambda (run_callback fuel') state out self
      end
  | AllCallback state out futures =>
      match fuel with
      | O => fail OutOfFuel
      | S fuel' => All_lambda (run_callback fuel') state out futures
      end
  | ThenCallback on_success next =>
      match fuel with
      | O => fail OutOfFuel
      | S fuel' => Then_lambda (run_callback fuel') on_success next self
      end
  end.

(** *** Completions seen from outside

    The producer of a [Future<>] resolves it with a status. What a
    combinator has observed is the list of the statuses it was called
    with, in the order of the calls. *)
Definition complete (invoke : Callback -> nat -> M unit) (ev : nat * Status)
  : M unit :=
  Future_MarkFinished invoke ev.1 ev.2.

Fixpoint first_failure (observed : list Status) : option Status :=
  match observed with
  | [] => None
  | s :: observed' => if ok s then first_failure observed' else Some s
  end.

Fixpoint count_ok (observed : list Status) : nat :=
  match observed with
  | [] => O
  | s :: observed' => ((if ok s then 1 else 0) + count_ok observed')%nat
  end.

(** The core of the future [AllComplete] returned for [n] inputs, once
    the inputs have completed with the statuses [observed]: failed with
    the first failure, else finished when all [n] have succeeded, else
    still pending. *)
Definition AllComplete_outcome (n : nat) (observed : list Status) : FutureImpl :=
  match first_failure observed with
  | Some s => mkFutureImpl FAILURE [] (Some (StoredStatus s))
  | None =>
      if decide (length observed = n)
      then mkFutureImpl SUCCESS [] (Some (StoredStatus Status_OK))
      else mkFutureImpl PENDING [] None
  end.

Definition is_UserCallback (callback : Callback) : bool :=
  match callback with UserCallback _ => true | _ => false end.

(** An input a combinator can be given: a pending future on which only
    clients wait, or a finished one that holds its status. *)
Definition input_ready (w : World) (f : nat) : bool :=
  match cores w !! f with
  | Some c =>
      match state_ c with
      | PENDING => forallb is_UserCallback (callbacks_ c)
      | _ => match result_ c with Some (StoredStatus _) => true | _ => false end
      end
  | None => false
  end.

Definition input_pending (w : World) (f : nat) : bool :=
  match cores w !! f with
  | Some c => negb (IsFutureFinished (state_ c))
  | None => false
  end.

(** The status of an input that is finished already, and the statuses of
    those among [futures], in the order of the list. *)
Definition finished_status (w : World) (f : nat) : option Status :=
  match cores w !! f with
  | Some c =>
      if IsFutureFinished (state_ c)
      then match result_ c with Some (StoredStatus s) => Some s | _ => None end
      else None
  | None => None
  end.

Definition already_finished (w : World) (futures : list nat) : list Status :=
  omap (finished_status w) futures.

(** The same with the inputs named: which input completed with which
    status, and the status a given input completed with. *)
Definition finished_inputs (w : World) (futures : list nat)
  : list (nat * Status) :=
  omap (fun f => match finished_status w f with
                 | Some s => Some (f, s)
                 | None => None
                 end) futures.

Fixpoint lookup_status (observed : list (nat * Status)) (f : nat)
  : option Status :=
  match observed with
  | [] => None
  | (g, s) :: observed' =>
      if decide (g = f) then Some s else lookup_status observed' f
  end.

(** The failure at the least index of a list of results, success when
    there is none. *)
Definition earliest_failure (results : list Status) : Status :=
  match list_find (fun s => ok s = false) results with
  | Some (_, s) => s
  | None => Status_OK
  end.

(** The core of the future [AllFinished] returned for [futures], once
    the completions [observed] have happened: pending until every input
    has completed, then resolved with the earliest failure in the order
    of [futures]. *)
Definition AllFinished_outcome (futures : list nat)
  (observed : list (nat * Status)) : FutureImpl :=
  if decide (length observed = length futures) then
    let s := earliest_failure (omap (lookup_status observed) futures) in
    mkFutureImpl (if ok s then SUCCESS else FAILURE) [] (Some (StoredStatus s))
  else mkFutureImpl PENDING [] None.

(** *** Invariants of the combinators *)

(** A core on which the callback of a combinator is queued behind
    callbacks of clients. *)
Definition queued (callback : Callback) (cs : list FutureImpl) (f : nat) : Prop :=
  exists c tags,
    cs !! f = Some c /\ callbacks_ c = map UserCallback tags ++ [callback].

(** What the callbacks of one [AllComplete] call maintain: the counter
    holds the number of inputs that have not yet succeeded, and the
    output is what the statuses observed so far make it. *)
Definition AllComplete_inv (state out n : nat) (obs : list Status) (w : World)
  : Prop :=
  held w = []
  /\ counters w !! state = Some (Z.of_nat n - Z.of_nat (count_ok obs))%Z
  /\ cores w !! out = Some (AllComplete_outcome n obs).

(** The status a core holds as its result. *)
Definition stored_status (cs : list FutureImpl) (f : nat) : option Status :=
  match cs !! f with
  | Some c => match result_ c with Some (StoredStatus s) => Some s | _ => None end
  | None => None
  end.

(** The core of the future of [All] after the completions [obs]. *)
Definition All_outcome (futures : list nat) (obs : list (nat * Status))
  : FutureImpl :=
  if decide (length obs = length futures)
  then mkFutureImpl SUCCESS []
         (Some (StoredResults (omap (lookup_status obs) futures)))
  else mkFutureImpl PENDING [] None.

Definition All_inv (state out : nat) (futures : list nat)
  (obs : list (nat * Status)) (cs : list FutureImpl) (cnt : list Z) : Prop :=
  cnt !! state = Some (Z.of_nat (length futures) - Z.of_nat (length obs))%Z
  /\ (forall f s, (f, s) ∈ obs -> stored_status cs f = Some s)
  /\ cs !! out = Some (All_outcome futures obs).

(** What the callbacks of one [AllFinished] call maintain once [Then]
    has been applied to the future [all] of [All]. *)
Definition AllFinished_inv (state all next : nat) (futures : list nat)
  (obs : list (nat * Status)) (cs : list FutureImpl) (cnt : list Z) : Prop :=
  cnt !! state = Some (Z.of_nat (length futures) - Z.of_nat (length obs))%Z
  /\ (forall f s, (f, s) ∈ obs -> stored_status cs f = Some s)
  /\ ((length obs < length futures)%nat ->
      cs !! all = Some (mkFutureImpl PENDING
                          [ThenCallback AllFinished_lambda next] None))
  /\ cs !! next = Some (AllFinished_outcome futures obs).

End Core.

(** ** Lazy futures, promises and executors (the lazy future header) *)

Module Lazy.

(** Modelled from the spec: [Result<T>] of the absent result header, "a
    produced Result holding an error" or a value; a [Status] converts to
    the result that carries it. *)
Inductive Result (T : Type) : Type :=
| ResultValue (v : T)
| ResultStatus (s : Status).
Arguments ResultValue {T} v.
Arguments ResultStatus {T} s.

(** The thread of the caller and the threads an executor has spawned. *)
Inductive ThreadId : Type :=
| main_thread
| spawned (n : nat).

#[global] Instance ThreadId_eq_dec : EqDecision ThreadId.
Proof. solve_decision. Defined.

(** The places of the header where a callable is invoked. *)
Inductive CallSite : Type :=
| SupplierCall       (* [supplier()] *)
| ContinuationCall   (* [continuation(...)] in a composition *)
| ConsumerCall       (* [consumer(...)] in a running task *)
| CallbackCall       (* [callback_(...)] of a promise *)
| TaskCall.          (* [task()] in an executor or a thread *)

#[global] Instance CallSite_eq_dec : EqDecision CallSite.
Proof. solve_decision. Defined.

(** An invocation is recorded with its place and the thread it runs on. *)
Inductive Event : Type :=
| EvCall (site : CallSite) (thread : ThreadId).

#[global] Instance Event_eq_dec : EqDecision Event.
Proof. solve_decision. Defined.

Inductive Exception : Type := bad_function_call.

Section WithUserState.

(** The state the callables of the client act on. *)
Variable U : Type.

Record Memory : Type := mkMemory { user : U; trace : list Event }.

(** Code runs on a thread and either returns or throws. *)
Inductive Outcome (R : Type) : Type :=
| Returned (r : R) (m : Memory)
| Threw (ex : Exception) (m : Memory).
Arguments Returned {R} r m.
Arguments Threw {R} ex m.

Definition Run (R : Type) : Type := ThreadId -> Memory -> Outcome R.

Definition ret {R} (r : R) : Run R := fun _ m => Returned r m.
Definition bind {R R'} (c : Run R) (k : R -> Run R') : Run R' :=
  fun thread m =>
    match c thread m with
    | Returned r m' => k r thread m'
    | Threw ex m' => Threw ex m'
    end.

(** [FuncType<R(A)>] is [std::function]: it may be empty. *)
Definition FuncType (A R : Type) : Type := option (A -> Run R).

(** A lambda of the client: it computes on the user state and returns;
    a failure travels as the [Result] or [Status] it returns, as
    everywhere in this code. *)
Definition lambda {A R} (body : A -> U -> R * U) : FuncType A R :=
  Some (fun a _ m =>
          Returned (fst (body a (user m)))
                   (mkMemory (snd (body a (user m))) (trace m))).

(** The invocation of a [std::function] at a place of the header; an
    empty one throws. *)
Definition call {A R} (site : CallSite) (f : FuncType A R) (a : A) : Run R :=
  fun thread m =>
    match f with
    | Some g => g a thread (mkMemory (user m) (trace m ++ [EvCall site thread]))
    | None => Threw bad_function_call m
    end.

Definition Task : Type := FuncType unit unit.
Definition Consumer (T : Type) : Type := FuncType (Result T) unit.
(** [Supplier<T>] as [Compose] and [LazyFuture] call it: with no
    argument, for a result. *)
Definition Supplier (T : Type) : Type := FuncType unit (Result T).
Definition MapTask (T V : Type) : Type := FuncType (Result T) (Result V).

(** *** [Promise] *)

Record Promise (T : Type) : Type := mkPromise { callback_ : Consumer T }.
Arguments mkPromise {T} callback_.
Arguments callback_ {T} p.

(** [~Promise()] *)
Definition Promise_destroy {T} (p : Promise T) : Run unit :=
  match callback_ p with
  | Some _ =>
      call CallbackCall (callback_ p)
           (ResultStatus (Status_Invalid "Abandoned promise"))
  | None => ret tt
  end.

(** [Fulfill]: the promise is returned in the state the call leaves it. *)
Definition Fulfill {T} (p : Promise T) (val : Result T) : Run (Promise T) :=
  bind (call CallbackCall (callback_ p) val)
       (fun _ => ret (mkPromise None)).

(** The life of a promise made from [callback]: the calls of [Fulfill]
    in its scope, up to the first that throws, then its destruction, as
    the scope is left or unwound. *)
Fixpoint Promise_scope {T} (p : Promise T) (vals : list (Result T))
  (thread : ThreadId) (m : Memory) : Promise T * Outcome unit :=
  match vals with
  | [] => (p, Returned tt m)
  | val :: vals' =>
      match Fulfill p val thread m with
      | Returned p' m' => Promise_scope p' vals' thread m'
      | Threw ex m' => (p, Threw ex m')
      end
  end.

Definition Promise_life {T} (callback : Consumer T) (vals : list (Result T))
  : Run unit :=
  fun thread m =>
    match Promise_scope (mkPromise callback) vals thread m with
    | (p, Returned _ m') => Promise_destroy p thread m'
    | (p, Threw ex m') =>
        match Promise_destroy p thread m' with
        | Returned _ m'' => Threw ex m''
        | Threw ex' m'' => Threw ex' m''
        end
    end.

(** *** [Compose] and [LazyFuture] *)

Definition Compose {T V} (supplier : Supplier T) (continuation : MapTask T V)
  : Supplier V :=
  Some (fun _ =>
          bind (call SupplierCall supplier tt)
               (fun r => call ContinuationCall continuation r)).

Record LazyFuture (T : Type) : Type := mkLazyFuture {
  supplier_ : Supplier T;
  executor_ : nat
}.
Arguments mkLazyFuture {T} supplier_ executor_.
Arguments supplier_ {T} l.
Arguments executor_ {T} l.

Definition FutureRunningTask {T} (supplier : Supplier T) (consumer : Consumer T)
  : Task :=
  Some (fun _ =>
          bind (call SupplierCall supplier tt)
               (fun r => call ConsumerCall consumer r)).

Definition Then {T V} (l : LazyFuture T) (map_func : MapTask T V)
  : LazyFuture V :=
  mkLazyFuture (Compose (supplier_ l) map_func) (executor_ l).

(** *** Executors

    An executor is an object of the store, referred to by its address.
    A [ThreadPerTaskExecutor] holds the threads it has spawned. A thread
    runs its task at some moment after it is started; it can be joined
    until it has been joined, and is deleted after that. *)
Inductive Executor : Type :=
| InlineExecutor
| ThreadPerTaskExecutor (threads : list nat).

Inductive ThreadStatus : Type := Started | Finished | Joined | Deleted.

Record Thread : Type := mkThread { task : Task; status : ThreadStatus }.

Record World : Type := mkWorld {
  memory : Memory;
  all_threads : list Thread;
  executors : list Executor
}.

Inductive Fault : Type :=
| Uncaught (ex : Exception)   (* an exception leaves the operation *)
| Terminate                   (* [std::terminate] *)
| InvalidAccess.              (* a dangling address *)

Inductive Result_of (A : Type) : Type :=
| Ok (a : A) (w : World)
| Fail (e : Fault) (w : World).
Arguments Ok {A} a w.
Arguments Fail {A} e w.

Definition M (A : Type) : Type := World -> Result_of A.

Definition mret {A} (a : A) : M A := fun w => Ok a w.
Definition mbind {A B} (c : M A) (k : A -> M B) : M B :=
  fun w => match c w with Ok a w' => k a w' | Fail e w' => Fail e w' end.

Fixpoint for_each {A} (body : A -> M unit) (xs : list A) : M unit :=
  match xs with
  | [] => mret tt
  | x :: xs' => mbind (body x) (fun _ => for_each body xs')
  end.

(** The thread [n] runs its task, if it has not yet; an exception that
    leaves the task terminates the program. *)
Definition run_thread (n : nat) : M unit :=
  fun w =>
    match all_threads w !! n with
    | Some (mkThread task Started) =>
        match call TaskCall task tt (spawned n) (memory w) with
        | Returned _ m' =>
            Ok tt (mkWorld m' (<[n := mkThread task Finished]> (all_threads w))
                     (executors w))
        | Threw _ m' => Fail Terminate (mkWorld m' (all_threads w) (executors w))
        end
    | _ => Ok tt w
    end.

(** The scheduler lets the threads [ns] run, in that order. *)
Definition schedule (ns : list nat) : M unit := for_each run_thread ns.

(** [thread->join()]: waits until the thread has run its task. *)
Definition join (n : nat) : M unit :=
  mbind (run_thread n)
        (fun _ w =>
           match all_threads w !! n with
           | Some (mkThread task Finished) =>
               Ok tt (mkWorld (memory w)
                        (<[n := mkThread task Joined]> (all_threads w))
                        (executors w))
           | Some _ => Fail Terminate w
           | None => Fail InvalidAccess w
           end).

(** [delete thread]: destroying a thread that can still be joined
    terminates the program. *)
Definition delete (n : nat) : M unit :=
  fun w =>
    match all_threads w !! n with
    | Some (mkThread task Joined) =>
        Ok tt (mkWorld (memory w)
                 (<[n := mkThread task Deleted]> (all_threads w))
                 (executors w))
    | Some (mkThread _ Deleted) | None => Fail InvalidAccess w
    | Some _ => Fail Terminate w
    end.

(** [new ThreadPerTaskExecutor] and [new InlineExecutor]. *)
Definition new_executor (e : Executor) : M nat :=
  fun w => Ok (length (executors w))
              (mkWorld (memory w) (all_threads w) (executors w ++ [e])).

(** [Executor::Spawn], dispatched on the executor at the address. *)
Definition Spawn (executor : nat) (task : Task) : M unit :=
  fun w =>
    match executors w !! executor with
    | Some InlineExecutor =>
        match call TaskCall task tt main_thread (memory w) with
        | Returned _ m' => Ok tt (mkWorld m' (all_threads w) (executors w))
        | Threw ex m' =>
            Fail (Uncaught ex) (mkWorld m' (all_threads w) (executors w))
        end
    | Some (ThreadPerTaskExecutor threads) =>
        let n := length (all_threads w) in
        Ok tt (mkWorld (memory w)
                 (all_threads w ++ [mkThread task Started])
                 (<[executor := ThreadPerTaskExecutor (threads ++ [n])]>
                    (executors w)))
    | None => Fail InvalidAccess w
    end.

(** [~ThreadPerTaskExecutor()]: every thread is joined, then deleted.
    While the destructor waits, the scheduler lets other threads run:
    [interleaving] gives the threads that run before each join. *)
Fixpoint join_all (interleaving : list (list nat)) (threads : list nat)
  : M unit :=
  match threads with
  | [] => mret tt
  | thread :: threads' =>
      mbind (schedule (hd [] interleaving))
            (fun _ =>
               mbind (join thread)
                     (fun _ =>
                        mbind (delete thread)
                              (fun _ => join_all (tl interleaving) threads')))
  end.

Definition ThreadPerTaskExecutor_destroy (interleaving : list (list nat))
  (executor : nat) : M unit :=
  fun w =>
    match executors w !! executor with
    | Some (ThreadPerTaskExecutor threads) => join_all interleaving threads w
    | _ => Fail InvalidAccess w
    end.

Definition ConsumeAsync {T} (l : LazyFuture T) (consumer : Consumer T) : M unit :=
  Spawn (executor_ l) (FutureRunningTask (supplier_ l) consumer).

(** The block of the tests: an executor is made, tasks are submitted to
    it, and it is destroyed at the end of the block. After each
    submission, and while the destructor waits, the scheduler lets
    threads run. *)
Definition submit_all (executor : nat) (tasks : list (Task * list nat))
  : M unit :=
  for_each (fun '(task, ns) => mbind (Spawn executor task)
                                     (fun _ => schedule ns)) tasks.

(** A task that returns, and in which nothing but calls of other
    callables on its own thread is recorded: what a task built from
    lambdas of the client does. *)
Definition well_behaved (task : Task) : Prop :=
  exists g, task = Some g
    /\ forall thread m, exists u' evs,
         g tt thread m = Returned tt (mkMemory u' (trace m ++ evs))
         /\ Forall (fun ev => exists site,
                               site <> TaskCall /\ ev = EvCall site thread) evs.

Definition executor_block (tasks : list (Task * list nat))
  (interleaving : list (list nat)) : M nat :=
  mbind (new_executor (ThreadPerTaskExecutor []))
        (fun executor =>
           mbind (submit_all executor tasks)
                 (fun _ =>
                    mbind (ThreadPerTaskExecutor_destroy interleaving executor)
                          (fun _ => mret executor))).

(** *** Invariant of a block with a thread-per-task executor *)

Definition task_event (n : nat) : Event := EvCall TaskCall (spawned n).

(** An event of one of the [k] threads spawned from address [n0] on. *)
Definition ours (n0 k : nat) (ev : Event) : Prop :=
  exists site i, (i < k)%nat /\ ev = EvCall site (spawned (n0 + i)).

Definition joinable (st : ThreadStatus) : Prop := st = Started \/ st = Finished.

(** How the scheduler changes the status of a thread. *)
Definition advance (st st' : ThreadStatus) : Prop :=
  st' = st \/ (st = Started /\ st' = Finished).

(** The state of a block that started with the threads [pre], the
    executors [exs0] and the trace [tr0], after the tasks [ts] have been
    submitted to the new executor: their threads have the statuses
    [sts], and [new] has been recorded. *)
Record block_inv (pre : list Thread) (exs0 : list Executor)
  (tr0 : list Event) (ts : list Task) (sts : list ThreadStatus)
  (new : list Event) (w : World) : Prop := {
  inv_threads : all_threads w = pre ++ zip_with mkThread ts sts;
  inv_length : length sts = length ts;
  inv_tasks : Forall well_behaved ts;
  inv_trace : trace (memory w) = tr0 ++ new;
  inv_execs : executors w
              = exs0 ++ [ThreadPerTaskExecutor (seq (length pre) (length ts))];
  inv_count : forall i st, sts !! i = Some st ->
      count_occ Event_eq_dec new (task_event (length pre + i))
      = match st with Started => 0%nat | _ => 1%nat end;
  inv_ours : Forall (ours (length pre) (length ts)) new;
  inv_pre : Forall (fun th => status th <> Started) pre
}.

(** *** What the tasks of a block have done

    [run_tasks ts n0 order m]: the tasks at the positions [order] of
    [ts] run one after the other from the memory [m], the task at
    position [i] on the thread [spawned (n0 + i)]; there is no result
    when one of them throws. *)
Fixpoint run_tasks (ts : list Task) (n0 : nat) (order : list nat)
  (m : Memory) : option Memory :=
  match order with
  | [] => Some m
  | i :: order' =>
      match ts !! i with
      | Some t =>
          match call TaskCall t tt (spawned (n0 + i)) m with
          | Returned _ m' => run_tasks ts n0 order' m'
          | Threw _ _ => None
          end
      | None => None
      end
  end.

(** The tasks of the threads from address [n0] on. *)
Definition tasks_from (n0 : nat) (w : World) : list Task :=
  drop n0 (task <$> all_threads w).

(** The memory of [w] is what the memory [m0] has become by the runs of
    the threads from [n0] on that have run, each once, in some order;
    the threads below [n0] had run before. *)
Definition ran_inv (n0 : nat) (m0 : Memory) (w : World) : Prop :=
  exists order,
    NoDup order
    /\ (forall i, i ∈ order
                  <-> exists th, all_threads w !! (n0 + i)%nat = Some th
                                 /\ status th <> Started)
    /\ run_tasks (tasks_from n0 w) n0 order m0 = Some (memory w)
    /\ (forall j th, (j < n0)%nat -> all_threads w !! j = Some th ->
                     status th <> Started)
    /\ (n0 <= length (all_threads w))%nat.

End WithUserState.

Arguments mkMemory {U} user trace.
Arguments user {U} m.
Arguments trace {U} m.
Arguments Returned {U R} r m.
Arguments Threw {U R} ex m.
Arguments ret {U R} r _ m.
Arguments bind {U R R'} c k thread m.
Arguments lambda {U A R} body.
Arguments call {U A R} site f a thread m.
Arguments mkPromise {U T} callback_.
Arguments callback_ {U T} p.
Arguments Promise_destroy {U T} p thread m.
Arguments Fulfill {U T} p val thread m.
Arguments Promise_scope {U T} p vals thread m.
Arguments Promise_life {U T} callback vals thread m.
Arguments Compose {U T V} supplier continuation.
Arguments mkLazyFuture {U T} supplier_ executor_.
Arguments supplier_ {U T} l.
Arguments executor_ {U T} l.
Arguments FutureRunningTask {U T} supplier consumer.
Arguments Then {U T V} l map_func.
Arguments mkThread {U} task status.
Arguments task {U} t.
Arguments status {U} t.
Arguments mkWorld {U} memory all_threads executors.
Arguments memory {U} w.
Arguments all_threads {U} w.
Arguments executors {U} w.
Arguments Ok {U A} a w.
Arguments Fail {U A} e w.
Arguments mret {U A} a w.
Arguments mbind {U A B} c k w.
Arguments for_each {U A} body xs w.
Arguments run_thread {U} n w.
Arguments schedule {U} ns w.
Arguments join {U} n w.
Arguments delete {U} n w.
Arguments new_executor {U} e w.
Arguments Spawn {U} executor task w.
Arguments join_all {U} interleaving threads w.
Arguments ThreadPerTaskExecutor_destroy {U} interleaving executor w.
Arguments ConsumeAsync {U T} l consumer w.
Arguments submit_all {U} executor tasks w.
Arguments executor_block {U} tasks interleaving w.
Arguments well_behaved {U} task.
Arguments block_inv {U} pre exs0 tr0 ts sts new w.
Arguments inv_threads {U pre exs0 tr0 ts sts new w} _.
Arguments inv_length {U pre exs0 tr0 ts sts new w} _.
Arguments inv_tasks {U pre exs0 tr0 ts sts new w} _.
Arguments inv_trace {U pre exs0 tr0 ts sts new w} _.
Arguments inv_execs {U pre exs0 tr0 ts sts new w} _.
Arguments inv_count {U pre exs0 tr0 ts sts new w} _ i st _.
Arguments inv_ours {U pre exs0 tr0 ts sts new w} _.
Arguments inv_pre {U pre exs0 tr0 ts sts new w} _.
Arguments run_tasks {U} ts n0 order m.
Arguments tasks_from {U} n0 w.
Arguments ran_inv {U} n0 m0 w.

End Lazy.

(** ** The void variants, chains of continuations and the block of the
    tests (future.h, future_test.cc) *)

Module LazyVoid.
Import Lazy.

Section WithUserState.

Context {U : Type}.

Definition MapTaskVoid (T : Type) : Type := FuncType U (Result T) Status.
Definition VoidSupplier : Type := FuncType U unit Status.
Definition VoidConsumer : Type := FuncType U Status unit.
Definition VoidMapTask (V : Type) : Type := FuncType U Status (Result V).
Definition VoidMapTaskVoid : Type := FuncType U Status Status.

Definition ComposeVoid {T} (supplier : Supplier U T)
  (continuation_void : MapTaskVoid T) : VoidSupplier :=
  Some (fun _ =>
          bind (call SupplierCall supplier tt)
               (fun r => call ContinuationCall continuation_void r)).

Definition VoidCompose {V} (supplier : VoidSupplier)
  (continuation : VoidMapTask V) : Supplier U V :=
  Some (fun _ =>
          bind (call SupplierCall supplier tt)
               (fun r => call ContinuationCall continuation r)).

Definition VoidComposeVoid (supplier : VoidSupplier)
  (continuation : VoidMapTaskVoid) : VoidSupplier :=
  Some (fun _ =>
          bind (call SupplierCall supplier tt)
               (fun r => call ContinuationCall continuation r)).

(** [LazyFuture<void>] *)
Record LazyFuture_void : Type := mkLazyFuture_void {
  void_supplier_ : VoidSupplier;
  void_executor_ : nat
}.

Definition VoidFutureRunningTask (supplier : VoidSupplier)
  (consumer : VoidConsumer) : Task U :=
  Some (fun _ =>
          bind (call SupplierCall supplier tt)
               (fun r => call ConsumerCall consumer r)).

(** [LazyFuture<void>::ConsumeAsync], [::Then] and [::ThenVoid]. *)
Definition ConsumeAsync_void (l : LazyFuture_void) (consumer : VoidConsumer)
  : M U unit :=
  Spawn (void_executor_ l)
        (VoidFutureRunningTask (void_supplier_ l) consumer).

Definition Then_void {V} (l : LazyFuture_void) (map_func : VoidMapTask V)
  : LazyFuture U V :=
  mkLazyFuture (VoidCompose (void_supplier_ l) map_func) (void_executor_ l).

Definition ThenVoid_void (l : LazyFuture_void) (map_func : VoidMapTaskVoid)
  : LazyFuture_void :=
  mkLazyFuture_void (VoidComposeVoid (void_supplier_ l) map_func)
                    (void_executor_ l).

(** [LazyFuture<T>::ThenVoid] *)
Definition ThenVoid {T} (l : LazyFuture U T) (map_func : MapTaskVoid T)
  : LazyFuture_void :=
  mkLazyFuture_void (ComposeVoid (supplier_ l) map_func) (executor_ l).

(** *** Chains

    [fut.Then(f1).Then(f2)...]: the continuations are attached one after
    the other. [chain s fs u] is what the supplier [s] followed by the
    functions [fs], each on the result of the one before, computes from
    the user state [u]. *)
Definition Then_all {T} (l : LazyFuture U T) (map_funcs : list (MapTask U T T))
  : LazyFuture U T :=
  fold_left Then map_funcs l.

Definition chain {T} (s : unit -> U -> Result T * U)
  (fs : list (Result T -> U -> Result T * U)) (u : U) : Result T * U :=
  fold_left (fun ru f => f (fst ru) (snd ru)) fs (s tt u).

(** *** The block of the tests

    A thread-per-task executor is made, a future is made on it and
    consumed, and the block is left, which destroys the executor. The
    scheduler lets the threads [ns] run before the end of the block, and
    others while the destructor waits. *)
Definition consume_block {T} (make_future : nat -> LazyFuture U T)
  (consumer : Consumer U T) (ns : list nat) (interleaving : list (list nat))
  : M U unit :=
  mbind (new_executor (ThreadPerTaskExecutor []))
        (fun executor =>
           mbind (ConsumeAsync (make_future executor) consumer)
                 (fun _ =>
                    mbind (schedule ns)
                          (fun _ =>
                             ThreadPerTaskExecutor_destroy interleaving
                               executor))).

(** What a supplier built from lambdas does when it is called: it
    returns what [g] computes from the user state, and records the calls
    [evs] of the callables it is composed of. *)
Definition supplies {R} (supplier : FuncType U unit R) (g : U -> R * U)
  (evs : ThreadId -> list Event) : Prop :=
  exists body, supplier = Some body
    /\ forall thread m,
         body tt thread m
         = Returned (fst (g (user m)))
                    (mkMemory (snd (g (user m))) (trace m ++ evs thread)).

End WithUserState.

Arguments LazyFuture_void U : clear implicits.
Arguments VoidSupplier U : clear implicits.
Arguments VoidConsumer U : clear implicits.
Arguments VoidMapTask U V : clear implicits.
Arguments VoidMapTaskVoid U : clear implicits.
Arguments MapTaskVoid U T : clear implicits.

End LazyVoid.

(** ** Client programs over the future core

    The operations a client performs on cores through the handles and
    the combinators of future.cc, run one after the other by one
    thread. The factory a program passes to [TryAddCallback] only makes
    its callback. *)

Module Client.
Import Core.
Local Open Scope m_scope.

Inductive Op : Type :=
| OpMake
| OpMakeFinished (s : Status)
| OpMarkFinished (self : nat) (s : Status)
| OpDoMarkFinished (self : nat)
| OpDoMarkFailed (self : nat)
| OpAddCallback (self : nat) (callback : Callback)
| OpTryAddCallback (self : nat) (callback_factory : unit -> Callback)
| OpAllComplete (futures : list nat)
| OpAll (futures : list nat)
| OpThen (self : nat) (on_success : list Status -> Status)
| OpAllFinished (futures : list nat).

Definition run_op (fuel : nat) (op : Op) : M unit :=
  match op with
  | OpMake => Future_Make ;; ret tt
  | OpMakeFinished s => Future_MakeFinished s ;; ret tt
  | OpMarkFinished self s => Future_MarkFinished (run_callback fuel) self s
  | OpDoMarkFinished self => DoMarkFinished (run_callback fuel) self
  | OpDoMarkFailed self => DoMarkFailed (run_callback fuel) self
  | OpAddCallback self callback =>
      Future_AddCallback (run_callback fuel) self callback
  | OpTryAddCallback self callback_factory =>
      TryAddCallback self (ret (callback_factory tt)) ;; ret tt
  | OpAllComplete futures => AllComplete (run_callback fuel) futures ;; ret tt
  | OpAll futures => All (run_callback fuel) futures ;; ret tt
  | OpThen self on_success => Then (run_callback fuel) self on_success ;; ret tt
  | OpAllFinished futures => AllFinished (run_callback fuel) futures ;; ret tt
  end.

Definition run_ops (fuel : nat) (ops : list Op) : M unit :=
  for_each (run_op fuel) ops.

(** A finished core whose queue of callbacks is empty, or a pending
    one. *)
Definition core_drained (c : FutureImpl) : bool :=
  negb (IsFutureFinished (state_ c))
  || match callbacks_ c with [] => true | _ :: _ => false end.

Definition queues_drained (w : World) : bool := forallb core_drained (cores w).

(** Every core of [cs] is still there in [cs'], and finished there if it
    was finished in [cs]. *)
Definition core_stays (c c' : FutureImpl) : bool :=
  implb (IsFutureFinished (state_ c)) (IsFutureFinished (state_ c')).

Definition stays_finished (cs cs' : list FutureImpl) : Prop :=
  forall self c, cs !! self = Some c ->
    exists c', cs' !! self = Some c' /\ core_stays c c' = true.

(** What every returned operation keeps: the mutexes the thread holds,
    the finished cores, and the emptiness of their queues. *)
Definition preserved (w w' : World) : Prop :=
  held w' = held w
  /\ stays_finished (cores w) (cores w')
  /\ (queues_drained w = true -> queues_drained w' = true).

(** *** Accounting for the callbacks of the client

    A callback of the client is identified by its tag. At any moment it
    may sit in the queue of a core, and it may have been invoked: the
    invocations are on the trace. *)
Definition is_tag (tag : nat) (callback : Callback) : bool :=
  match callback with
  | UserCallback tag' => Nat.eqb tag tag'
  | _ => false
  end.

Definition is_invoke (tag : nat) (ev : Event) : bool :=
  match ev with
  | EvInvoke tag' _ _ _ _ => Nat.eqb tag tag'
  | _ => false
  end.

Definition count {A} (p : A -> bool) (xs : list A) : nat :=
  length (List.filter p xs).

Definition queued (tag : nat) (w : World) : nat :=
  count (is_tag tag) (flat_map callbacks_ (cores w)).

Definition delivered (tag : nat) (w : World) : nat :=
  count (is_invoke tag) (trace w).

(** How often the callback is queued or has been invoked. *)
Definition accounted (tag : nat) (w : World) : nat :=
  (queued tag w + delivered tag w)%nat.

(** The operations of a program that hand the callback to a core with
    [AddCallback]. *)
Definition registers (tag : nat) (op : Op) : bool :=
  match op with
  | OpAddCallback _ callback => is_tag tag callback
  | _ => false
  end.

Definition requests (tag : nat) (ops : list Op) : nat :=
  count (registers tag) ops.

(** An operation that does not offer the callback through
    [TryAddCallback], which may decline it. *)
Definition foreign (tag : nat) (op : Op) : bool :=
  match op with
  | OpTryAddCallback _ callback_factory =>
      negb (is_tag tag (callback_factory tt))
  | _ => true
  end.

Definition all_finished (w : World) : bool :=
  forallb (fun c => IsFutureFinished (state_ c)) (cores w).

(** A client program that exercises both combinators, a late callback, a
    failure and a second completion. *)
Definition sample_program : list Op :=
  [OpMake; OpMake; OpAllComplete [0; 1]; OpAllFinished [0; 1];
   OpAddCallback 2 (UserCallback 7);
   OpMarkFinished 0 (Status_Invalid "first");
   OpMarkFinished 1 Status_OK;
   OpTryAddCallback 1 (fun _ => UserCallback 8);
   OpDoMarkFinished 0].

End Client.

(** ** Properties of the future core *)

Module CoreFacts.
Import Core.
Local Open Scope m_scope.

(** *** Running the primitives *)

Arguments run_callback : simpl never.

Ltac run_prims :=
  unfold set_result, new_core, unlock, log, put_core, get_core, fetch_sub,
    bind, ret, gets, modify, set_cores, set_counters, set_held, add_event;
  simpl.

Lemma bind_Ok {A B} (m : M A) (k : A -> M B) w a w' :
  m w = Ok a w' -> bind m k w = k a w'.
Proof. intros H. unfold bind. now rewrite H. Qed.

Lemma bind_assoc {A B C} (m : M A) (k : A -> M B) (k' : B -> M C) w :
  bind (bind m k) k' w = bind m (fun a => bind (k a) k') w.
Proof. unfold bind. destruct (m w); reflexivity. Qed.

Lemma for_each_app {A} (body : A -> M unit) xs ys w :
  for_each body (xs ++ ys) w = bind (for_each body xs) (fun _ => for_each body ys) w.
Proof.
  revert w. induction xs as [|x xs IH]; intros w; simpl.
  - reflexivity.
  - unfold bind in *. destruct (body x w) as [[] w1|e]; [|reflexivity].
    apply IH.
Qed.

Lemma release_notin (m : Mutex) (h : list Mutex) :
  m ∉ h -> release m h = h.
Proof.
  unfold release. induction h as [|x h IH]; intros Hn; [reflexivity|].
  apply not_elem_of_cons in Hn as [Hx Hh].
  rewrite filter_cons_True by congruence. now rewrite IH.
Qed.

Lemma release_cons (m : Mutex) (h : list Mutex) :
  m ∉ h -> release m (m :: h) = h.
Proof.
  intros Hn. unfold release.
  rewrite filter_cons_False by (intros H; now apply H).
  now apply release_notin.
Qed.

Arguments release : simpl never.

Lemma lock_Ok m cs cnt h tr :
  m ∉ h ->
  lock m (mkWorld cs cnt h tr) = Ok tt (mkWorld cs cnt (m :: h) (tr ++ [EvLock m])).
Proof.
  intros Hn. unfold lock, bind, gets; simpl.
  destruct (decide (m ∈ h)); [contradiction|reflexivity].
Qed.

Lemma lock_unlock_Ok {A} m (body : M A) cs cnt h tr a cs' cnt' tr' :
  m ∉ h ->
  body (mkWorld cs cnt (m :: h) (tr ++ [EvLock m])) = Ok a (mkWorld cs' cnt' (m :: h) tr') ->
  (lock m ;; x <- body ;; unlock m ;; ret x) (mkWorld cs cnt h tr)
  = Ok a (mkWorld cs' cnt' h (tr' ++ [EvUnlock m])).
Proof.
  intros Hn Hb. rewrite (bind_Ok _ _ _ _ _ (lock_Ok m cs cnt h tr Hn)).
  rewrite (bind_Ok _ _ _ _ _ Hb). unfold bind, unlock, modify, log, ret; simpl.
  unfold set_held, add_event; simpl. now rewrite release_cons.
Qed.

(** The completion of a core whose mutexes the caller does not hold:
    the state is stored under both mutexes, both are released, the
    waiters are notified, and the drained callbacks run on the core. *)
Lemma DoMarkFinishedOrFailed_run invoke self st cs cnt h tr c :
  global_waiter_mutex ∉ h -> mutex_ self ∉ h ->
  cs !! self = Some c ->
  DoMarkFinishedOrFailed invoke self st (mkWorld cs cnt h tr)
  = for_each (fun callback => invoke callback self) (callbacks_ c)
      (mkWorld (<[self := mkFutureImpl st [] (result_ c)]> cs) cnt h
         (tr ++ [EvLock global_waiter_mutex; EvLock (mutex_ self);
                 EvStore self st (mutex_ self :: global_waiter_mutex :: h);
                 EvUnlock (mutex_ self); EvUnlock global_waiter_mutex;
                 EvNotifyAll self])).
Proof.
  intros Hg Hm Hc. unfold DoMarkFinishedOrFailed.
  rewrite (bind_Ok _ _ _ _ _ (lock_Ok _ cs cnt h tr Hg)).
  assert (Hm' : mutex_ self ∉ global_waiter_mutex :: h).
  { apply not_elem_of_cons. split; [discriminate|assumption]. }
  rewrite (bind_Ok _ _ _ _ _ (lock_Ok _ cs cnt _ _ Hm')).
  pose proof (lookup_lt_Some _ _ _ Hc) as Hlt.
  run_prims. rewrite Hc; simpl.
  rewrite list_lookup_insert_eq by assumption; simpl.
  rewrite list_insert_insert_eq.
  rewrite release_cons by assumption.
  rewrite release_cons by assumption.
  repeat rewrite <- app_assoc. reflexivity.
Qed.

Lemma run_callback_UserCallback fuel tag self :
  run_callback fuel (UserCallback tag) self
  = (c <- get_core self ;;
     h <- gets held ;;
     log (EvInvoke tag self (state_ c) (result_ c) h)).
Proof. destruct fuel; reflexivity. Qed.

(** User callbacks only observe: each one records the state and result
    of the core and the mutexes held, and changes nothing else. *)
Lemma for_each_UserCallback fuel self tags cs cnt h tr c :
  cs !! self = Some c ->
  for_each (fun callback => run_callback fuel callback self)
    (map UserCallback tags) (mkWorld cs cnt h tr)
  = Ok tt (mkWorld cs cnt h
             (tr ++ map (fun tag => EvInvoke tag self (state_ c) (result_ c) h) tags)).
Proof.
  intros Hc. revert tr. induction tags as [|tag tags IH]; intros tr; simpl.
  - now rewrite app_nil_r.
  - rewrite run_callback_UserCallback. run_prims. rewrite Hc; simpl.
    rewrite IH, <- app_assoc; reflexivity.
Qed.

Lemma AddCallback_pending invoke self callback cs cnt h tr c :
  mutex_ self ∉ h ->
  cs !! self = Some c -> IsFutureFinished (state_ c) = false ->
  AddCallback invoke self callback (mkWorld cs cnt h tr)
  = Ok tt (mkWorld
             (<[self := mkFutureImpl (state_ c) (callbacks_ c ++ [callback])
                          (result_ c)]> cs)
             cnt h
             (tr ++ [EvLock (mutex_ self); EvPush self (mutex_ self :: h);
                     EvUnlock (mutex_ self)])).
Proof.
  intros Hm Hc Hp. unfold AddCallback.
  rewrite (bind_Ok _ _ _ _ _ (lock_Ok _ cs cnt h tr Hm)).
  run_prims. rewrite Hc, Hp. run_prims. rewrite release_cons by assumption.
  repeat rewrite <- app_assoc. reflexivity.
Qed.

Lemma AddCallback_finished invoke self callback cs cnt h tr c :
  mutex_ self ∉ h ->
  cs !! self = Some c -> IsFutureFinished (state_ c) = true ->
  AddCallback invoke self callback (mkWorld cs cnt h tr)
  = invoke callback self
      (mkWorld cs cnt h (tr ++ [EvLock (mutex_ self); EvUnlock (mutex_ self)])).
Proof.
  intros Hm Hc Hp. unfold AddCallback.
  rewrite (bind_Ok _ _ _ _ _ (lock_Ok _ cs cnt h tr Hm)).
  run_prims. rewrite Hc, Hp. run_prims. rewrite release_cons by assumption.
  repeat rewrite <- app_assoc. reflexivity.
Qed.

(** Registering user callbacks one after the other on a pending core
    queues them in that order. *)
Lemma register_pending invoke self tags cs cnt h tr c :
  mutex_ self ∉ h ->
  cs !! self = Some c -> IsFutureFinished (state_ c) = false ->
  for_each (fun tag => AddCallback invoke self (UserCallback tag)) tags
    (mkWorld cs cnt h tr)
  = Ok tt (mkWorld
             (<[self := mkFutureImpl (state_ c)
                          (callbacks_ c ++ map UserCallback tags) (result_ c)]> cs)
             cnt h
             (tr ++ flat_map (fun _ => [EvLock (mutex_ self);
                                        EvPush self (mutex_ self :: h);
                                        EvUnlock (mutex_ self)]) tags)).
Proof.
  intros Hm. revert cs tr c.
  induction tags as [|tag tags IH]; intros cs tr c Hc Hp; simpl.
  - rewrite !app_nil_r. destruct c; simpl. now rewrite list_insert_id.
  - rewrite (bind_Ok _ _ _ _ _
               (AddCallback_pending invoke self _ cs cnt h tr c Hm Hc Hp)).
    pose proof (lookup_lt_Some _ _ _ Hc) as Hlt.
    rewrite (IH _ _ (mkFutureImpl (state_ c)
                       (callbacks_ c ++ [UserCallback tag]) (result_ c)));
      [|now apply list_lookup_insert_eq|assumption].
    simpl. rewrite list_insert_insert_eq.
    repeat rewrite <- app_assoc. reflexivity.
Qed.

(** C4. [AddCallback] on a finished core releases the mutex and then runs
    the callback at once, on the caller, which sees the finished state and
    the stored result while no mutex is held; nothing is queued. On a
    pending core the callback is appended to the queue while the mutex of
    the core is held, and is not run. *)
Theorem AddCallback_runs_or_queues fuel w self c tag callback :
  held w = [] -> cores w !! self = Some c ->
  (IsFutureFinished (state_ c) = true ->
   AddCallback (run_callback fuel) self (UserCallback tag) w
   = Ok tt (mkWorld (cores w) (counters w) []
              (trace w ++ [EvLock (mutex_ self); EvUnlock (mutex_ self);
                           EvInvoke tag self (state_ c) (result_ c) []])))
  /\ (IsFutureFinished (state_ c) = false ->
      AddCallback (run_callback fuel) self callback w
      = Ok tt (mkWorld
                 (<[self := mkFutureImpl (state_ c)
                              (callbacks_ c ++ [callback]) (result_ c)]>
                    (cores w))
                 (counters w) []
                 (trace w ++ [EvLock (mutex_ self); EvPush self [mutex_ self];
                              EvUnlock (mutex_ self)]))).
Proof.
  destruct w as [cs cnt h tr]; simpl. intros -> Hc. split; intros Hs.
  - rewrite (AddCallback_finished _ _ _ _ _ _ _ c) by (easy || apply not_elem_of_nil).
    rewrite run_callback_UserCallback. run_prims. rewrite Hc; simpl.
    now rewrite <- app_assoc.
  - now rewrite (AddCallback_pending _ _ _ _ _ _ _ c) by (easy || apply not_elem_of_nil).
Qed.

Lemma AddCallback_runs_or_queues_witness :
  AddCallback (run_callback 0) 0 (UserCallback 7)
    (mkWorld [mkFutureImpl SUCCESS [] (Some (StoredStatus Status_OK))] [] [] [])
  = Ok tt (mkWorld [mkFutureImpl SUCCESS [] (Some (StoredStatus Status_OK))] [] []
             [EvLock (mutex_ 0); EvUnlock (mutex_ 0);
              EvInvoke 7 0 SUCCESS (Some (StoredStatus Status_OK)) []]).
Proof.
  exact (proj1 (AddCallback_runs_or_queues 0
                  (mkWorld [mkFutureImpl SUCCESS [] (Some (StoredStatus Status_OK))]
                     [] [] [])
                  0 _ 7 (UserCallback 7) eq_refl eq_refl) eq_refl).
Defined.

(** C8. [AllComplete] of no future at all returns a new future that is
    already resolved to success; it takes no mutex, touches no other core
    and registers no callback. *)
Theorem AllComplete_empty invoke w :
  AllComplete invoke [] w
  = Ok (length (cores w))
       (mkWorld (cores w ++ [mkFutureImpl SUCCESS [] (Some (StoredStatus Status_OK))])
          (counters w) (held w) (trace w)).
Proof.
  destruct w as [cs cnt h tr]. unfold AllComplete, Future_MakeFinished,
    MakeFinished. run_prims.
  rewrite list_lookup_middle by reflexivity. simpl.
  rewrite insert_app_r_alt by reflexivity. now rewrite Nat.sub_diag.
Qed.

(** C3, amended. The callbacks registered on a pending core are fired
    when it is completed, each once and in the order of registration,
    after the result and the new state have been stored and after both
    mutexes the completion takes have been released; each one sees the
    finished state and the stored result. They run under exactly the
    mutexes the completing caller held already: none for a caller that
    holds none. The queue is left empty. *)
Theorem callbacks_fire_in_registration_order fuel w self c tags0 tags s :
  global_waiter_mutex ∉ held w -> mutex_ self ∉ held w ->
  cores w !! self = Some c ->
  state_ c = PENDING -> callbacks_ c = map UserCallback tags0 ->
  let st := if ok s then SUCCESS else FAILURE in
  (for_each (fun tag => AddCallback (run_callback fuel) self (UserCallback tag))
     tags ;;
   Future_MarkFinished (run_callback fuel) self s) w
  = Ok tt (mkWorld
             (<[self := mkFutureImpl st [] (Some (StoredStatus s))]> (cores w))
             (counters w) (held w)
             (trace w
              ++ flat_map (fun _ => [EvLock (mutex_ self);
                                     EvPush self (mutex_ self :: held w);
                                     EvUnlock (mutex_ self)]) tags
              ++ [EvLock global_waiter_mutex; EvLock (mutex_ self);
                  EvStore self st
                    (mutex_ self :: global_waiter_mutex :: held w);
                  EvUnlock (mutex_ self); EvUnlock global_waiter_mutex;
                  EvNotifyAll self]
              ++ map (fun tag =>
                        EvInvoke tag self st (Some (StoredStatus s)) (held w))
                     (tags0 ++ tags))).
Proof.
  destruct w as [cs cnt h tr]; simpl. intros Hg Hm Hc Hp Hq.
  pose proof (lookup_lt_Some _ _ _ Hc) as Hlt.
  rewrite (bind_Ok _ _ _ _ _
             (register_pending _ self tags cs cnt h tr c
                Hm Hc ltac:(now rewrite Hp))).
  set (c1 := mkFutureImpl (state_ c) (callbacks_ c ++ map UserCallback tags)
               (result_ c)).
  set (c2 := mkFutureImpl (state_ c) (callbacks_ c ++ map UserCallback tags)
               (Some (StoredStatus s))).
  unfold Future_MarkFinished, DoMarkFinished, DoMarkFailed.
  assert (Hset : forall tr',
             set_result self (StoredStatus s)
               (mkWorld (<[self := c1]> cs) cnt h tr')
             = Ok tt (mkWorld (<[self := c2]> cs) cnt h tr')).
  { intros tr'. run_prims.
    rewrite list_lookup_insert_eq by assumption. simpl.
    now rewrite list_insert_insert_eq. }
  rewrite (bind_Ok _ _ _ _ _ (Hset _)).
  assert (Hc2 : <[self := c2]> cs !! self = Some c2)
    by now apply list_lookup_insert_eq.
  assert (Hdone : forall st,
    DoMarkFinishedOrFailed (run_callback fuel) self st
      (mkWorld (<[self := c2]> cs) cnt h
         (tr ++ flat_map (fun _ => [EvLock (mutex_ self);
                                    EvPush self (mutex_ self :: h);
                                    EvUnlock (mutex_ self)]) tags))
    = Ok tt (mkWorld
               (<[self := mkFutureImpl st [] (Some (StoredStatus s))]> cs)
               cnt h
               (tr
                ++ flat_map (fun _ => [EvLock (mutex_ self);
                                       EvPush self (mutex_ self :: h);
                                       EvUnlock (mutex_ self)]) tags
                ++ [EvLock global_waiter_mutex; EvLock (mutex_ self);
                    EvStore self st (mutex_ self :: global_waiter_mutex :: h);
                    EvUnlock (mutex_ self); EvUnlock global_waiter_mutex;
                    EvNotifyAll self]
                ++ map (fun tag =>
                          EvInvoke tag self st (Some (StoredStatus s)) h)
                       (tags0 ++ tags)))).
  { intros st.
    rewrite (DoMarkFinishedOrFailed_run _ _ _ _ _ _ _ c2 Hg Hm Hc2).
    simpl. rewrite list_insert_insert_eq, Hq, <- map_app.
    rewrite (for_each_UserCallback _ _ _ _ _ _ _
               (mkFutureImpl st [] (Some (StoredStatus s))))
      by now apply list_lookup_insert_eq.
    simpl. repeat rewrite <- app_assoc. reflexivity. }
  destruct (ok s); apply Hdone.
Qed.

Lemma callbacks_fire_in_registration_order_witness :
  (for_each (fun tag => AddCallback (run_callback 0) 0 (UserCallback tag)) [5; 3] ;;
   Future_MarkFinished (run_callback 0) 0 (Status_Invalid "x"))
    (mkWorld [mkFutureImpl PENDING [UserCallback 8] None] [] [State_mutex 4] [])
  = Ok tt (mkWorld
             [mkFutureImpl FAILURE []
                (Some (StoredStatus (Status_Invalid "x")))]
             [] [State_mutex 4]
             [EvLock (mutex_ 0); EvPush 0 [mutex_ 0; State_mutex 4];
              EvUnlock (mutex_ 0);
              EvLock (mutex_ 0); EvPush 0 [mutex_ 0; State_mutex 4];
              EvUnlock (mutex_ 0);
              EvLock global_waiter_mutex; EvLock (mutex_ 0);
              EvStore 0 FAILURE
                [mutex_ 0; global_waiter_mutex; State_mutex 4];
              EvUnlock (mutex_ 0); EvUnlock global_waiter_mutex; EvNotifyAll 0;
              EvInvoke 8 0 FAILURE (Some (StoredStatus (Status_Invalid "x")))
                [State_mutex 4];
              EvInvoke 5 0 FAILURE (Some (StoredStatus (Status_Invalid "x")))
                [State_mutex 4];
              EvInvoke 3 0 FAILURE (Some (StoredStatus (Status_Invalid "x")))
                [State_mutex 4]]).
Proof.
  refine (callbacks_fire_in_registration_order 0
            (mkWorld [mkFutureImpl PENDING [UserCallback 8] None] []
               [State_mutex 4] [])
            0 _ [8] [5; 3] (Status_Invalid "x")
            _ _ eq_refl eq_refl eq_refl); compute_done.
Defined.

(** The scenarios of the benchmarks: a callback added before the
    completion is run by the completion, a callback added after it is run
    by [AddCallback]; either way it is run once and sees the success. *)
Example callback_then_finish :
  (self <- Future_Make ;;
   Future_AddCallback (run_callback 0) self (UserCallback 1) ;;
   Future_MarkFinished (run_callback 0) self Status_OK) empty_world
  = Ok tt (mkWorld [mkFutureImpl SUCCESS [] (Some (StoredStatus Status_OK))] [] []
             [EvLock (mutex_ 0); EvPush 0 [mutex_ 0]; EvUnlock (mutex_ 0);
              EvLock global_waiter_mutex; EvLock (mutex_ 0);
              EvStore 0 SUCCESS [mutex_ 0; global_waiter_mutex];
              EvUnlock (mutex_ 0); EvUnlock global_waiter_mutex; EvNotifyAll 0;
              EvInvoke 1 0 SUCCESS (Some (StoredStatus Status_OK)) []]).
Proof. vm_compute. reflexivity. Qed.

Example finish_then_callback :
  (self <- Future_Make ;;
   Future_MarkFinished (run_callback 0) self Status_OK ;;
   Future_AddCallback (run_callback 0) self (UserCallback 1)) empty_world
  = Ok tt (mkWorld [mkFutureImpl SUCCESS [] (Some (StoredStatus Status_OK))] [] []
             [EvLock global_waiter_mutex; EvLock (mutex_ 0);
              EvStore 0 SUCCESS [mutex_ 0; global_waiter_mutex];
              EvUnlock (mutex_ 0); EvUnlock global_waiter_mutex; EvNotifyAll 0;
              EvLock (mutex_ 0); EvUnlock (mutex_ 0);
              EvInvoke 1 0 SUCCESS (Some (StoredStatus Status_OK)) []]).
Proof. vm_compute. reflexivity. Qed.

(** C3, as stated, fails: completing an input of [AllComplete] with a
    failure resolves the output while the mutex of the shared [State]
    is held. The callback registered on the output before its
    completion runs under that mutex (and under no mutex of a core). *)
Lemma callback_fires_under_State_mutex_counterexample :
  match (a <- Future_Make ;;
         out <- AllComplete (run_callback 1) [a] ;;
         Future_AddCallback (run_callback 1) out (UserCallback 9) ;;
         Future_MarkFinished (run_callback 1) a (Status_Invalid "x")) empty_world
  with
  | Ok _ w =>
      List.filter
        (fun ev => match ev with EvInvoke _ _ _ _ _ => true | _ => false end)
        (trace w)
  | Fail _ => []
  end
  = [EvInvoke 9 1 FAILURE (Some (StoredStatus (Status_Invalid "x")))
       [State_mutex 0]].
Proof. vm_compute. reflexivity. Qed.

(** C1, as stated, fails: a core is made, completed with success and
    then marked failed. The second call returns like the first one and
    the state has silently gone from SUCCESS to FAILURE. *)
Lemma second_completion_counterexample :
  (self <- Make ;; DoMarkFinished (run_callback 0) self) empty_world
  = Ok tt (mkWorld [mkFutureImpl SUCCESS [] None] [] []
             [EvLock global_waiter_mutex; EvLock (mutex_ 0);
              EvStore 0 SUCCESS [mutex_ 0; global_waiter_mutex];
              EvUnlock (mutex_ 0); EvUnlock global_waiter_mutex;
              EvNotifyAll 0])
  /\ (self <- Make ;; DoMarkFinished (run_callback 0) self ;;
      DoMarkFailed (run_callback 0) self) empty_world
     = Ok tt (mkWorld [mkFutureImpl FAILURE [] None] [] []
                [EvLock global_waiter_mutex; EvLock (mutex_ 0);
                 EvStore 0 SUCCESS [mutex_ 0; global_waiter_mutex];
                 EvUnlock (mutex_ 0); EvUnlock global_waiter_mutex;
                 EvNotifyAll 0;
                 EvLock global_waiter_mutex; EvLock (mutex_ 0);
                 EvStore 0 FAILURE [mutex_ 0; global_waiter_mutex];
                 EvUnlock (mutex_ 0); EvUnlock global_waiter_mutex;
                 EvNotifyAll 0]).
Proof. split; vm_compute; reflexivity. Qed.

(** C1, amended. [DoMarkFinishedOrFailed] has no guard: called by a
    thread that holds no mutex it always returns; called again on the
    core it has completed, it stores the requested state over the old
    one and notifies the waiters, and it fires no callback a second time,
    the queue having been drained by the first completion. *)
Theorem second_completion_overwrites fuel w self c tags st1 st2 :
  held w = [] -> cores w !! self = Some c ->
  callbacks_ c = map UserCallback tags ->
  exists w1,
    DoMarkFinishedOrFailed (run_callback fuel) self st1 w = Ok tt w1
    /\ cores w1 !! self = Some (mkFutureImpl st1 [] (result_ c))
    /\ DoMarkFinishedOrFailed (run_callback fuel) self st2 w1
       = Ok tt (mkWorld (<[self := mkFutureImpl st2 [] (result_ c)]> (cores w))
                  (counters w) []
                  (trace w1
                   ++ [EvLock global_waiter_mutex; EvLock (mutex_ self);
                       EvStore self st2 [mutex_ self; global_waiter_mutex];
                       EvUnlock (mutex_ self); EvUnlock global_waiter_mutex;
                       EvNotifyAll self])).
Proof.
  destruct w as [cs cnt h tr]; simpl. intros -> Hc Hq.
  pose proof (lookup_lt_Some _ _ _ Hc) as Hlt.
  rewrite (DoMarkFinishedOrFailed_run _ _ _ _ _ _ _ c)
    by (apply not_elem_of_nil || assumption).
  rewrite Hq.
  rewrite (for_each_UserCallback _ _ _ _ _ _ _ (mkFutureImpl st1 [] (result_ c)))
    by now apply list_lookup_insert_eq.
  eexists. split; [reflexivity|]. simpl. split.
  - now apply list_lookup_insert_eq.
  - rewrite (DoMarkFinishedOrFailed_run _ _ _ _ _ _ _
               (mkFutureImpl st1 [] (result_ c)))
      by (apply not_elem_of_nil || now apply list_lookup_insert_eq).
    simpl. now rewrite list_insert_insert_eq.
Qed.

Lemma second_completion_overwrites_witness :
  exists w1,
    DoMarkFinishedOrFailed (run_callback 0) 0 SUCCESS
      (mkWorld [mkFutureImpl PENDING [UserCallback 4] None] [] [] [])
    = Ok tt w1
    /\ cores w1 !! 0 = Some (mkFutureImpl SUCCESS [] None)
    /\ DoMarkFinishedOrFailed (run_callback 0) 0 FAILURE w1
       = Ok tt (mkWorld [mkFutureImpl FAILURE [] None] [] []
                  (trace w1
                   ++ [EvLock global_waiter_mutex; EvLock (mutex_ 0);
                       EvStore 0 FAILURE [mutex_ 0; global_waiter_mutex];
                       EvUnlock (mutex_ 0); EvUnlock global_waiter_mutex;
                       EvNotifyAll 0])).
Proof.
  exact (second_completion_overwrites 0
           (mkWorld [mkFutureImpl PENDING [UserCallback 4] None] [] [] [])
           0 _ [4] SUCCESS FAILURE eq_refl eq_refl eq_refl).
Defined.

(** *** [AllComplete] *)

Lemma to_size_t_to_int64 (z : Z) :
  (0 <= z < 2 ^ 64)%Z -> to_size_t (to_int64 z) = z.
Proof.
  unfold to_size_t, to_int64.
  change (2 ^ 64)%Z with 18446744073709551616%Z.
  change (2 ^ 63)%Z with 9223372036854775808%Z.
  intros Hz. Z.div_mod_to_equations. lia.
Qed.

Lemma first_failure_app obs obs' :
  first_failure (obs ++ obs')
  = match first_failure obs with Some s => Some s | None => first_failure obs' end.
Proof. induction obs as [|s obs IH]; simpl; [reflexivity|]. now destruct (ok s). Qed.

Lemma count_ok_app obs obs' :
  count_ok (obs ++ obs') = (count_ok obs + count_ok obs')%nat.
Proof. induction obs as [|s obs IH]; simpl; [reflexivity|]. rewrite IH. lia. Qed.

Lemma count_ok_le obs : (count_ok obs <= length obs)%nat.
Proof. induction obs as [|s obs IH]; simpl; [lia|]. destruct (ok s); lia. Qed.

Lemma count_ok_no_failure obs :
  first_failure obs = None -> count_ok obs = length obs.
Proof.
  induction obs as [|s obs IH]; simpl; [reflexivity|].
  destruct (ok s); [|discriminate]. intros H. now rewrite IH.
Qed.

Lemma count_ok_failure obs s :
  first_failure obs = Some s -> (count_ok obs < length obs)%nat.
Proof.
  induction obs as [|s' obs IH]; simpl; [discriminate|].
  destruct (ok s').
  - intros H. specialize (IH H). lia.
  - intros _. pose proof (count_ok_le obs). lia.
Qed.

Lemma first_failure_not_ok obs s : first_failure obs = Some s -> ok s = false.
Proof.
  induction obs as [|s' obs IH]; simpl; [discriminate|].
  destruct (ok s') eqn:E; [assumption|]. intros [= <-]. assumption.
Qed.

(** Resolving a future through its handle: the status is stored, then
    the core is completed. *)
Lemma Future_MarkFinished_run invoke self s cs cnt h tr c :
  global_waiter_mutex ∉ h -> mutex_ self ∉ h ->
  cs !! self = Some c ->
  exists tr',
    Future_MarkFinished invoke self s (mkWorld cs cnt h tr)
    = for_each (fun callback => invoke callback self) (callbacks_ c)
        (mkWorld (<[self := mkFutureImpl (if ok s then SUCCESS else FAILURE) []
                              (Some (StoredStatus s))]> cs) cnt h tr').
Proof.
  intros Hg Hm Hc. pose proof (lookup_lt_Some _ _ _ Hc) as Hlt.
  unfold Future_MarkFinished, DoMarkFinished, DoMarkFailed.
  set (c1 := mkFutureImpl (state_ c) (callbacks_ c) (Some (StoredStatus s))).
  assert (Hset : set_result self (StoredStatus s) (mkWorld cs cnt h tr)
                 = Ok tt (mkWorld (<[self := c1]> cs) cnt h tr)).
  { run_prims. now rewrite Hc. }
  rewrite (bind_Ok _ _ _ _ _ Hset).
  assert (Hc1 : <[self := c1]> cs !! self = Some c1)
    by now apply list_lookup_insert_eq.
  destruct (ok s);
    rewrite (DoMarkFinishedOrFailed_run _ _ _ _ _ _ _ c1 Hg Hm Hc1);
    rewrite list_insert_insert_eq; simpl; eexists; reflexivity.
Qed.

Lemma AllComplete_outcome_snoc_failed n obs s s' :
  first_failure obs = Some s ->
  AllComplete_outcome n (obs ++ [s']) = AllComplete_outcome n obs.
Proof.
  intros H. unfold AllComplete_outcome. now rewrite first_failure_app, H.
Qed.

(** One call of the lambda of [AllComplete], on an input that holds the
    status [s]: the observation [s] is added. *)
Lemma AllComplete_lambda_step fuel state out n obs self s cs cnt tr c :
  AllComplete_inv state out n obs (mkWorld cs cnt [] tr) ->
  (length obs < n)%nat -> (Z.of_nat n < 2 ^ 64)%Z ->
  cs !! self = Some c -> result_ c = Some (StoredStatus s) ->
  exists tr',
    AllComplete_lambda (run_callback fuel) state out self (mkWorld cs cnt [] tr)
    = Ok tt (mkWorld (<[out := AllComplete_outcome n (obs ++ [s])]> cs)
               (<[state := (Z.of_nat n - Z.of_nat (count_ok (obs ++ [s])))%Z]> cnt)
               [] tr').
Proof.
  intros (_ & Hcnt & Hout) Hlen Hn Hc Hres. simpl in Hcnt, Hout.
  pose proof (count_ok_le obs) as Hle.
  unfold AllComplete_lambda.
  assert (Hst : Future_status self (mkWorld cs cnt [] tr)
                = Ok s (mkWorld cs cnt [] tr)).
  { unfold Future_status. run_prims. now rewrite Hc, Hres. }
  rewrite (bind_Ok _ _ _ _ _ Hst).
  rewrite count_ok_app; simpl.
  destruct (ok s) eqn:Hok; simpl.
  - (* success: the counter is decremented *)
    unfold bind at 1, fetch_sub; simpl. rewrite Hcnt; simpl.
    unfold set_counters; simpl.
    replace (to_size_t (Z.of_nat n - Z.of_nat (count_ok obs) - 1))
      with (Z.of_nat n - Z.of_nat (count_ok obs + (1 + 0)))%Z.
    2:{ unfold to_size_t. rewrite Z.mod_small; lia. }
    destruct (decide (Z.of_nat n - Z.of_nat (count_ok obs) <> 1)%Z) as [Hne|He].
    + (* not the last one: the output stays as it is *)
      exists tr. unfold ret. f_equal. f_equal.
      symmetry. apply list_insert_id. rewrite Hout. f_equal.
      unfold AllComplete_outcome. rewrite first_failure_app; simpl; rewrite Hok.
      destruct (first_failure obs) as [s0|] eqn:Hff; [reflexivity|].
      rewrite (count_ok_no_failure _ Hff) in Hne.
      rewrite length_app; simpl.
      destruct (decide (length obs = n)); [lia|].
      destruct (decide ((length obs + 1)%nat = n)); [lia|reflexivity].
    + (* the last success *)
      assert (Hff : first_failure obs = None).
      { destruct (first_failure obs) as [s0|] eqn:Hff; [|reflexivity].
        pose proof (count_ok_failure _ _ Hff). lia. }
      rewrite (count_ok_no_failure _ Hff) in He.
      assert (Hpend : cs !! out = Some (mkFutureImpl PENDING [] None)).
      { rewrite Hout. unfold AllComplete_outcome. rewrite Hff.
        destruct (decide (length obs = n)); [lia|reflexivity]. }
      destruct (Future_MarkFinished_run (run_callback fuel) out Status_OK cs
                  (<[state := (Z.of_nat n - Z.of_nat (count_ok obs + (1 + 0)))%Z]> cnt)
                  [] tr _ (not_elem_of_nil _) (not_elem_of_nil _) Hpend)
        as [tr' Hrun].
      exists tr'. rewrite Hrun. simpl. unfold ret. f_equal. f_equal. f_equal.
      unfold AllComplete_outcome. rewrite first_failure_app, Hff; simpl; rewrite Hok.
      rewrite length_app; simpl.
      destruct (decide ((length obs + 1)%nat = n)); [reflexivity|lia].
  - (* failure: the output is resolved unless it is already *)
    rewrite Nat.add_0_r.
    replace (<[state := (Z.of_nat n - Z.of_nat (count_ok obs))%Z]> cnt) with cnt
      by (symmetry; now apply list_insert_id).
    rewrite (bind_Ok _ _ _ _ _
               (lock_Ok (State_mutex state) cs cnt [] tr (not_elem_of_nil _))).
    unfold Future_is_finished. unfold bind at 1 2, get_core; simpl.
    rewrite Hout. unfold ret at 1.
    destruct (first_failure obs) as [s0|] eqn:Hff.
    + (* an earlier failure has resolved the output *)
      assert (Ho : AllComplete_outcome n obs
                   = mkFutureImpl FAILURE [] (Some (StoredStatus s0)))
        by (unfold AllComplete_outcome; now rewrite Hff).
      rewrite Ho; simpl. run_prims. rewrite release_cons by apply not_elem_of_nil.
      eexists. f_equal. f_equal.
      symmetry. apply list_insert_id.
      now rewrite (AllComplete_outcome_snoc_failed _ _ _ _ Hff), Hout, Ho.
    + assert (Ho : AllComplete_outcome n obs = mkFutureImpl PENDING [] None).
      { unfold AllComplete_outcome. rewrite Hff.
        destruct (decide (length obs = n)); [lia|reflexivity]. }
      rewrite Ho; simpl.
      assert (Hpend : cs !! out = Some (mkFutureImpl PENDING [] None))
        by now rewrite Hout, Ho.
      destruct (Future_MarkFinished_run (run_callback fuel) out s cs cnt
                  [State_mutex state] (tr ++ [EvLock (State_mutex state)]) _
                  ltac:(apply not_elem_of_cons; split;
                        [discriminate|apply not_elem_of_nil])
                  ltac:(apply not_elem_of_cons; split;
                        [discriminate|apply not_elem_of_nil]) Hpend)
        as [tr' Hrun].
      unfold bind at 1. rewrite Hrun; simpl. run_prims.
      rewrite release_cons by apply not_elem_of_nil.
      eexists. f_equal. f_equal. f_equal.
      unfold AllComplete_outcome. rewrite first_failure_app, Hff; simpl.
      now rewrite Hok.
Qed.

Lemma AllComplete_inv_step state out n obs s cs cnt tr tr' :
  AllComplete_inv state out n obs (mkWorld cs cnt [] tr) ->
  AllComplete_inv state out n (obs ++ [s])
    (mkWorld (<[out := AllComplete_outcome n (obs ++ [s])]> cs)
       (<[state := (Z.of_nat n - Z.of_nat (count_ok (obs ++ [s])))%Z]> cnt)
       [] tr').
Proof.
  intros (_ & Hcnt & Hout). simpl in *. split; [reflexivity|]. split; simpl.
  - apply list_lookup_insert_eq. now apply lookup_lt_Some in Hcnt.
  - apply list_lookup_insert_eq. now apply lookup_lt_Some in Hout.
Qed.

(** The completion of an input on which the lambda is queued. *)
Lemma complete_step fuel state out n obs f s cs cnt tr :
  AllComplete_inv state out n obs (mkWorld cs cnt [] tr) ->
  (length obs < n)%nat -> (Z.of_nat n < 2 ^ 64)%Z ->
  f <> out -> queued (AllCompleteCallback state out) cs f ->
  exists cs' cnt' tr',
    complete (run_callback (S fuel)) (f, s) (mkWorld cs cnt [] tr)
    = Ok tt (mkWorld cs' cnt' [] tr')
    /\ AllComplete_inv state out n (obs ++ [s]) (mkWorld cs' cnt' [] tr')
    /\ (forall f', f' <> f -> f' <> out -> cs' !! f' = cs !! f').
Proof.
  intros Hinv Hlen Hn Hne (c & tags & Hc & Hq).
  pose proof (lookup_lt_Some _ _ _ Hc) as Hlt.
  unfold complete; cbn [fst snd].
  destruct (Future_MarkFinished_run (run_callback (S fuel)) f s cs cnt [] tr c
              (not_elem_of_nil _) (not_elem_of_nil _) Hc) as [tr1 Hrun].
  rewrite Hrun, Hq, for_each_app. clear Hrun.
  set (c1 := mkFutureImpl (if ok s then SUCCESS else FAILURE) []
               (Some (StoredStatus s))).
  assert (Hc1 : <[f := c1]> cs !! f = Some c1) by now apply list_lookup_insert_eq.
  rewrite (bind_Ok _ _ _ _ _
             (for_each_UserCallback _ _ tags _ cnt [] tr1 c1 Hc1)).
  change (for_each (fun callback => run_callback (S fuel) callback f)
            [AllCompleteCallback state out])
    with (AllComplete_lambda (run_callback fuel) state out f ;; ret tt).
  assert (Hinv1 : AllComplete_inv state out n obs
                    (mkWorld (<[f := c1]> cs) cnt []
                       (tr1 ++ map (fun tag => EvInvoke tag f (state_ c1)
                                                 (result_ c1) []) tags))).
  { destruct Hinv as (_ & Hcnt & Hout). repeat split; simpl in *; [assumption|].
    now rewrite list_lookup_insert_ne. }
  destruct (AllComplete_lambda_step fuel state out n obs f s _ _ _ c1
              Hinv1 Hlen Hn Hc1 eq_refl) as [tr2 Hl].
  unfold bind at 1. rewrite Hl. unfold ret.
  do 3 eexists. split; [reflexivity|]. split.
  - eapply AllComplete_inv_step, Hinv1.
  - intros f' Hf Hf'. now rewrite !list_lookup_insert_ne.
Qed.

(** Completing, one after the other, inputs on which the lambda is
    queued adds their statuses to the observations, in that order. *)
Lemma complete_schedule fuel state out n sched :
  (Z.of_nat n < 2 ^ 64)%Z ->
  forall obs cs cnt tr,
    AllComplete_inv state out n obs (mkWorld cs cnt [] tr) ->
    (length obs + length sched <= n)%nat ->
    NoDup sched.*1 ->
    (forall f, f ∈ sched.*1 -> f <> out /\ queued (AllCompleteCallback state out) cs f) ->
    exists cs' cnt' tr',
      for_each (complete (run_callback (S fuel))) sched (mkWorld cs cnt [] tr)
      = Ok tt (mkWorld cs' cnt' [] tr')
      /\ AllComplete_inv state out n (obs ++ sched.*2) (mkWorld cs' cnt' [] tr').
Proof.
  intros Hn. induction sched as [|[f s] sched IH];
    intros obs cs cnt tr Hinv Hlen Hnd Hq; simpl in *.
  - rewrite app_nil_r. now exists cs, cnt, tr.
  - apply NoDup_cons in Hnd as [Hnotin Hnd].
    destruct (Hq f ltac:(apply list_elem_of_here)) as [Hne Hqf].
    destruct (complete_step fuel state out n obs f s cs cnt tr Hinv
                ltac:(lia) Hn Hne Hqf) as (cs1 & cnt1 & tr1 & Hrun & Hinv1 & Hfr).
    rewrite (bind_Ok _ _ _ _ _ Hrun).
    destruct (IH (obs ++ [s]) cs1 cnt1 tr1 Hinv1) as (cs2 & cnt2 & tr2 & Hrun2 & Hinv2).
    + rewrite length_app; simpl; lia.
    + assumption.
    + intros f' Hf'.
      destruct (Hq f' ltac:(now apply list_elem_of_further)) as [Hne' (c & tags & Hc & Hcb)].
      split; [assumption|]. exists c, tags. split; [|assumption].
      rewrite Hfr; [assumption| |assumption]. intros ->. contradiction.
    + exists cs2, cnt2, tr2. split; [assumption|].
      now rewrite <- app_assoc in Hinv2.
Qed.

Lemma forallb_is_UserCallback callbacks :
  forallb is_UserCallback callbacks = true ->
  exists tags, callbacks = map UserCallback tags.
Proof.
  induction callbacks as [|cb callbacks IH]; simpl; intros H.
  - now exists [].
  - apply andb_prop in H as [Hcb H]. destruct (IH H) as [tags ->].
    destruct cb; try discriminate. now exists (tag :: tags).
Qed.

Lemma input_ready_inv w f :
  input_ready w f = true ->
  exists c, cores w !! f = Some c
    /\ ((state_ c = PENDING /\ exists tags, callbacks_ c = map UserCallback tags)
        \/ (IsFutureFinished (state_ c) = true
            /\ exists s, result_ c = Some (StoredStatus s))).
Proof.
  unfold input_ready. destruct (cores w !! f) as [c|]; [|discriminate].
  intros H. exists c. split; [reflexivity|].
  destruct (state_ c) eqn:Hs.
  - left. split; [reflexivity|]. now apply forallb_is_UserCallback.
  - right. split; [reflexivity|].
    destruct (result_ c) as [[s|]|]; try discriminate. now exists s.
  - right. split; [reflexivity|].
    destruct (result_ c) as [[s|]|]; try discriminate. now exists s.
Qed.

Lemma already_finished_ext w w' fs :
  (forall f, f ∈ fs -> cores w' !! f = cores w !! f) ->
  already_finished w' fs = already_finished w fs.
Proof.
  unfold already_finished. induction fs as [|f fs IH]; intros H;
    [reflexivity|].
  assert (Hf : finished_status w' f = finished_status w f).
  { unfold finished_status. now rewrite (H f) by apply list_elem_of_here. }
  assert (Hfs : omap (finished_status w') fs = omap (finished_status w) fs).
  { apply IH. intros f' Hf'. apply H. now apply list_elem_of_further. }
  change (omap (finished_status w') (f :: fs))
    with (match finished_status w' f with
          | Some s => s :: omap (finished_status w') fs
          | None => omap (finished_status w') fs
          end).
  now rewrite Hf, Hfs.
Qed.

(** The registration loop of [AllComplete]: on a pending input the
    lambda is queued; on a finished input it runs at once and observes
    the status of that input. *)
Lemma register_inputs fuel state out n fs :
  (Z.of_nat n < 2 ^ 64)%Z ->
  forall obs cs cnt tr,
    AllComplete_inv state out n obs (mkWorld cs cnt [] tr) ->
    (length obs + length fs <= n)%nat ->
    NoDup fs ->
    (forall f, f ∈ fs -> f <> out /\ input_ready (mkWorld cs cnt [] tr) f = true) ->
    exists cs' cnt' tr',
      for_each (fun future => Future_AddCallback (run_callback (S fuel)) future
                                (AllCompleteCallback state out)) fs
        (mkWorld cs cnt [] tr)
      = Ok tt (mkWorld cs' cnt' [] tr')
      /\ AllComplete_inv state out n
           (obs ++ already_finished (mkWorld cs cnt [] tr) fs)
           (mkWorld cs' cnt' [] tr')
      /\ (forall f, f ∈ fs -> input_pending (mkWorld cs cnt [] tr) f = true ->
                    queued (AllCompleteCallback state out) cs' f)
      /\ (forall f, f ∉ fs -> f <> out -> cs' !! f = cs !! f).
Proof.
  intros Hn. induction fs as [|f fs IH]; intros obs cs cnt tr Hinv Hlen Hnd Hin.
  - simpl. rewrite app_nil_r. exists cs, cnt, tr.
    split; [reflexivity|]. split; [assumption|]. split; [|reflexivity].
    intros f Hf. now apply elem_of_nil in Hf.
  - apply NoDup_cons in Hnd as [Hnotin Hnd].
    destruct (Hin f ltac:(apply list_elem_of_here)) as [Hne Hready].
    apply input_ready_inv in Hready as (c & Hc & Hcase). simpl in Hc.
    pose proof (lookup_lt_Some _ _ _ Hc) as Hlt.
    simpl for_each. simpl length in Hlen. unfold Future_AddCallback at 1.
    destruct Hcase as [[Hpend [tags Htags]]|[Hfin [s Hres]]].
    + (* a pending input *)
      rewrite (bind_Ok _ _ _ _ _
                 (AddCallback_pending _ f _ cs cnt [] tr c (not_elem_of_nil _) Hc
                    ltac:(now rewrite Hpend))).
      set (c1 := mkFutureImpl (state_ c)
                   (callbacks_ c ++ [AllCompleteCallback state out]) (result_ c)).
      set (tr1 := tr ++ _).
      assert (Hfr1 : forall f', f' <> f -> <[f := c1]> cs !! f' = cs !! f')
        by (intros f' Hf'; now apply list_lookup_insert_ne).
      destruct (IH obs (<[f := c1]> cs) cnt tr1) as (cs2 & cnt2 & tr2 & Hrun & Hinv2 & Hq & Hfr).
      * destruct Hinv as (Hh & Hcnt & Hout). repeat split; simpl in *; try assumption.
        now rewrite Hfr1.
      * lia.
      * assumption.
      * intros f' Hf'. destruct (Hin f' ltac:(now apply list_elem_of_further)) as [Hne' Hr].
        split; [assumption|]. unfold input_ready in *; simpl in *.
        rewrite Hfr1; [assumption|]. intros ->. contradiction.
      * exists cs2, cnt2, tr2. split; [assumption|]. split; [|split].
        -- assert (Haf : already_finished (mkWorld cs cnt [] tr) (f :: fs)
                         = already_finished (mkWorld (<[f := c1]> cs) cnt [] tr1) fs).
           { unfold already_finished at 1; simpl. unfold finished_status at 1; simpl.
             rewrite Hc, Hpend; simpl. symmetry. apply already_finished_ext.
             simpl. intros f' Hf'. apply Hfr1. intros ->. contradiction. }
           now rewrite Haf.
        -- intros f' Hf' Hp. apply elem_of_cons in Hf' as [->|Hf'].
           ++ exists c1, tags. split.
              ** rewrite Hfr by assumption. now apply list_lookup_insert_eq.
              ** simpl. now rewrite Htags.
           ++ apply Hq; [assumption|]. unfold input_pending in *; simpl in *.
              rewrite Hfr1; [assumption|]. intros ->. contradiction.
        -- intros f' Hf' Hne'. apply not_elem_of_cons in Hf' as [Hff Hf'].
           rewrite Hfr by assumption. now apply Hfr1.
    + (* an input that is finished already *)
      unfold bind at 1.
      rewrite (AddCallback_finished _ f _ cs cnt [] tr c (not_elem_of_nil _) Hc Hfin).
      change (run_callback (S fuel) (AllCompleteCallback state out) f)
        with (AllComplete_lambda (run_callback fuel) state out f).
      set (tr1 := tr ++ _).
      assert (Hinv1 : AllComplete_inv state out n obs (mkWorld cs cnt [] tr1))
        by exact Hinv.
      destruct (AllComplete_lambda_step fuel state out n obs f s cs cnt tr1 c
                  Hinv1 ltac:(lia) Hn Hc Hres) as [tr2 Hl].
      rewrite Hl.
      set (cs1 := <[out := _]> cs). set (cnt1 := <[state := _]> cnt).
      assert (Hfr1 : forall f', f' <> out -> cs1 !! f' = cs !! f')
        by (intros f' Hf'; now apply list_lookup_insert_ne).
      destruct (IH (obs ++ [s]) cs1 cnt1 tr2) as (cs2 & cnt2 & tr2' & Hrun & Hinv2 & Hq & Hfr).
      * eapply AllComplete_inv_step, Hinv1.
      * rewrite length_app; simpl; lia.
      * assumption.
      * intros f' Hf'. destruct (Hin f' ltac:(now apply list_elem_of_further)) as [Hne' Hr].
        split; [assumption|]. unfold input_ready in *; simpl in *.
        now rewrite Hfr1.
      * exists cs2, cnt2, tr2'. split; [assumption|]. split; [|split].
        -- assert (Haf : already_finished (mkWorld cs cnt [] tr) (f :: fs)
                         = s :: already_finished (mkWorld cs1 cnt1 [] tr2) fs).
           { unfold already_finished at 1; simpl. unfold finished_status at 1; simpl.
             rewrite Hc, Hfin, Hres; simpl. f_equal. symmetry.
             apply already_finished_ext. simpl. intros f' Hf'. apply Hfr1.
             now destruct (Hin f' ltac:(now apply list_elem_of_further)). }
           rewrite Haf. now rewrite <- app_assoc in Hinv2.
        -- intros f' Hf' Hp. apply elem_of_cons in Hf' as [->|Hf'].
           ++ unfold input_pending in Hp; simpl in Hp. rewrite Hc, Hfin in Hp.
              discriminate.
           ++ apply Hq; [assumption|]. unfold input_pending in *; simpl in *.
              rewrite Hfr1; [assumption|].
              now destruct (Hin f' ltac:(now apply list_elem_of_further)).
        -- intros f' Hf' Hne'. apply not_elem_of_cons in Hf' as [Hff Hf'].
           rewrite Hfr by assumption. now apply Hfr1.
Qed.

Lemma finished_not_pending w f s :
  finished_status w f = Some s -> input_pending w f = false.
Proof.
  unfold finished_status, input_pending.
  destruct (cores w !! f) as [c|]; [|discriminate].
  now destruct (IsFutureFinished (state_ c)).
Qed.

(** Inputs that were finished at the call and inputs completed
    afterwards are different inputs. *)
Lemma observed_bound w futures fs :
  NoDup fs ->
  (forall f, f ∈ fs -> f ∈ futures /\ input_pending w f = true) ->
  (length (already_finished w futures) + length fs <= length futures)%nat.
Proof.
  intros Hnd Hfs.
  assert (Hsub : fs ⊆+ filter (fun f => input_pending w f = true) futures).
  { apply NoDup_submseteq; [assumption|]. intros f Hf.
    apply list_elem_of_filter. destruct (Hfs f Hf). now split. }
  apply submseteq_length in Hsub.
  assert (Hsplit : (length (already_finished w futures)
                    + length (filter (fun f => input_pending w f = true) futures)
                    <= length futures)%nat).
  { clear. unfold already_finished. induction futures as [|f futures IH]; [simpl; lia|].
    change (omap (finished_status w) (f :: futures))
      with (match finished_status w f with
            | Some s => s :: omap (finished_status w) futures
            | None => omap (finished_status w) futures
            end).
    destruct (finished_status w f) as [s|] eqn:Hf.
    - rewrite filter_cons_False
        by (rewrite (finished_not_pending _ _ _ Hf); discriminate).
      simpl. lia.
    - rewrite filter_cons. destruct (decide (input_pending w f = true)); simpl; lia. }
  lia.
Qed.

Lemma AllComplete_nonempty invoke futures :
  futures <> [] ->
  AllComplete invoke futures
  = (state <- new_State (Z.of_nat (length futures)) ;;
     out <- Future_Make ;;
     for_each (fun future =>
                 Future_AddCallback invoke future (AllCompleteCallback state out))
       futures ;;
     ret out).
Proof. destruct futures; [contradiction|reflexivity]. Qed.

(** C2. [AllComplete] over a non-empty list of distinct inputs, some of
    which may be finished already, followed by the completions of
    pending inputs in any order: the returned future is failed with the
    first failure observed, whatever comes later; without a failure it is
    finished with success exactly when all inputs have succeeded, and
    pending until then. *)
Theorem AllComplete_first_failure_or_all_success fuel w futures sched :
  futures <> [] -> NoDup futures ->
  (Z.of_nat (length futures) < 2 ^ 64)%Z ->
  held w = [] ->
  Forall (fun f => input_ready w f = true) futures ->
  NoDup sched.*1 ->
  Forall (fun f => f ∈ futures /\ input_pending w f = true) sched.*1 ->
  exists out w1 w2,
    AllComplete (run_callback (S fuel)) futures w = Ok out w1
    /\ cores w !! out = None
    /\ for_each (complete (run_callback (S fuel))) sched w1 = Ok tt w2
    /\ cores w2 !! out
       = Some (AllComplete_outcome (length futures)
                 (already_finished w futures ++ sched.*2)).
Proof.
  intros Hne Hnd Hn Hh Hready Hsnd Hsched.
  destruct w as [cs cnt h tr]; simpl in Hh; subst h.
  rewrite Forall_forall in Hready. rewrite Forall_forall in Hsched.
  set (n := length futures) in *.
  set (state := length cnt). set (out := length cs).
  set (cs0 := cs ++ [mkFutureImpl PENDING [] None]).
  set (cnt0 := cnt ++ [Z.of_nat n]).
  assert (Hlt : forall f, f ∈ futures -> (f < length cs)%nat).
  { intros f Hf. specialize (Hready f Hf). unfold input_ready in Hready; simpl in Hready.
    destruct (cs !! f) eqn:E; [|discriminate]. now apply lookup_lt_Some in E. }
  assert (Hfr0 : forall f, f ∈ futures -> cs0 !! f = cs !! f).
  { intros f Hf. apply lookup_app_l. now apply Hlt. }
  assert (Hbody : AllComplete (run_callback (S fuel)) futures (mkWorld cs cnt [] tr)
                  = (for_each (fun future =>
                                 Future_AddCallback (run_callback (S fuel)) future
                                   (AllCompleteCallback state out)) futures ;;
                     ret out) (mkWorld cs0 cnt0 [] tr)).
  { rewrite AllComplete_nonempty by assumption.
    unfold new_State, Future_Make, Make. run_prims.
    rewrite to_size_t_to_int64 by lia. reflexivity. }
  assert (Hinv0 : AllComplete_inv state out n [] (mkWorld cs0 cnt0 [] tr)).
  { split; [reflexivity|]. split; simpl.
    - unfold cnt0, state. rewrite list_lookup_middle by reflexivity.
      f_equal. simpl. lia.
    - unfold cs0, out. rewrite list_lookup_middle by reflexivity.
      unfold AllComplete_outcome; simpl.
      destruct (decide (0%nat = n)) as [E|]; [|reflexivity].
      subst n. symmetry in E. apply length_zero_iff_nil in E. contradiction. }
  destruct (register_inputs fuel state out n futures Hn [] cs0 cnt0 tr Hinv0
              ltac:(simpl; lia) Hnd) as (cs1 & cnt1 & tr1 & Hreg & Hinv1 & Hq & _).
  { intros f Hf. split.
    - specialize (Hlt f Hf). unfold out. lia.
    - unfold input_ready; simpl. rewrite Hfr0 by assumption. now apply Hready. }
  assert (Haf : already_finished (mkWorld cs0 cnt0 [] tr) futures
                = already_finished (mkWorld cs cnt [] tr) futures)
    by (apply already_finished_ext; simpl; assumption).
  simpl app in Hinv1. rewrite Haf in Hinv1.
  destruct (complete_schedule fuel state out n sched Hn _ cs1 cnt1 tr1 Hinv1)
    as (cs2 & cnt2 & tr2 & Hrun & Hinv2).
  { unfold n. rewrite <- (length_fmap fst sched).
    apply observed_bound; assumption. }
  { assumption. }
  { intros f Hf. destruct (Hsched f Hf) as [Hin Hp]. split.
    - specialize (Hlt f Hin). unfold out. lia.
    - apply Hq; [assumption|]. unfold input_pending in *; simpl in *.
      now rewrite Hfr0. }
  exists out, (mkWorld cs1 cnt1 [] tr1), (mkWorld cs2 cnt2 [] tr2).
  split; [|split; [|split]].
  - rewrite Hbody. now rewrite (bind_Ok _ _ _ _ _ Hreg).
  - simpl. apply lookup_ge_None. unfold out. lia.
  - assumption.
  - now destruct Hinv2 as (_ & _ & Hout).
Qed.

Lemma AllComplete_first_failure_or_all_success_witness :
  exists out w1 w2,
    AllComplete (run_callback 1) [0; 1; 2]
      (mkWorld [mkFutureImpl SUCCESS [] (Some (StoredStatus Status_OK));
                mkFutureImpl PENDING [UserCallback 5] None;
                mkFutureImpl PENDING [] None] [] [] [])
    = Ok out w1
    /\ [mkFutureImpl SUCCESS [] (Some (StoredStatus Status_OK));
        mkFutureImpl PENDING [UserCallback 5] None;
        mkFutureImpl PENDING [] None] !! out = None
    /\ for_each (complete (run_callback 1))
         [(2, Status_Invalid "late"); (1, Status_OK)] w1 = Ok tt w2
    /\ cores w2 !! out
       = Some (mkFutureImpl FAILURE [] (Some (StoredStatus (Status_Invalid "late")))).
Proof.
  apply (AllComplete_first_failure_or_all_success 0
           (mkWorld [mkFutureImpl SUCCESS [] (Some (StoredStatus Status_OK));
                     mkFutureImpl PENDING [UserCallback 5] None;
                     mkFutureImpl PENDING [] None] [] [] [])
           [0; 1; 2] [(2, Status_Invalid "late"); (1, Status_OK)]).
  - discriminate.
  - compute_done.
  - simpl. lia.
  - reflexivity.
  - repeat constructor.
  - compute_done.
  - compute_done.
Defined.

(** *** [AllFinished] *)

(** The loop of the lambda of [AllFinished] returns the failure at the
    least index. *)
Lemma AllFinished_lambda_earliest results :
  AllFinished_lambda results = earliest_failure results.
Proof.
  unfold earliest_failure. induction results as [|res results IH]; [reflexivity|].
  cbn [AllFinished_lambda list_find]. destruct (ok res) eqn:Hok; cbn [negb].
  - rewrite decide_False by discriminate.
    rewrite IH. now destruct (list_find _ results) as [[i s]|].
  - rewrite decide_True by reflexivity. reflexivity.
Qed.

Lemma stored_status_ext cs cs' f :
  cs' !! f = cs !! f -> stored_status cs' f = stored_status cs f.
Proof. unfold stored_status. now intros ->. Qed.

Lemma Future_status_run f cs cnt h tr s :
  stored_status cs f = Some s ->
  Future_status f (mkWorld cs cnt h tr) = Ok s (mkWorld cs cnt h tr).
Proof.
  unfold stored_status, Future_status. run_prims.
  destruct (cs !! f) as [c|]; [|discriminate]. simpl.
  destruct (result_ c) as [[s'|]|]; try discriminate. now intros [= ->].
Qed.

Lemma omap_cons_Some {A B} (g : A -> option B) x (xs : list A) y :
  g x = Some y -> omap g (x :: xs) = y :: omap g xs.
Proof. intros H. cbn [omap list_omap]. now rewrite H. Qed.

Lemma omap_cons_None {A B} (g : A -> option B) x (xs : list A) :
  g x = None -> omap g (x :: xs) = omap g xs.
Proof. intros H. cbn [omap list_omap]. now rewrite H. Qed.

Lemma omap_ext_in {A B} (g g' : A -> option B) (xs : list A) :
  (forall x, x ∈ xs -> g x = g' x) -> omap g xs = omap g' xs.
Proof.
  induction xs as [|x xs IH]; intros H; [reflexivity|].
  cbn [omap list_omap]. rewrite (H x) by apply list_elem_of_here.
  rewrite IH; [reflexivity|]. intros y Hy. apply H. now apply list_elem_of_further.
Qed.

Lemma All_collect_run invoke out fs cs cnt h tr :
  forall acc,
    (forall f, f ∈ fs -> is_Some (stored_status cs f)) ->
    All_collect invoke out fs acc (mkWorld cs cnt h tr)
    = (set_result out (StoredResults (acc ++ omap (stored_status cs) fs)) ;;
       DoMarkFinished invoke out) (mkWorld cs cnt h tr).
Proof.
  induction fs as [|f fs IH]; intros acc Hs.
  - simpl. now rewrite app_nil_r.
  - destruct (Hs f ltac:(apply list_elem_of_here)) as [s Hf].
    cbn [All_collect]. rewrite (bind_Ok _ _ _ _ _ (Future_status_run f cs cnt h tr s Hf)).
    rewrite IH by (intros f' Hf'; apply Hs; now apply list_elem_of_further).
    now rewrite (omap_cons_Some _ _ _ _ Hf), <- app_assoc.
Qed.

Lemma lookup_status_elem obs f s :
  NoDup obs.*1 -> (f, s) ∈ obs -> lookup_status obs f = Some s.
Proof.
  induction obs as [|[g t] obs IH]; intros Hnd Hin.
  - now apply elem_of_nil in Hin.
  - cbn [fmap list_fmap fst] in Hnd. apply NoDup_cons in Hnd as [Hg Hnd].
    cbn [lookup_status]. apply elem_of_cons in Hin as [[= -> ->]|Hin].
    + now rewrite decide_True.
    + rewrite decide_False; [now apply IH|].
      intros ->. apply Hg. apply list_elem_of_fmap. now exists (f, s).
Qed.

(** Distinct members of a list of distinct elements, as many as the
    list has, are all its elements. *)
Lemma all_observed (l k : list nat) :
  NoDup l -> (forall x, x ∈ l -> x ∈ k) -> length l = length k ->
  forall x, x ∈ k -> x ∈ l.
Proof.
  intros Hl Hsub Hlen x Hx.
  assert (Hp : l ≡ₚ k).
  { apply submseteq_length_Permutation; [now apply NoDup_submseteq|lia]. }
  now rewrite Hp.
Qed.

Lemma All_resolve_run invoke out results cs cnt h tr c :
  global_waiter_mutex ∉ h -> mutex_ out ∉ h ->
  cs !! out = Some c ->
  exists tr',
    (set_result out (StoredResults results) ;; DoMarkFinished invoke out)
      (mkWorld cs cnt h tr)
    = for_each (fun callback => invoke callback out) (callbacks_ c)
        (mkWorld (<[out := mkFutureImpl SUCCESS [] (Some (StoredResults results))]> cs)
           cnt h tr').
Proof.
  intros Hg Hm Hc. pose proof (lookup_lt_Some _ _ _ Hc) as Hlt.
  set (c1 := mkFutureImpl (state_ c) (callbacks_ c) (Some (StoredResults results))).
  assert (Hset : set_result out (StoredResults results) (mkWorld cs cnt h tr)
                 = Ok tt (mkWorld (<[out := c1]> cs) cnt h tr)).
  { run_prims. now rewrite Hc. }
  rewrite (bind_Ok _ _ _ _ _ Hset).
  assert (Hc1 : <[out := c1]> cs !! out = Some c1)
    by now apply list_lookup_insert_eq.
  unfold DoMarkFinished.
  rewrite (DoMarkFinishedOrFailed_run _ _ _ _ _ _ _ c1 Hg Hm Hc1).
  rewrite list_insert_insert_eq; simpl; eexists; reflexivity.
Qed.

(** One call of the lambda of [All]: the counter is decremented, and the
    call that brings it to zero collects the results of all inputs, in
    the order of [futures], and resolves the output, whose callbacks
    [thens] are fired. *)
Lemma All_lambda_step invoke state out futures obs x cs cnt tr thens :
  (Z.of_nat (length futures) < 2 ^ 64)%Z ->
  cnt !! state = Some (Z.of_nat (length futures) - Z.of_nat (length obs))%Z ->
  (length obs < length futures)%nat ->
  cs !! out = Some (mkFutureImpl PENDING thens None) ->
  NoDup (obs ++ [x]).*1 ->
  (forall f, f ∈ (obs ++ [x]).*1 -> f ∈ futures) ->
  (forall f s, (f, s) ∈ obs ++ [x] -> stored_status cs f = Some s) ->
  exists tr',
    All_lambda invoke state out futures (mkWorld cs cnt [] tr)
    = if decide (length (obs ++ [x]) = length futures) then
        for_each (fun callback => invoke callback out) thens
          (mkWorld
             (<[out := mkFutureImpl SUCCESS []
                         (Some (StoredResults
                                  (omap (lookup_status (obs ++ [x])) futures)))]> cs)
             (<[state := (Z.of_nat (length futures)
                          - Z.of_nat (length (obs ++ [x])))%Z]> cnt)
             [] tr')
      else
        Ok tt (mkWorld cs
                 (<[state := (Z.of_nat (length futures)
                              - Z.of_nat (length (obs ++ [x])))%Z]> cnt)
                 [] tr').
Proof.
  intros Hn Hcnt Hlen Hout Hnd Hsub Hst.
  assert (Hlen' : length (obs ++ [x]) = (length obs + 1)%nat)
    by (rewrite length_app; reflexivity).
  assert (Hrun : All_lambda invoke state out futures (mkWorld cs cnt [] tr)
                 = (if decide (Z.of_nat (length futures) - Z.of_nat (length obs) <> 1)%Z
                    then ret tt else All_collect invoke out futures [])
                     (mkWorld cs
                        (<[state := (Z.of_nat (length futures)
                                     - Z.of_nat (length (obs ++ [x])))%Z]> cnt)
                        [] tr)).
  { unfold All_lambda. unfold bind at 1, fetch_sub; simpl. rewrite Hcnt; simpl.
    unfold set_counters; simpl. rewrite Hlen'.
    replace (to_size_t (Z.of_nat (length futures) - Z.of_nat (length obs) - 1))
      with (Z.of_nat (length futures) - Z.of_nat (length obs + 1))%Z.
    2:{ unfold to_size_t. rewrite Z.mod_small; lia. }
    reflexivity. }
  rewrite Hrun. clear Hrun.
  destruct (decide (length (obs ++ [x]) = length futures)) as [Hlast|Hnot].
  - rewrite decide_False by lia.
    assert (Hall : forall f, f ∈ futures ->
                     stored_status cs f = lookup_status (obs ++ [x]) f).
    { intros f Hf.
      assert (Hin : f ∈ (obs ++ [x]).*1).
      { apply (all_observed _ futures); try assumption.
        now rewrite length_fmap. }
      apply list_elem_of_fmap in Hin as ([g s] & -> & Hgs); simpl.
      rewrite (Hst _ _ Hgs). symmetry. now apply lookup_status_elem. }
    rewrite All_collect_run.
    2:{ intros f Hf. rewrite (Hall f Hf).
        assert (Hin : f ∈ (obs ++ [x]).*1).
        { apply (all_observed _ futures); try assumption.
          now rewrite length_fmap. }
        apply list_elem_of_fmap in Hin as ([g s] & -> & Hgs); simpl.
        exists s. now apply lookup_status_elem. }
    rewrite app_nil_l. rewrite (omap_ext_in _ _ _ Hall).
    destruct (All_resolve_run invoke out (omap (lookup_status (obs ++ [x])) futures)
                cs (<[state := (Z.of_nat (length futures)
                                - Z.of_nat (length (obs ++ [x])))%Z]> cnt)
                [] tr _ (not_elem_of_nil _) (not_elem_of_nil _) Hout) as [tr' Hr].
    exists tr'. now rewrite Hr.
  - rewrite decide_True by lia. now exists tr.
Qed.

Lemma Then_lambda_run invoke on_success next self cs cnt tr c results :
  cs !! self = Some c -> result_ c = Some (StoredResults results) ->
  cs !! next = Some (mkFutureImpl PENDING [] None) ->
  exists tr',
    Then_lambda invoke on_success next self (mkWorld cs cnt [] tr)
    = Ok tt (mkWorld
               (<[next := mkFutureImpl
                            (if ok (on_success results) then SUCCESS else FAILURE)
                            [] (Some (StoredStatus (on_success results)))]> cs)
               cnt [] tr').
Proof.
  intros Hc Hres Hnext. unfold Then_lambda. unfold bind at 1, get_core; simpl.
  rewrite Hc, Hres.
  destruct (Future_MarkFinished_run invoke next (on_success results) cs cnt [] tr _
              (not_elem_of_nil _) (not_elem_of_nil _) Hnext) as [tr' Hr].
  exists tr'. now rewrite Hr.
Qed.

Lemma NoDup_length_le (l k : list nat) :
  NoDup l -> (forall x, x ∈ l -> x ∈ k) -> (length l <= length k)%nat.
Proof. intros Hl Hsub. apply submseteq_length. now apply NoDup_submseteq. Qed.

Lemma finished_inputs_cons_Some w f fs s :
  finished_status w f = Some s ->
  finished_inputs w (f :: fs) = (f, s) :: finished_inputs w fs.
Proof. intros H. unfold finished_inputs. apply omap_cons_Some. now rewrite H. Qed.

Lemma finished_inputs_cons_None w f fs :
  finished_status w f = None ->
  finished_inputs w (f :: fs) = finished_inputs w fs.
Proof. intros H. unfold finished_inputs. apply omap_cons_None. now rewrite H. Qed.

Lemma finished_inputs_ext w w' fs :
  (forall f, f ∈ fs -> cores w' !! f = cores w !! f) ->
  finished_inputs w' fs = finished_inputs w fs.
Proof.
  intros H. unfold finished_inputs. apply omap_ext_in. intros f Hf.
  unfold finished_status. now rewrite (H f Hf).
Qed.

(** The registration loop of [All]. *)
Lemma register_All fuel state out futures fs :
  (Z.of_nat (length futures) < 2 ^ 64)%Z -> NoDup futures -> out ∉ futures ->
  forall obs cs cnt tr,
    All_inv state out futures obs cs cnt ->
    NoDup (obs.*1 ++ fs) ->
    (forall f, f ∈ obs.*1 ++ fs -> f ∈ futures) ->
    (forall f, f ∈ fs -> input_ready (mkWorld cs cnt [] tr) f = true) ->
    exists cs' cnt' tr',
      for_each (fun future => Future_AddCallback (run_callback (S fuel)) future
                                (AllCallback state out futures)) fs
        (mkWorld cs cnt [] tr)
      = Ok tt (mkWorld cs' cnt' [] tr')
      /\ All_inv state out futures
           (obs ++ finished_inputs (mkWorld cs cnt [] tr) fs) cs' cnt'
      /\ (forall f, f ∈ fs -> input_pending (mkWorld cs cnt [] tr) f = true ->
                    queued (AllCallback state out futures) cs' f)
      /\ (forall f, f ∉ fs -> f <> out -> cs' !! f = cs !! f)
      /\ length cs' = length cs.
Proof.
  intros Hn Hndf Hout. induction fs as [|f fs IH];
    intros obs cs cnt tr Hinv Hnd Hsub Hready.
  - simpl. rewrite app_nil_r. exists cs, cnt, tr.
    split; [reflexivity|]. split; [assumption|].
    split; [|split; reflexivity].
    intros f Hf. now apply elem_of_nil in Hf.
  - assert (Hff : f ∈ futures).
    { apply Hsub. apply elem_of_app. right. apply list_elem_of_here. }
    assert (Hne : f <> out) by (intros ->; contradiction).
    assert (Hlen : (length obs < length futures)%nat).
    { pose proof (NoDup_length_le _ futures Hnd Hsub) as Hle.
      rewrite length_app, length_fmap in Hle. simpl in Hle. lia. }
    pose proof (Hready f ltac:(apply list_elem_of_here)) as Hr.
    apply input_ready_inv in Hr as (c & Hc & Hcase). simpl in Hc.
    pose proof (lookup_lt_Some _ _ _ Hc) as Hlt.
    cbn [for_each]. unfold Future_AddCallback at 1.
    destruct Hinv as (Hcnt & Hst & Ho).
    destruct Hcase as [[Hpend [tags Htags]]|[Hfin [s Hres]]].
    + (* a pending input *)
      rewrite (bind_Ok _ _ _ _ _
                 (AddCallback_pending _ f _ cs cnt [] tr c (not_elem_of_nil _) Hc
                    ltac:(now rewrite Hpend))).
      set (c1 := mkFutureImpl (state_ c)
                   (callbacks_ c ++ [AllCallback state out futures]) (result_ c)).
      set (tr1 := tr ++ _).
      assert (Hfr1 : forall f', f' <> f -> <[f := c1]> cs !! f' = cs !! f')
        by (intros f' Hf'; now apply list_lookup_insert_ne).
      assert (Hnotin : (f ∉ fs) /\ (f ∉ obs.*1)).
      { apply NoDup_app in Hnd as (_ & Hdisj & Hnd).
        apply NoDup_cons in Hnd as [Hf _]. split; [assumption|].
        intros Hin. apply (Hdisj f Hin). apply list_elem_of_here. }
      destruct Hnotin as [Hnfs Hnobs].
      destruct (IH obs (<[f := c1]> cs) cnt tr1)
        as (cs2 & cnt2 & tr2 & Hrun & Hinv2 & Hq & Hfr & Hl2).
      * split; [assumption|]. split.
        -- intros g t Hgt. rewrite <- (Hst g t Hgt). apply stored_status_ext.
           apply Hfr1. intros ->. apply Hnobs. apply list_elem_of_fmap.
           now exists (f, t).
        -- now rewrite Hfr1.
      * apply NoDup_app in Hnd as (H1 & H2 & H3). apply NoDup_app.
        split; [assumption|]. split.
        -- intros x Hx Hx'. apply (H2 x Hx). now apply list_elem_of_further.
        -- now apply NoDup_cons in H3 as [_ H3].
      * intros g Hg. apply Hsub. apply elem_of_app in Hg as [Hg|Hg];
          apply elem_of_app; [now left|right; now apply list_elem_of_further].
      * intros g Hg. pose proof (Hready g ltac:(now apply list_elem_of_further)) as Hrg.
        unfold input_ready in *; simpl in *.
        rewrite Hfr1; [assumption|]. intros ->. contradiction.
      * exists cs2, cnt2, tr2. split; [assumption|]. split; [|split; [|split]].
        4:{ now rewrite Hl2, length_insert. }
        -- rewrite finished_inputs_cons_None.
           2:{ unfold finished_status; simpl. now rewrite Hc, Hpend. }
           rewrite <- (finished_inputs_ext (mkWorld cs cnt [] tr)
                         (mkWorld (<[f := c1]> cs) cnt [] tr1)); [assumption|].
           simpl. intros g Hg. apply Hfr1. intros ->. contradiction.
        -- intros g Hg Hp. apply elem_of_cons in Hg as [->|Hg].
           ++ exists c1, tags. split.
              ** rewrite Hfr by assumption. now apply list_lookup_insert_eq.
              ** simpl. now rewrite Htags.
           ++ apply Hq; [assumption|]. unfold input_pending in *; simpl in *.
              rewrite Hfr1; [assumption|]. intros ->. contradiction.
        -- intros g Hg Hgo. apply not_elem_of_cons in Hg as [Hgf Hg].
           rewrite Hfr by assumption. now apply Hfr1.
    + (* an input that is finished already *)
      unfold bind at 1.
      rewrite (AddCallback_finished _ f _ cs cnt [] tr c (not_elem_of_nil _) Hc Hfin).
      change (run_callback (S fuel) (AllCallback state out futures) f)
        with (All_lambda (run_callback fuel) state out futures).
      set (tr1 := tr ++ _).
      assert (Hfs : stored_status cs f = Some s)
        by (unfold stored_status; now rewrite Hc, Hres).
      assert (Hnd' : NoDup ((obs ++ [(f, s)]).*1 ++ fs)).
      { rewrite fmap_app; simpl. now rewrite <- app_assoc. }
      assert (Hsub' : forall g, g ∈ (obs ++ [(f, s)]).*1 ++ fs -> g ∈ futures).
      { intros g Hg. apply Hsub. rewrite fmap_app in Hg; simpl in Hg.
        now rewrite <- app_assoc in Hg. }
      assert (Ho' : cs !! out = Some (mkFutureImpl PENDING [] None)).
      { rewrite Ho. unfold All_outcome. now rewrite decide_False by lia. }
      destruct (All_lambda_step (run_callback fuel) state out futures obs (f, s)
                  cs cnt tr1 [] Hn Hcnt Hlen Ho') as [tr2 Hl].
      { now apply NoDup_app in Hnd' as (H1 & _). }
      { intros g Hg. apply Hsub'. apply elem_of_app. now left. }
      { intros g t Hgt. apply elem_of_app in Hgt as [Hgt|Hgt]; [now apply Hst|].
        apply list_elem_of_singleton in Hgt as [= -> ->]. assumption. }
      rewrite Hl. clear Hl.
      set (cnt1 := <[state := _]> cnt).
      set (cs1 := if decide (length (obs ++ [(f, s)]) = length futures)
                  then <[out := All_outcome futures (obs ++ [(f, s)])]> cs else cs).
      assert (Hfr1 : forall g, g <> out -> cs1 !! g = cs !! g).
      { intros g Hg. unfold cs1. destruct (decide _); [|reflexivity].
        now apply list_lookup_insert_ne. }
      assert (Hw : (if decide (length (obs ++ [(f, s)]) = length futures)
                    then for_each (fun callback => run_callback fuel callback out) []
                           (mkWorld
                              (<[out := mkFutureImpl SUCCESS []
                                          (Some (StoredResults
                                                   (omap (lookup_status (obs ++ [(f, s)]))
                                                      futures)))]> cs) cnt1 [] tr2)
                    else Ok tt (mkWorld cs cnt1 [] tr2))
                   = Ok tt (mkWorld cs1 cnt1 [] tr2)).
      { unfold cs1, All_outcome. destruct (decide _); reflexivity. }
      rewrite Hw. clear Hw.
      destruct (IH (obs ++ [(f, s)]) cs1 cnt1 tr2)
        as (cs2 & cnt2 & tr2' & Hrun & Hinv2 & Hq & Hfr & Hl2).
      * split; [|split].
        -- unfold cnt1. apply list_lookup_insert_eq. now apply lookup_lt_Some in Hcnt.
        -- intros g t Hgt.
           assert (Hgo : g <> out).
           { intros ->. apply Hout. apply Hsub'. apply elem_of_app. left.
             apply list_elem_of_fmap. now exists (out, t). }
           rewrite (stored_status_ext cs cs1) by now apply Hfr1.
           apply elem_of_app in Hgt as [Hgt|Hgt]; [now apply Hst|].
           apply list_elem_of_singleton in Hgt as [= -> ->]. assumption.
        -- unfold cs1, All_outcome. destruct (decide _) as [E|E].
           ++ apply list_lookup_insert_eq. now apply lookup_lt_Some in Ho.
           ++ assumption.
      * assumption.
      * assumption.
      * intros g Hg. pose proof (Hready g ltac:(now apply list_elem_of_further)) as Hrg.
        unfold input_ready in *; simpl in *. rewrite Hfr1; [assumption|].
        intros ->. apply Hout, Hsub. apply elem_of_app. right.
        now apply list_elem_of_further.
      * assert (Hfso : forall g, g ∈ fs -> g <> out).
        { intros g Hg ->. apply Hout, Hsub. apply elem_of_app. right.
          now apply list_elem_of_further. }
        exists cs2, cnt2, tr2'. split; [assumption|]. split; [|split; [|split]].
        4:{ rewrite Hl2. unfold cs1. destruct (decide _); [|reflexivity].
            apply length_insert. }
        -- rewrite (finished_inputs_cons_Some _ _ _ s).
           2:{ unfold finished_status; simpl. now rewrite Hc, Hfin, Hres. }
           rewrite <- (finished_inputs_ext (mkWorld cs cnt [] tr)
                         (mkWorld cs1 cnt1 [] tr2)).
           2:{ simpl. intros g Hg. apply Hfr1. now apply Hfso. }
           change ((f, s) :: ?l) with ([(f, s)] ++ l). now rewrite app_assoc.
        -- intros g Hg Hp. apply elem_of_cons in Hg as [->|Hg].
           ++ unfold input_pending in Hp; simpl in Hp. rewrite Hc, Hfin in Hp.
              discriminate.
           ++ apply Hq; [assumption|]. unfold input_pending in *; simpl in *.
              rewrite Hfr1; [assumption|]. now apply Hfso.
        -- intros g Hg Hgo. apply not_elem_of_cons in Hg as [Hgf Hg].
           rewrite Hfr by assumption. now apply Hfr1.
Qed.

Lemma AllFinished_outcome_pending futures obs :
  length obs <> length futures ->
  AllFinished_outcome futures obs = mkFutureImpl PENDING [] None.
Proof. intros H. unfold AllFinished_outcome. now rewrite decide_False. Qed.

Lemma AllFinished_complete_step fuel state all next futures obs f s cs cnt tr :
  (Z.of_nat (length futures) < 2 ^ 64)%Z -> NoDup futures ->
  all ∉ futures -> next ∉ futures -> all <> next ->
  AllFinished_inv state all next futures obs cs cnt ->
  NoDup (obs ++ [(f, s)]).*1 ->
  (forall g, g ∈ (obs ++ [(f, s)]).*1 -> g ∈ futures) ->
  queued (AllCallback state all futures) cs f ->
  exists cs' cnt' tr',
    complete (run_callback (S (S fuel))) (f, s) (mkWorld cs cnt [] tr)
    = Ok tt (mkWorld cs' cnt' [] tr')
    /\ AllFinished_inv state all next futures (obs ++ [(f, s)]) cs' cnt'
    /\ (forall g, g <> f -> g <> all -> g <> next -> cs' !! g = cs !! g).
Proof.
  intros Hn Hndf Hall Hnext Han (Hcnt & Hst & Ha & Hnx) Hnd Hsub (c & tags & Hc & Hq).
  pose proof (lookup_lt_Some _ _ _ Hc) as Hlt.
  assert (Hff : f ∈ futures).
  { apply Hsub. rewrite fmap_app. apply elem_of_app. right. apply list_elem_of_here. }
  assert (Hfa : f <> all) by (intros ->; contradiction).
  assert (Hfn : f <> next) by (intros ->; contradiction).
  assert (Hlen' : length (obs ++ [(f, s)]) = (length obs + 1)%nat)
    by (rewrite length_app; reflexivity).
  assert (Hlen : (length obs < length futures)%nat).
  { pose proof (NoDup_length_le _ futures Hnd Hsub) as Hle.
    rewrite length_fmap in Hle. lia. }
  assert (Hfobs : f ∉ obs.*1).
  { rewrite fmap_app in Hnd. apply NoDup_app in Hnd as (_ & Hdisj & _).
    intros Hin. apply (Hdisj f Hin). apply list_elem_of_here. }
  unfold complete; cbn [fst snd].
  destruct (Future_MarkFinished_run (run_callback (S (S fuel))) f s cs cnt [] tr c
              (not_elem_of_nil _) (not_elem_of_nil _) Hc) as [tr1 Hrun].
  rewrite Hrun, Hq, for_each_app. clear Hrun.
  set (c1 := mkFutureImpl (if ok s then SUCCESS else FAILURE) []
               (Some (StoredStatus s))).
  set (cs1 := <[f := c1]> cs).
  assert (Hc1 : cs1 !! f = Some c1) by now apply list_lookup_insert_eq.
  assert (Hfr1 : forall g, g <> f -> cs1 !! g = cs !! g)
    by (intros g Hg; now apply list_lookup_insert_ne).
  rewrite (bind_Ok _ _ _ _ _
             (for_each_UserCallback _ _ tags _ cnt [] tr1 c1 Hc1)).
  change (for_each (fun callback => run_callback (S (S fuel)) callback f)
            [AllCallback state all futures])
    with (All_lambda (run_callback (S fuel)) state all futures ;; ret tt).
  set (tr2 := tr1 ++ _).
  assert (Hst1 : forall g t, (g, t) ∈ obs ++ [(f, s)] -> stored_status cs1 g = Some t).
  { intros g t Hgt. apply elem_of_app in Hgt as [Hgt|Hgt].
    - rewrite <- (Hst g t Hgt). apply stored_status_ext, Hfr1.
      intros ->. apply Hfobs. apply list_elem_of_fmap. now exists (f, t).
    - apply list_elem_of_singleton in Hgt as [= -> ->].
      unfold stored_status. now rewrite Hc1. }
  destruct (All_lambda_step (run_callback (S fuel)) state all futures obs (f, s)
              cs1 cnt tr2 [ThenCallback AllFinished_lambda next]
              Hn Hcnt Hlen) as [tr3 Hl]; try assumption.
  { rewrite Hfr1 by (intros E; now apply Hfa). now apply Ha. }
  unfold bind at 1. rewrite Hl. clear Hl.
  set (cnt1 := <[state := _]> cnt).
  assert (Hcnt1 : cnt1 !! state
                  = Some (Z.of_nat (length futures)
                          - Z.of_nat (length (obs ++ [(f, s)])))%Z).
  { unfold cnt1. apply list_lookup_insert_eq. now apply lookup_lt_Some in Hcnt. }
  destruct (decide (length (obs ++ [(f, s)]) = length futures)) as [Hlast|Hnot].
  - (* the last input: [all] is resolved and the continuation runs *)
    set (results := omap (lookup_status (obs ++ [(f, s)])) futures).
    set (cs2 := <[all := mkFutureImpl SUCCESS [] (Some (StoredResults results))]> cs1).
    change (for_each (fun callback => run_callback (S fuel) callback all)
              [ThenCallback AllFinished_lambda next])
      with (Then_lambda (run_callback fuel) AllFinished_lambda next all ;; ret tt).
    assert (Hall2 : cs2 !! all
                    = Some (mkFutureImpl SUCCESS [] (Some (StoredResults results)))).
    { apply list_lookup_insert_eq. unfold cs1. rewrite length_insert.
      specialize (Ha Hlen). now apply lookup_lt_Some in Ha. }
    assert (Hnx2 : cs2 !! next = Some (mkFutureImpl PENDING [] None)).
    { unfold cs2. rewrite list_lookup_insert_ne by assumption.
      rewrite Hfr1 by (intros E; now apply Hfn).
      rewrite Hnx. apply f_equal, AllFinished_outcome_pending. lia. }
    destruct (Then_lambda_run (run_callback fuel) AllFinished_lambda next all
                cs2 cnt1 tr3 _ results Hall2 eq_refl Hnx2) as [tr4 Ht].
    unfold bind. rewrite Ht. unfold ret.
    do 3 eexists. split; [reflexivity|]. split.
    + split; [assumption|]. split; [|split].
      * intros g t Hgt. rewrite <- (Hst1 g t Hgt).
        assert (Hg : g ∈ futures).
        { apply Hsub. apply list_elem_of_fmap. now exists (g, t). }
        apply stored_status_ext. unfold cs2.
        rewrite !list_lookup_insert_ne; [reflexivity| |];
          intros ->; contradiction.
      * intros Hlt'. lia.
      * rewrite list_lookup_insert_eq by now apply lookup_lt_Some in Hnx2.
        unfold AllFinished_outcome. rewrite decide_True by assumption.
        fold results. now rewrite AllFinished_lambda_earliest.
    + intros g Hgf Hga Hgn. unfold cs2.
      rewrite !list_lookup_insert_ne by (intros E; congruence). now apply Hfr1.
  - unfold bind, ret. do 3 eexists. split; [reflexivity|]. split.
    + split; [assumption|]. split; [assumption|]. split.
      * intros _. rewrite Hfr1 by (intros E; now apply Hfa). now apply Ha.
      * rewrite Hfr1 by (intros E; now apply Hfn). rewrite Hnx.
        rewrite !AllFinished_outcome_pending by lia. reflexivity.
    + intros g Hgf _ _. now apply Hfr1.
Qed.

Lemma AllFinished_schedule fuel state all next futures sched :
  (Z.of_nat (length futures) < 2 ^ 64)%Z -> NoDup futures ->
  all ∉ futures -> next ∉ futures -> all <> next ->
  forall obs cs cnt tr,
    AllFinished_inv state all next futures obs cs cnt ->
    NoDup (obs.*1 ++ sched.*1) ->
    (forall g, g ∈ obs.*1 ++ sched.*1 -> g ∈ futures) ->
    (forall f, f ∈ sched.*1 -> queued (AllCallback state all futures) cs f) ->
    exists cs' cnt' tr',
      for_each (complete (run_callback (S (S fuel)))) sched (mkWorld cs cnt [] tr)
      = Ok tt (mkWorld cs' cnt' [] tr')
      /\ AllFinished_inv state all next futures (obs ++ sched) cs' cnt'.
Proof.
  intros Hn Hndf Hall Hnext Han. induction sched as [|[f s] sched IH];
    intros obs cs cnt tr Hinv Hnd Hsub Hq.
  - simpl. rewrite app_nil_r. now exists cs, cnt, tr.
  - cbn [fmap list_fmap fst] in Hnd, Hsub, Hq.
    assert (Hnd1 : NoDup ((obs ++ [(f, s)]).*1 ++ sched.*1)).
    { rewrite fmap_app; simpl. now rewrite <- app_assoc. }
    assert (Hsub1 : forall g, g ∈ (obs ++ [(f, s)]).*1 ++ sched.*1 -> g ∈ futures).
    { intros g Hg. apply Hsub. rewrite fmap_app in Hg; simpl in Hg.
      now rewrite <- app_assoc in Hg. }
    destruct (AllFinished_complete_step fuel state all next futures obs f s cs cnt tr
                Hn Hndf Hall Hnext Han Hinv)
      as (cs1 & cnt1 & tr1 & Hrun & Hinv1 & Hfr).
    { now apply NoDup_app in Hnd1 as (H1 & _). }
    { intros g Hg. apply Hsub1. apply elem_of_app. now left. }
    { apply Hq. apply list_elem_of_here. }
    cbn [for_each]. rewrite (bind_Ok _ _ _ _ _ Hrun).
    destruct (IH (obs ++ [(f, s)]) cs1 cnt1 tr1 Hinv1 Hnd1 Hsub1)
      as (cs2 & cnt2 & tr2 & Hrun2 & Hinv2).
    + intros g Hg.
      destruct (Hq g ltac:(now apply list_elem_of_further)) as (c & tags & Hc & Hcb).
      exists c, tags. split; [|assumption].
      assert (Hgf : g ∈ futures).
      { apply Hsub. apply elem_of_app. right. now apply list_elem_of_further. }
      rewrite Hfr; [assumption| | |]; intros ->; try contradiction.
      apply NoDup_app in Hnd as (_ & _ & Hnd). apply NoDup_cons in Hnd as [Hnd _].
      contradiction.
    + exists cs2, cnt2, tr2. split; [assumption|].
      now rewrite <- app_assoc in Hinv2.
Qed.

Lemma All_nonempty invoke futures :
  futures <> [] ->
  All invoke futures
  = (state <- new_State (Z.of_nat (length futures)) ;;
     out <- Future_Make ;;
     for_each (fun future =>
                 Future_AddCallback invoke future (AllCallback state out futures))
       futures ;;
     ret out).
Proof. destruct futures; [contradiction|reflexivity]. Qed.

Lemma finished_inputs_elem w fs f s :
  (f, s) ∈ finished_inputs w fs -> f ∈ fs /\ finished_status w f = Some s.
Proof.
  induction fs as [|g fs IH]; intros H.
  - now apply elem_of_nil in H.
  - destruct (finished_status w g) as [t|] eqn:Hg.
    + rewrite (finished_inputs_cons_Some _ _ _ _ Hg) in H.
      apply elem_of_cons in H as [[= -> ->]|H].
      * split; [apply list_elem_of_here|assumption].
      * destruct (IH H). split; [now apply list_elem_of_further|assumption].
    + rewrite (finished_inputs_cons_None _ _ _ Hg) in H.
      destruct (IH H). split; [now apply list_elem_of_further|assumption].
Qed.

Lemma finished_inputs_NoDup w fs : NoDup fs -> NoDup (finished_inputs w fs).*1.
Proof.
  induction fs as [|g fs IH]; intros Hnd; [constructor|].
  apply NoDup_cons in Hnd as [Hg Hnd].
  destruct (finished_status w g) as [t|] eqn:Hgs.
  - rewrite (finished_inputs_cons_Some _ _ _ _ Hgs). cbn [fmap list_fmap fst].
    apply NoDup_cons. split; [|now apply IH].
    intros Hin. apply list_elem_of_fmap in Hin as ([g' t'] & -> & Hin).
    apply finished_inputs_elem in Hin as [Hin _]. contradiction.
  - rewrite (finished_inputs_cons_None _ _ _ Hgs). now apply IH.
Qed.

(** The call of [AllFinished] on a non-empty list: the future of [All]
    is at the first free address and the returned future, made by
    [Then], at the next one. *)
Lemma AllFinished_call fuel futures cs cnt tr :
  futures <> [] -> NoDup futures ->
  (Z.of_nat (length futures) < 2 ^ 64)%Z ->
  (forall f, f ∈ futures -> input_ready (mkWorld cs cnt [] tr) f = true) ->
  exists cs' cnt' tr',
    AllFinished (run_callback (S (S fuel))) futures (mkWorld cs cnt [] tr)
    = Ok (S (length cs)) (mkWorld cs' cnt' [] tr')
    /\ AllFinished_inv (length cnt) (length cs) (S (length cs)) futures
         (finished_inputs (mkWorld cs cnt [] tr) futures) cs' cnt'
    /\ (forall f, f ∈ futures -> input_pending (mkWorld cs cnt [] tr) f = true ->
                  queued (AllCallback (length cnt) (length cs) futures) cs' f).
Proof.
  intros Hne Hnd Hn Hready.
  set (state := length cnt). set (all := length cs). set (next := S (length cs)).
  set (cs0 := cs ++ [mkFutureImpl PENDING [] None]).
  set (cnt0 := cnt ++ [Z.of_nat (length futures)]).
  assert (Hlt : forall f, f ∈ futures -> (f < length cs)%nat).
  { intros f Hf. specialize (Hready f Hf). unfold input_ready in Hready; simpl in Hready.
    destruct (cs !! f) eqn:E; [|discriminate]. now apply lookup_lt_Some in E. }
  assert (Hall : all ∉ futures) by (intros H; apply Hlt in H; unfold all in H; lia).
  assert (Hnext : next ∉ futures) by (intros H; apply Hlt in H; unfold next in H; lia).
  assert (Hfr0 : forall f, f ∈ futures -> cs0 !! f = cs !! f).
  { intros f Hf. apply lookup_app_l. now apply Hlt. }
  assert (Hlen0 : (0 < length futures)%nat).
  { destruct futures; [contradiction|simpl; lia]. }
  assert (Hinv0 : All_inv state all futures [] cs0 cnt0).
  { split; [|split].
    - unfold cnt0, state. rewrite list_lookup_middle by reflexivity.
      f_equal. simpl. lia.
    - intros f s H. now apply elem_of_nil in H.
    - unfold cs0, all. rewrite list_lookup_middle by reflexivity.
      unfold All_outcome. rewrite decide_False by (simpl; lia). reflexivity. }
  destruct (register_All (S fuel) state all futures futures Hn Hnd Hall []
              cs0 cnt0 tr Hinv0) as (cs1 & cnt1 & tr1 & Hreg & Hinv1 & Hq & Hfr & Hl1).
  { exact Hnd. }
  { intros f Hf. exact Hf. }
  { intros f Hf. unfold input_ready; simpl. rewrite Hfr0 by assumption.
    now apply Hready. }
  rewrite app_nil_l in Hinv1.
  rewrite (finished_inputs_ext (mkWorld cs cnt [] tr) (mkWorld cs0 cnt0 [] tr))
    in Hinv1 by (simpl; assumption).
  set (obs := finished_inputs (mkWorld cs cnt [] tr) futures) in *.
  destruct Hinv1 as (Hcnt1 & Hst1 & Ho1).
  assert (Hlen1 : length cs1 = next).
  { rewrite Hl1. unfold cs0, next. rewrite length_app; simpl. lia. }
  assert (Hrun1 : AllFinished (run_callback (S (S fuel))) futures (mkWorld cs cnt [] tr)
                  = (Future_AddCallback (run_callback (S (S fuel))) all
                       (ThenCallback AllFinished_lambda next) ;; ret next)
                      (mkWorld (cs1 ++ [mkFutureImpl PENDING [] None]) cnt1 [] tr1)).
  { unfold AllFinished. rewrite All_nonempty by assumption.
    assert (Hall_run : (state0 <- new_State (Z.of_nat (length futures)) ;;
                        out <- Future_Make ;;
                        for_each (fun future =>
                                    Future_AddCallback (run_callback (S (S fuel))) future
                                      (AllCallback state0 out futures)) futures ;;
                        ret out) (mkWorld cs cnt [] tr)
                       = Ok all (mkWorld cs1 cnt1 [] tr1)).
    { unfold new_State, Future_Make, Make. run_prims.
      rewrite to_size_t_to_int64 by lia.
      fold cs0 cnt0 state all. now rewrite Hreg. }
    rewrite (bind_Ok _ _ _ _ _ Hall_run).
    unfold Then, Future_Make, Make. run_prims. now rewrite Hlen1. }
  rewrite Hrun1. clear Hrun1. unfold Future_AddCallback.
  set (cs1' := cs1 ++ [mkFutureImpl PENDING [] None]).
  assert (Hall1 : (all < length cs1)%nat) by (rewrite Hlen1; unfold all, next; lia).
  assert (Hfr1 : forall g, (g < length cs1)%nat -> cs1' !! g = cs1 !! g)
    by (intros g Hg; now apply lookup_app_l).
  assert (Hnx1 : cs1' !! next = Some (mkFutureImpl PENDING [] None)).
  { unfold cs1'. now apply list_lookup_middle. }
  assert (Hfl : forall g, g ∈ futures -> (g < length cs1)%nat).
  { intros g Hg. apply Hlt in Hg. rewrite Hlen1. unfold next. lia. }
  destruct (decide (length obs = length futures)) as [Hdone|Hnot].
  - (* every input was finished: the continuation runs at once *)
    set (results := omap (lookup_status obs) futures).
    assert (Ha : cs1' !! all
                 = Some (mkFutureImpl SUCCESS [] (Some (StoredResults results)))).
    { rewrite Hfr1 by assumption. rewrite Ho1. unfold All_outcome.
      now rewrite decide_True. }
    unfold bind at 1.
    rewrite (AddCallback_finished _ all _ cs1' cnt1 [] tr1 _ (not_elem_of_nil _) Ha
               eq_refl).
    change (run_callback (S (S fuel)) (ThenCallback AllFinished_lambda next) all)
      with (Then_lambda (run_callback (S fuel)) AllFinished_lambda next all).
    destruct (Then_lambda_run (run_callback (S fuel)) AllFinished_lambda next all
                cs1' cnt1 (tr1 ++ [EvLock (mutex_ all); EvUnlock (mutex_ all)])
                _ results Ha eq_refl Hnx1) as [tr2 Ht].
    rewrite Ht. unfold ret. do 3 eexists. split; [reflexivity|]. split.
    + split; [assumption|]. split; [|split].
      * intros g t Hgt. rewrite <- (Hst1 g t Hgt).
        assert (Hg : g ∈ futures) by (now apply finished_inputs_elem in Hgt as [Hg _]).
        apply stored_status_ext.
        rewrite list_lookup_insert_ne by (intros ->; contradiction).
        apply Hfr1. now apply Hfl.
      * intros Hlt'. lia.
      * rewrite list_lookup_insert_eq by now apply lookup_lt_Some in Hnx1.
        unfold AllFinished_outcome. rewrite decide_True by assumption.
        fold results. now rewrite AllFinished_lambda_earliest.
    + intros g Hg Hp. destruct (Hq g Hg) as (c & tags & Hc & Hcb).
      { unfold input_pending in *; simpl in *. now rewrite Hfr0. }
      exists c, tags. split; [|assumption].
      rewrite list_lookup_insert_ne by (intros ->; contradiction).
      rewrite Hfr1 by now apply Hfl. assumption.
  - (* some input is pending: the continuation is queued on [all] *)
    assert (Ha : cs1' !! all = Some (mkFutureImpl PENDING [] None)).
    { rewrite Hfr1 by assumption. rewrite Ho1. unfold All_outcome.
      now rewrite decide_False. }
    rewrite (bind_Ok _ _ _ _ _
               (AddCallback_pending _ all _ cs1' cnt1 [] tr1 _ (not_elem_of_nil _) Ha
                  eq_refl)).
    unfold ret. do 3 eexists. split; [reflexivity|]. split.
    + split; [assumption|]. split; [|split].
      * intros g t Hgt. rewrite <- (Hst1 g t Hgt).
        assert (Hg : g ∈ futures) by (now apply finished_inputs_elem in Hgt as [Hg _]).
        apply stored_status_ext.
        rewrite list_lookup_insert_ne by (intros ->; contradiction).
        apply Hfr1. now apply Hfl.
      * intros _. simpl. apply list_lookup_insert_eq. now apply lookup_lt_Some in Ha.
      * rewrite list_lookup_insert_ne by (unfold all, next; lia).
        change (S all) with next.
        rewrite Hnx1. now rewrite AllFinished_outcome_pending.
    + intros g Hg Hp. destruct (Hq g Hg) as (c & tags & Hc & Hcb).
      { unfold input_pending in *; simpl in *. now rewrite Hfr0. }
      exists c, tags. split; [|assumption].
      rewrite list_lookup_insert_ne by (intros ->; contradiction).
      rewrite Hfr1 by now apply Hfl. assumption.
Qed.

(** [AllFinished] of no future at all: the future of [All] is made
    finished with no result, so the continuation runs at once. *)
Lemma AllFinished_empty fuel cs cnt tr :
  exists tr',
    AllFinished (run_callback (S fuel)) [] (mkWorld cs cnt [] tr)
    = Ok (S (length cs))
         (mkWorld (cs ++ [mkFutureImpl SUCCESS [] (Some (StoredResults []));
                          mkFutureImpl SUCCESS [] (Some (StoredStatus Status_OK))])
            cnt [] tr').
Proof.
  set (a := mkFutureImpl SUCCESS [] (Some (StoredResults []))).
  set (cs1 := (cs ++ [a]) ++ [mkFutureImpl PENDING [] None]).
  assert (Hrun : AllFinished (run_callback (S fuel)) [] (mkWorld cs cnt [] tr)
                 = (Future_AddCallback (run_callback (S fuel)) (length cs)
                      (ThenCallback AllFinished_lambda (S (length cs))) ;;
                    ret (S (length cs))) (mkWorld cs1 cnt [] tr)).
  { unfold AllFinished, All, MakeFinished, Then, Future_Make, Make. run_prims.
    rewrite list_lookup_middle by reflexivity. simpl.
    rewrite insert_app_r_alt by reflexivity. rewrite Nat.sub_diag. simpl.
    rewrite length_app. simpl. rewrite Nat.add_1_r. reflexivity. }
  rewrite Hrun. clear Hrun. unfold Future_AddCallback.
  assert (Ha : cs1 !! length cs = Some a).
  { unfold cs1. rewrite lookup_app_l by (rewrite length_app; simpl; lia).
    now apply list_lookup_middle. }
  assert (Hn : cs1 !! S (length cs) = Some (mkFutureImpl PENDING [] None)).
  { unfold cs1. apply list_lookup_middle. rewrite length_app; simpl; lia. }
  unfold bind at 1.
  rewrite (AddCallback_finished _ _ _ cs1 cnt [] tr a (not_elem_of_nil _) Ha eq_refl).
  change (run_callback (S fuel) (ThenCallback AllFinished_lambda (S (length cs)))
            (length cs))
    with (Then_lambda (run_callback fuel) AllFinished_lambda (S (length cs))
            (length cs)).
  destruct (Then_lambda_run (run_callback fuel) AllFinished_lambda (S (length cs))
              (length cs) cs1 cnt
              (tr ++ [EvLock (mutex_ (length cs)); EvUnlock (mutex_ (length cs))])
              a [] Ha eq_refl Hn) as [tr' Ht].
  rewrite Ht. exists tr'. unfold ret. f_equal. f_equal. simpl.
  unfold cs1. rewrite insert_app_r_alt by (rewrite length_app; simpl; lia).
  rewrite length_app; simpl. rewrite Nat.add_1_r, Nat.sub_diag. simpl.
  now rewrite <- app_assoc.
Qed.

(** C5. [AllFinished] over a list of distinct inputs, some of which may
    be finished already, followed by the completions of pending inputs
    in any order: the returned future stays pending until every input
    has completed; it is then resolved with the failure of the failing
    input that comes first in the list, whatever the order of the
    completions, and with success when no input failed. *)
Theorem AllFinished_earliest_failure_after_all fuel w futures sched :
  NoDup futures ->
  (Z.of_nat (length futures) < 2 ^ 64)%Z ->
  held w = [] ->
  Forall (fun f => input_ready w f = true) futures ->
  NoDup sched.*1 ->
  Forall (fun f => f ∈ futures /\ input_pending w f = true) sched.*1 ->
  exists out w1 w2,
    AllFinished (run_callback (S (S fuel))) futures w = Ok out w1
    /\ cores w !! out = None
    /\ for_each (complete (run_callback (S (S fuel)))) sched w1 = Ok tt w2
    /\ cores w2 !! out
       = Some (AllFinished_outcome futures (finished_inputs w futures ++ sched)).
Proof.
  intros Hnd Hn Hh Hready Hsnd Hsched.
  destruct w as [cs cnt h tr]; simpl in Hh; subst h.
  rewrite Forall_forall in Hready. rewrite Forall_forall in Hsched.
  destruct (decide (futures = [])) as [->|Hne].
  - (* no input *)
    assert (sched = []) as ->.
    { destruct sched as [|[f s] sched]; [reflexivity|].
      destruct (Hsched f ltac:(apply list_elem_of_here)) as [Hf _].
      now apply elem_of_nil in Hf. }
    destruct (AllFinished_empty (S fuel) cs cnt tr) as [tr' Hrun].
    do 3 eexists. split; [exact Hrun|]. split; [|split].
    + simpl. apply lookup_ge_None. lia.
    + reflexivity.
    + simpl. rewrite lookup_app_r by lia.
      replace (S (length cs) - length cs)%nat with 1%nat by lia. reflexivity.
  - destruct (AllFinished_call fuel futures cs cnt tr Hne Hnd Hn Hready)
      as (cs1 & cnt1 & tr1 & Hrun & Hinv & Hq).
    assert (Hlt : forall f, f ∈ futures -> (f < length cs)%nat).
    { intros f Hf. specialize (Hready f Hf).
      unfold input_ready in Hready; simpl in Hready.
      destruct (cs !! f) eqn:E; [|discriminate]. now apply lookup_lt_Some in E. }
    destruct (AllFinished_schedule fuel (length cnt) (length cs) (S (length cs))
                futures sched Hn Hnd) with (obs := finished_inputs (mkWorld cs cnt [] tr) futures)
                                           (cs := cs1) (cnt := cnt1) (tr := tr1)
      as (cs2 & cnt2 & tr2 & Hrun2 & Hinv2).
    + intros H. apply Hlt in H. lia.
    + intros H. apply Hlt in H. lia.
    + lia.
    + assumption.
    + apply NoDup_app. split; [now apply finished_inputs_NoDup|]. split; [|assumption].
      intros f Hf Hf'. apply list_elem_of_fmap in Hf as ([g s] & -> & Hgs).
      apply finished_inputs_elem in Hgs as [_ Hfin].
      destruct (Hsched _ Hf') as [_ Hp]. simpl in Hp.
      now rewrite (finished_not_pending _ _ _ Hfin) in Hp.
    + intros g Hg. apply elem_of_app in Hg as [Hg|Hg].
      * apply list_elem_of_fmap in Hg as ([g' s] & -> & Hgs).
        now apply finished_inputs_elem in Hgs as [Hg _].
      * now destruct (Hsched g Hg).
    + intros f Hf. destruct (Hsched f Hf). now apply Hq.
    + exists (S (length cs)), (mkWorld cs1 cnt1 [] tr1), (mkWorld cs2 cnt2 [] tr2).
      split; [assumption|]. split; [|split].
      * simpl. apply lookup_ge_None. lia.
      * assumption.
      * now destruct Hinv2 as (_ & _ & _ & Hout).
Qed.

Lemma AllFinished_earliest_failure_after_all_witness :
  exists out w1 w2,
    AllFinished (run_callback 2) [0; 1; 2]
      (mkWorld [mkFutureImpl PENDING [] None;
                mkFutureImpl PENDING [UserCallback 5] None;
                mkFutureImpl FAILURE [] (Some (StoredStatus (Status_Invalid "c")))]
         [] [] [])
    = Ok out w1
    /\ [mkFutureImpl PENDING [] None;
        mkFutureImpl PENDING [UserCallback 5] None;
        mkFutureImpl FAILURE [] (Some (StoredStatus (Status_Invalid "c")))] !! out
       = None
    /\ for_each (complete (run_callback 2))
         [(1, Status_Invalid "b"); (0, Status_Invalid "a")] w1 = Ok tt w2
    /\ cores w2 !! out
       = Some (mkFutureImpl FAILURE [] (Some (StoredStatus (Status_Invalid "a")))).
Proof.
  apply (AllFinished_earliest_failure_after_all 0
           (mkWorld [mkFutureImpl PENDING [] None;
                     mkFutureImpl PENDING [UserCallback 5] None;
                     mkFutureImpl FAILURE [] (Some (StoredStatus (Status_Invalid "c")))]
              [] [] [])
           [0; 1; 2] [(1, Status_Invalid "b"); (0, Status_Invalid "a")]).
  - compute_done.
  - simpl. lia.
  - reflexivity.
  - repeat constructor.
  - compute_done.
  - compute_done.
Defined.

End CoreFacts.

(** ** Properties of lazy futures, promises and executors *)

Module LazyFacts.
Import Lazy.

Notation "x <- c1 ;; c2" := (mbind c1 (fun x => c2))
  (at level 100, c1 at next level, right associativity, only parsing).
Notation "c1 ;; c2" := (mbind c1 (fun _ => c2))
  (at level 100, right associativity, only parsing).

Section WithUserState.

Context {U : Type}.

(** C6. [Then] runs nothing: it builds the lazy future whose supplier
    is the composition of the held supplier with the continuation, on
    the same executor. Consumed on an inline executor, the composed
    future runs on the calling thread, before [ConsumeAsync] returns: the
    supplier, the continuation on its result, and then the consumer,
    once, on the result of the continuation. *)
Theorem Then_composes_and_inline_consumes {T V : Type}
  (s : unit -> U -> Result T * U) (f : Result T -> U -> Result V * U)
  (c : Result V -> U -> unit * U) (executor : nat) (w : World U) :
  executors w !! executor = Some InlineExecutor ->
  supplier_ (Then (mkLazyFuture (lambda s) executor) (lambda f))
  = Compose (lambda s) (lambda f)
  /\ executor_ (Then (mkLazyFuture (lambda s) executor) (lambda f)) = executor
  /\ ConsumeAsync (Then (mkLazyFuture (lambda s) executor) (lambda f)) (lambda c) w
     = Ok tt
         (mkWorld
            (mkMemory
               (snd (c (fst (f (fst (s tt (user (memory w))))
                               (snd (s tt (user (memory w))))))
                       (snd (f (fst (s tt (user (memory w))))
                               (snd (s tt (user (memory w))))))))
               (trace (memory w)
                ++ [EvCall TaskCall main_thread;
                    EvCall SupplierCall main_thread;
                    EvCall SupplierCall main_thread;
                    EvCall ContinuationCall main_thread;
                    EvCall ConsumerCall main_thread]))
            (all_threads w) (executors w)).
Proof.
  intros He. split; [reflexivity|]. split; [reflexivity|].
  unfold ConsumeAsync, Spawn. cbn [executor_ supplier_ Then]. rewrite He.
  unfold Compose, FutureRunningTask, call, bind, lambda; simpl.
  repeat rewrite <- app_assoc. reflexivity.
Qed.

(** C7. A promise that holds a callable and is destroyed without having
    been fulfilled invokes that callable, once, with the failure status
    Invalid "Abandoned promise". *)
Theorem abandoned_promise_fails {T : Type}
  (g : Result T -> Run U unit) (thread : ThreadId) (m : Memory U) :
  Promise_life (Some g) [] thread m
  = g (ResultStatus (Status_Invalid "Abandoned promise")) thread
      (mkMemory (user m) (trace m ++ [EvCall CallbackCall thread]))
  /\ ok (Status_Invalid "Abandoned promise") = false.
Proof.
  split; [|reflexivity].
  unfold Promise_life, Promise_scope, Promise_destroy, call; simpl.
  reflexivity.
Qed.

Lemma Promise_scope_fulfilled {T : Type} (vals : list (Result T)) thread (m : Memory U) :
  Promise_scope (mkPromise None) vals thread m
  = (mkPromise None,
     match vals with [] => Returned tt m | _ => Threw bad_function_call m end).
Proof. destruct vals; reflexivity. Qed.

(** C10, as stated, fails: a callable that throws when [Fulfill]
    invokes it is not cleared, and the destruction of the promise, as
    the exception unwinds its scope, invokes it a second time. The user
    state counts the invocations. *)
Lemma promise_callback_twice_counterexample :
  Promise_life
    (Some (fun (r : Result nat) (_ : ThreadId) (m : Memory nat) =>
             match r with
             | ResultValue _ =>
                 Threw bad_function_call (mkMemory (S (user m)) (trace m))
             | ResultStatus _ =>
                 Returned tt (mkMemory (S (user m)) (trace m))
             end))
    [ResultValue 5] main_thread (mkMemory 0 [])
  = Threw bad_function_call
      (mkMemory 2 [EvCall CallbackCall main_thread;
                   EvCall CallbackCall main_thread]).
Proof. reflexivity. Qed.

(** C10, amended. Over the life of a promise a held callable that
    returns normally is invoked at most once: the first [Fulfill]
    invokes it and clears it, a further [Fulfill] throws without
    invoking anything, and the destruction invokes nothing; when
    [Fulfill] is never called, the destruction invokes it, once. With
    nothing held, nothing is invoked. A callable that throws out of
    [Fulfill] stays held: the destruction invokes it once more, and the
    exception goes on when that invocation returns. *)
Theorem promise_callback_at_most_once {T : Type}
  (g : Result T -> Run U unit) (val : Result T) (vals : list (Result T))
  (thread : ThreadId) (m : Memory U) :
  (forall m',
     g val thread (mkMemory (user m) (trace m ++ [EvCall CallbackCall thread]))
     = Returned tt m' ->
     Promise_life (Some g) (val :: vals) thread m
     = (match vals with
        | [] => Returned tt
        | _ => Threw bad_function_call
        end) m')
  /\ (forall ex m1 m2,
        g val thread
          (mkMemory (user m) (trace m ++ [EvCall CallbackCall thread]))
        = Threw ex m1 ->
        g (ResultStatus (Status_Invalid "Abandoned promise")) thread
          (mkMemory (user m1) (trace m1 ++ [EvCall CallbackCall thread]))
        = Returned tt m2 ->
        Promise_life (Some g) (val :: vals) thread m = Threw ex m2)
  /\ Promise_life (Some g) [] thread m
     = g (ResultStatus (Status_Invalid "Abandoned promise")) thread
         (mkMemory (user m) (trace m ++ [EvCall CallbackCall thread]))
  /\ Promise_life (@None (Result T -> Run U unit)) (val :: vals) thread m
     = Threw bad_function_call m
  /\ Promise_life (@None (Result T -> Run U unit)) [] thread m = Returned tt m.
Proof.
  split; [|split; [|split; [|split]]].
  - intros m' Hg. unfold Promise_life. cbn [Promise_scope].
    unfold Fulfill, bind, call, ret; simpl. rewrite Hg.
    rewrite Promise_scope_fulfilled. destruct vals; reflexivity.
  - intros ex m1 m2 Hg Hd. unfold Promise_life. cbn [Promise_scope].
    unfold Fulfill, bind, call, ret; simpl. rewrite Hg.
    unfold Promise_destroy, call; simpl. now rewrite Hd.
  - unfold Promise_life, Promise_scope, Promise_destroy, call; simpl.
    now destruct (g _ _ _).
  - reflexivity.
  - reflexivity.
Qed.

(** *** Thread-per-task executor *)

Lemma block_thread pre exs0 tr0 ts sts new (w : World U) i t st :
  block_inv pre exs0 tr0 ts sts new w ->
  ts !! i = Some t -> sts !! i = Some st ->
  all_threads w !! (length pre + i)%nat = Some (mkThread t st).
Proof.
  intros H Ht Hs. rewrite (inv_threads H).
  rewrite lookup_app_r by lia.
  replace (length pre + i - length pre)%nat with i by lia.
  rewrite lookup_zip_with, Ht, Hs. reflexivity.
Qed.

(** A change of the status of a thread that has run leaves the
    invariant. *)
Lemma block_set_status pre exs0 tr0 ts sts new (w : World U) i t st st' :
  block_inv pre exs0 tr0 ts sts new w ->
  ts !! i = Some t -> sts !! i = Some st ->
  st <> Started -> st' <> Started ->
  block_inv pre exs0 tr0 ts (<[i := st']> sts) new
    (mkWorld (memory w)
       (<[(length pre + i)%nat := mkThread t st']> (all_threads w))
       (executors w)).
Proof.
  intros H Ht Hs Hst Hst'. destruct H as [Hth Hlen Htasks Htr Hex Hcnt Hours Hpre].
  constructor; simpl; try assumption.
  - rewrite Hth, insert_app_r. f_equal.
    rewrite <- (list_insert_id ts i t Ht) at 2.
    now rewrite <- insert_zip_with.
  - now rewrite length_insert.
  - intros j stj Hj. destruct (decide (j = i)) as [->|Hne].
    + rewrite list_lookup_insert_eq in Hj by now apply lookup_lt_Some in Hs.
      injection Hj as <-. rewrite (Hcnt i st Hs).
      destruct st, st'; congruence.
    + rewrite list_lookup_insert_ne in Hj by congruence. now apply Hcnt.
Qed.

Lemma count_occ_quiet thread n (evs : list Event) :
  Forall (fun ev => exists site, site <> TaskCall /\ ev = EvCall site thread) evs ->
  count_occ Event_eq_dec evs (task_event n) = 0%nat.
Proof.
  intros H. apply count_occ_not_In. intros Hin.
  rewrite Forall_forall in H. apply list_elem_of_In in Hin.
  destruct (H _ Hin) as (site & Hsite & Heq). unfold task_event in Heq.
  congruence.
Qed.

(** The scheduler lets one thread run. *)
Lemma run_thread_inv pre exs0 tr0 ts sts new (w : World U) n :
  block_inv pre exs0 tr0 ts sts new w ->
  exists w' sts' new',
    run_thread n w = Ok tt w'
    /\ block_inv pre exs0 tr0 ts sts' new' w'
    /\ Forall2 advance sts sts'
    /\ (forall i, n = (length pre + i)%nat -> sts !! i = Some Started ->
                  sts' !! i = Some Finished).
Proof.
  intros H. pose proof H as [Hth Hlen Htasks Htr Hex Hcnt Hours Hpre].
  assert (Hsame : Forall2 advance sts sts).
  { apply Forall2_same_length_lookup. split; [reflexivity|].
    intros i x y Hx Hy. left. congruence. }
  unfold run_thread.
  destruct (decide (n < length pre)%nat) as [Hlt|Hge].
  - (* a thread that was there before the block: it has run *)
    rewrite Hth, lookup_app_l by assumption.
    destruct (pre !! n) as [[t st]|] eqn:Hn.
    + rewrite Forall_lookup in Hpre. specialize (Hpre _ _ Hn). simpl in Hpre.
      exists w, sts, new. destruct st; try contradiction;
        (split; [reflexivity|split; [assumption|split; [assumption|]]]);
        intros i ->; lia.
    + exists w, sts, new. split; [reflexivity|]. split; [assumption|].
      split; [assumption|]. intros i ->; lia.
  - set (i := (n - length pre)%nat). assert (Hn : n = (length pre + i)%nat) by lia.
    destruct (sts !! i) as [st|] eqn:Hs.
    + destruct (ts !! i) as [t|] eqn:Ht.
      2:{ apply lookup_lt_Some in Hs. apply lookup_ge_None in Ht. lia. }
      rewrite Hn, (block_thread _ _ _ _ _ _ _ _ _ _ H Ht Hs).
      destruct st.
      * (* started: the task runs now *)
        rewrite Forall_lookup in Htasks.
        destruct (Htasks _ _ Ht) as (g & -> & Hg).
        destruct (Hg (spawned (length pre + i))
                    (mkMemory (user (memory w))
                       (trace (memory w) ++ [EvCall TaskCall (spawned (length pre + i))])))
          as (u' & evs & Hrun & Hevs).
        simpl in Hrun. unfold call. rewrite Hrun.
        exists (mkWorld
                  (mkMemory u' ((trace (memory w)
                                 ++ [EvCall TaskCall (spawned (length pre + i))]) ++ evs))
                  (<[(length pre + i)%nat := mkThread (Some g) Finished]> (all_threads w))
                  (executors w)),
          (<[i := Finished]> sts), (new ++ task_event (length pre + i) :: evs).
        split; [reflexivity|]. split; [|split].
        -- constructor; simpl; try assumption.
           ++ rewrite Hth, insert_app_r. f_equal.
              rewrite <- (list_insert_id ts i (Some g) Ht) at 2.
              now rewrite <- insert_zip_with.
           ++ now rewrite length_insert.
           ++ now apply Forall_lookup.
           ++ rewrite Htr. unfold task_event. now rewrite <- !app_assoc.
           ++ intros j stj Hj. rewrite count_occ_app.
              destruct (decide (j = i)) as [->|Hne].
              ** rewrite list_lookup_insert_eq in Hj by now apply lookup_lt_Some in Hs.
                 injection Hj as <-. rewrite (Hcnt i Started Hs).
                 rewrite count_occ_cons_eq by reflexivity.
                 now rewrite (count_occ_quiet _ _ _ Hevs).
              ** rewrite list_lookup_insert_ne in Hj by congruence.
                 rewrite (Hcnt j stj Hj).
                 rewrite count_occ_cons_neq
                   by (unfold task_event; intros [= Hc]; lia).
                 rewrite (count_occ_quiet _ _ _ Hevs). lia.
           ++ apply Forall_app. split; [assumption|]. apply Forall_cons. split.
              ** exists TaskCall, i. split; [|reflexivity].
                 now apply lookup_lt_Some in Ht.
              ** eapply Forall_impl; [exact Hevs|]. intros ev (site & _ & ->).
                 exists site, i. split; [|reflexivity].
                 now apply lookup_lt_Some in Ht.
        -- apply Forall2_same_length_lookup. split; [now rewrite length_insert|].
           intros j x y Hx Hy. destruct (decide (j = i)) as [->|Hne].
           ++ rewrite list_lookup_insert_eq in Hy by now apply lookup_lt_Some in Hs.
              right. split; congruence.
           ++ rewrite list_lookup_insert_ne in Hy by congruence. left. congruence.
        -- intros j Hj _. assert (j = i) as -> by lia.
           apply list_lookup_insert_eq. now apply lookup_lt_Some in Hs.
      * exists w, sts, new. split; [reflexivity|]. split; [assumption|].
        split; [assumption|]. intros j Hj Hsj. assert (j = i) as -> by lia. congruence.
      * exists w, sts, new. split; [reflexivity|]. split; [assumption|].
        split; [assumption|]. intros j Hj Hsj. assert (j = i) as -> by lia. congruence.
      * exists w, sts, new. split; [reflexivity|]. split; [assumption|].
        split; [assumption|]. intros j Hj Hsj. assert (j = i) as -> by lia. congruence.
    + (* no such thread *)
      assert (Hnone : all_threads w !! n = None).
      { apply lookup_ge_None. rewrite Hth, length_app, length_zip_with.
        apply lookup_ge_None in Hs. lia. }
      rewrite Hnone. exists w, sts, new. split; [reflexivity|]. split; [assumption|].
      split; [assumption|]. intros j Hj Hsj. assert (j = i) as -> by lia. congruence.
Qed.

Lemma advance_trans sts sts' sts'' :
  Forall2 advance sts sts' -> Forall2 advance sts' sts'' ->
  Forall2 advance sts sts''.
Proof.
  intros H1 H2. eapply Forall2_trans; [|exact H1|exact H2].
  intros a b c [->|[-> ->]] [->|[Hb ->]]; unfold advance; auto; discriminate.
Qed.

Lemma schedule_inv pre exs0 tr0 ts ns :
  forall sts new (w : World U),
    block_inv pre exs0 tr0 ts sts new w ->
    exists w' sts' new',
      schedule ns w = Ok tt w'
      /\ block_inv pre exs0 tr0 ts sts' new' w'
      /\ Forall2 advance sts sts'.
Proof.
  induction ns as [|n ns IH]; intros sts new w H.
  - exists w, sts, new. split; [reflexivity|]. split; [assumption|].
    apply Forall2_same_length_lookup. split; [reflexivity|].
    intros i x y Hx Hy. left. congruence.
  - destruct (run_thread_inv _ _ _ _ _ _ _ n H) as (w1 & sts1 & new1 & Hr & H1 & Ha & _).
    destruct (IH _ _ _ H1) as (w2 & sts2 & new2 & Hr2 & H2 & Ha2).
    exists w2, sts2, new2. split; [|split; [assumption|]].
    + unfold schedule in *. cbn [for_each]. unfold mbind. now rewrite Hr.
    + eapply advance_trans; eassumption.
Qed.

Lemma advance_joinable sts sts' i st :
  Forall2 advance sts sts' -> sts !! i = Some st -> joinable st ->
  exists st', sts' !! i = Some st' /\ joinable st'.
Proof.
  intros Ha Hs Hj. destruct (Forall2_lookup_l _ _ _ _ _ Ha Hs) as (st' & Hs' & Hadv).
  exists st'. split; [assumption|].
  destruct Hadv as [->|[_ ->]]; [assumption|now right].
Qed.

Lemma advance_Deleted sts sts' i :
  Forall2 advance sts sts' -> sts !! i = Some Deleted -> sts' !! i = Some Deleted.
Proof.
  intros Ha Hs. destruct (Forall2_lookup_l _ _ _ _ _ Ha Hs) as (st' & Hs' & Hadv).
  destruct Hadv as [->|[? _]]; [assumption|discriminate].
Qed.

(** Joining a thread that can be joined: it has run when [join]
    returns. *)
Lemma join_inv pre exs0 tr0 ts sts new (w : World U) i st :
  block_inv pre exs0 tr0 ts sts new w ->
  sts !! i = Some st -> joinable st ->
  exists w' sts' new',
    join (length pre + i) w = Ok tt w'
    /\ block_inv pre exs0 tr0 ts (<[i := Joined]> sts') new' w'
    /\ Forall2 advance sts sts'.
Proof.
  intros H Hs Hj.
  destruct (run_thread_inv _ _ _ _ _ _ _ (length pre + i) H)
    as (w1 & sts1 & new1 & Hr & H1 & Ha & Hfin).
  assert (Hs1 : sts1 !! i = Some Finished).
  { destruct Hj as [->| ->].
    - now apply Hfin.
    - destruct (Forall2_lookup_l _ _ _ _ _ Ha Hs) as (st' & Hs' & [->|[? _]]);
        [assumption|discriminate]. }
  destruct (ts !! i) as [t|] eqn:Ht.
  2:{ apply lookup_lt_Some in Hs. apply lookup_ge_None in Ht.
      rewrite (inv_length H) in Hs. lia. }
  exists (mkWorld (memory w1)
            (<[(length pre + i)%nat := mkThread t Joined]> (all_threads w1))
            (executors w1)), sts1, new1.
  split; [|split; [|assumption]].
  - unfold join, mbind. rewrite Hr.
    now rewrite (block_thread _ _ _ _ _ _ _ _ _ _ H1 Ht Hs1).
  - eapply block_set_status; eauto; discriminate.
Qed.

Lemma delete_inv pre exs0 tr0 ts sts new (w : World U) i :
  block_inv pre exs0 tr0 ts sts new w ->
  sts !! i = Some Joined ->
  exists w',
    delete (length pre + i) w = Ok tt w'
    /\ block_inv pre exs0 tr0 ts (<[i := Deleted]> sts) new w'.
Proof.
  intros H Hs.
  destruct (ts !! i) as [t|] eqn:Ht.
  2:{ apply lookup_lt_Some in Hs. apply lookup_ge_None in Ht.
      rewrite (inv_length H) in Hs. lia. }
  exists (mkWorld (memory w)
            (<[(length pre + i)%nat := mkThread t Deleted]> (all_threads w))
            (executors w)).
  split.
  - unfold delete. now rewrite (block_thread _ _ _ _ _ _ _ _ _ _ H Ht Hs).
  - eapply block_set_status; eauto; discriminate.
Qed.

(** The destructor: the threads from the [j]-th on are still to be
    joined, the earlier ones are deleted. *)
Lemma join_all_inv pre exs0 tr0 ts r :
  forall j interleaving sts new (w : World U),
    (j + r)%nat = length ts ->
    block_inv pre exs0 tr0 ts sts new w ->
    (forall i, (i < j)%nat -> sts !! i = Some Deleted) ->
    (forall i, (j <= i < length ts)%nat ->
               exists st, sts !! i = Some st /\ joinable st) ->
    exists w' new',
      join_all interleaving (seq (length pre + j) r) w = Ok tt w'
      /\ block_inv pre exs0 tr0 ts (replicate (length ts) Deleted) new' w'.
Proof.
  induction r as [|r IH]; intros j interleaving sts new w Hjr H Hdel Hjoin.
  - exists w, new. split; [reflexivity|].
    replace (replicate (length ts) Deleted) with sts; [assumption|].
    apply list_eq. intros i. destruct (decide (i < length ts)%nat) as [Hi|Hi].
    + rewrite lookup_replicate_2 by assumption. apply Hdel. lia.
    + rewrite (proj1 (lookup_replicate_None _ _ _)) by lia.
      apply lookup_ge_None. rewrite (inv_length H). lia.
  - cbn [seq join_all].
    destruct (schedule_inv _ _ _ _ (hd [] interleaving) _ _ _ H)
      as (w1 & sts1 & new1 & Hr1 & H1 & Ha1).
    destruct (Hjoin j ltac:(lia)) as (st & Hs & Hj).
    destruct (advance_joinable _ _ _ _ Ha1 Hs Hj) as (st1 & Hs1 & Hj1).
    destruct (join_inv _ _ _ _ _ _ _ _ _ H1 Hs1 Hj1)
      as (w2 & sts2 & new2 & Hr2 & H2 & Ha2).
    assert (Hlen2 : length sts2 = length ts).
    { rewrite <- (inv_length H1). symmetry.
      eapply Forall2_length; eassumption. }
    destruct (delete_inv _ _ _ _ _ _ _ j H2) as (w3 & Hr3 & H3).
    { apply list_lookup_insert_eq. lia. }
    rewrite list_insert_insert_eq in H3.
    destruct (IH (S j) (tl interleaving) _ _ _ ltac:(lia) H3) as (w4 & new4 & Hr4 & H4).
    + intros i Hi. destruct (decide (i = j)) as [->|Hne].
      * apply list_lookup_insert_eq. lia.
      * rewrite list_lookup_insert_ne by congruence.
        eapply advance_Deleted; [exact Ha2|].
        eapply advance_Deleted; [exact Ha1|]. apply Hdel. lia.
    + intros i Hi. rewrite list_lookup_insert_ne by lia.
      destruct (Hjoin i ltac:(lia)) as (sti & Hsi & Hji).
      destruct (advance_joinable _ _ _ _ Ha1 Hsi Hji) as (sti1 & Hsi1 & Hji1).
      exact (advance_joinable _ _ _ _ Ha2 Hsi1 Hji1).
    + exists w4, new4. split; [|assumption].
      unfold mbind. rewrite Hr1, Hr2, Hr3.
      now rewrite <- Nat.add_succ_r.
Qed.

(** A submission: a thread is started for the task and recorded by the
    executor. *)
Lemma Spawn_inv pre exs0 tr0 ts sts new (w : World U) t :
  block_inv pre exs0 tr0 ts sts new w -> well_behaved t ->
  exists w',
    Spawn (length exs0) t w = Ok tt w'
    /\ block_inv pre exs0 tr0 (ts ++ [t]) (sts ++ [Started]) new w'.
Proof.
  intros H Ht. pose proof H as [Hth Hlen Htasks Htr Hex Hcnt Hours Hpre].
  unfold Spawn. rewrite Hex, list_lookup_middle by reflexivity.
  eexists. split; [reflexivity|].
  assert (Hl : length (pre ++ zip_with mkThread ts sts) = (length pre + length ts)%nat).
  { rewrite length_app, length_zip_with. lia. }
  constructor; simpl.
  - rewrite Hth, <- app_assoc. f_equal.
    rewrite zip_with_app by (symmetry; exact Hlen). reflexivity.
  - rewrite !length_app. simpl. lia.
  - apply Forall_app. split; [assumption|]. now apply Forall_singleton.
  - assumption.
  - rewrite insert_app_r_alt by reflexivity. rewrite Nat.sub_diag. simpl.
    rewrite Hth, Hl, length_app. simpl. now rewrite seq_app.
  - intros i st Hi. destruct (decide (i < length sts)%nat) as [Hlt|Hge].
    + rewrite lookup_app_l in Hi by assumption. now apply Hcnt.
    + rewrite lookup_app_r in Hi by lia.
      destruct (i - length sts)%nat eqn:E; [|discriminate].
      injection Hi as <-. apply count_occ_not_In. intros Hin.
      apply list_elem_of_In in Hin. rewrite Forall_forall in Hours.
      destruct (Hours _ Hin) as (site & k & Hk & Heq).
      unfold task_event in Heq. injection Heq as _ Heq. lia.
  - eapply Forall_impl; [exact Hours|]. intros ev (site & k & Hk & ->).
    exists site, k. split; [rewrite length_app; simpl; lia|reflexivity].
  - assumption.
Qed.

Lemma submit_all_inv pre exs0 tr0 tasks :
  forall ts sts new (w : World U),
    block_inv pre exs0 tr0 ts sts new w ->
    Forall joinable sts ->
    Forall (fun t => well_behaved t.1) tasks ->
    exists w' sts' new',
      submit_all (length exs0) tasks w = Ok tt w'
      /\ block_inv pre exs0 tr0 (ts ++ tasks.*1) sts' new' w'
      /\ Forall joinable sts'.
Proof.
  induction tasks as [|[t ns] tasks IH]; intros ts sts new w H Hj Hwb.
  - exists w, sts, new. split; [reflexivity|]. rewrite app_nil_r. now split.
  - apply Forall_cons in Hwb as [Ht Hwb]. simpl in Ht.
    destruct (Spawn_inv _ _ _ _ _ _ _ t H Ht) as (w1 & Hr1 & H1).
    destruct (schedule_inv _ _ _ _ ns _ _ _ H1) as (w2 & sts2 & new2 & Hr2 & H2 & Ha2).
    destruct (IH _ _ _ _ H2) as (w3 & sts3 & new3 & Hr3 & H3 & Hj3).
    + apply Forall_lookup. intros i st Hi.
      destruct (Forall2_lookup_r _ _ _ _ _ Ha2 Hi) as (st0 & Hi0 & Hadv).
      assert (Hj0 : joinable st0).
      { assert (HF : Forall joinable (sts ++ [Started])).
        { apply Forall_app. split; [assumption|]. apply Forall_singleton. now left. }
        rewrite Forall_lookup in HF. exact (HF _ _ Hi0). }
      destruct Hadv as [->|[_ ->]]; [assumption|now right].
    + assumption.
    + exists w3, sts3, new3. split; [|split; [|assumption]].
      * unfold submit_all in *. cbn [for_each]. unfold mbind at 1 2.
        rewrite Hr1, Hr2. exact Hr3.
      * cbn [fmap list_fmap fst]. now rewrite <- app_assoc in H3.
Qed.

(** Tasks made of lambdas of the client are well behaved. *)
Lemma lambda_well_behaved (body : unit -> U -> unit * U) :
  well_behaved (lambda body).
Proof.
  eexists. split; [reflexivity|]. intros thread m.
  exists (snd (body tt (user m))), []. split; [|constructor].
  simpl. rewrite app_nil_r. now destruct (body tt (user m)) as [[] u].
Qed.

Lemma FutureRunningTask_well_behaved {T : Type}
  (s : unit -> U -> Result T * U) (c : Result T -> U -> unit * U) :
  well_behaved (FutureRunningTask (lambda s) (lambda c)).
Proof.
  eexists. split; [reflexivity|]. intros thread m.
  exists (snd (c (fst (s tt (user m))) (snd (s tt (user m))))),
    [EvCall SupplierCall thread; EvCall ConsumerCall thread].
  split.
  - unfold bind, call, lambda; simpl. rewrite <- app_assoc. simpl.
    now destruct (c _ _) as [[] u].
  - repeat constructor; eexists; (split; [|reflexivity]); discriminate.
Qed.

(** *** What the threads have done to the memory *)

Lemma run_tasks_cons (ts : list (Task U)) n0 i order m :
  run_tasks ts n0 (i :: order) m
  = match ts !! i with
    | Some t =>
        match call TaskCall t tt (spawned (n0 + i)) m with
        | Returned _ m' => run_tasks ts n0 order m'
        | Threw _ _ => None
        end
    | None => None
    end.
Proof. reflexivity. Qed.

Lemma run_tasks_ext (ts ts' : list (Task U)) n0 order :
  (forall i, i ∈ order -> ts !! i = ts' !! i) ->
  forall m, run_tasks ts n0 order m = run_tasks ts' n0 order m.
Proof.
  induction order as [|i order IH]; intros Heq m; [reflexivity|].
  rewrite !run_tasks_cons. unfold Task in *.
  rewrite <- (Heq i) by apply list_elem_of_here.
  destruct (ts !! i) as [t|]; [|reflexivity].
  destruct (call TaskCall t tt (spawned (n0 + i)) m); [|reflexivity].
  apply IH. intros j Hj. apply Heq. now apply list_elem_of_further.
Qed.

Lemma run_tasks_snoc (ts : list (Task U)) n0 order i t r :
  ts !! i = Some t ->
  forall m m1 m2,
    run_tasks ts n0 order m = Some m1 ->
    call TaskCall t tt (spawned (n0 + i)) m1 = Returned r m2 ->
    run_tasks ts n0 (order ++ [i]) m = Some m2.
Proof.
  intros Ht. induction order as [|j order IH]; intros m m1 m2 Hrun Hc.
  - injection Hrun as ->. cbn [app]. rewrite run_tasks_cons.
    unfold Task in *. now rewrite Ht, Hc.
  - rewrite <- app_comm_cons, run_tasks_cons. rewrite run_tasks_cons in Hrun.
    unfold Task in *.
    destruct (ts !! j) as [tj|]; [|discriminate].
    destruct (call TaskCall tj tt (spawned (n0 + j)) m); [|discriminate].
    eapply IH; eassumption.
Qed.

Lemma tasks_from_lookup n0 (w : World U) i :
  tasks_from n0 w !! i = task <$> all_threads w !! (n0 + i)%nat.
Proof. unfold tasks_from. now rewrite lookup_drop, list_lookup_fmap. Qed.

Lemma tasks_from_insert n0 (w : World U) n t st st' m :
  all_threads w !! n = Some (mkThread t st) ->
  tasks_from n0
    (mkWorld m (<[n := mkThread t st']> (all_threads w)) (executors w))
  = tasks_from n0 w.
Proof.
  intros Hn. unfold tasks_from. simpl. rewrite list_fmap_insert. simpl.
  rewrite list_insert_id; [reflexivity|].
  now rewrite list_lookup_fmap, Hn.
Qed.

(** A change of the status of a thread that has run. *)
Lemma ran_inv_set_status n0 m0 (w : World U) n t st st' :
  all_threads w !! n = Some (mkThread t st) ->
  st <> Started -> st' <> Started ->
  ran_inv n0 m0 w ->
  ran_inv n0 m0
    (mkWorld (memory w) (<[n := mkThread t st']> (all_threads w))
       (executors w)).
Proof.
  intros Hn Hst Hst' (order & Hnd & Hiff & Hrun & Hpre & Hle).
  pose proof (lookup_lt_Some _ _ _ Hn) as Hlt.
  exists order. split; [exact Hnd|]. split; [|split; [|split]].
  - intros i. rewrite Hiff. simpl.
    destruct (decide (n = n0 + i)%nat) as [->|Hne].
    + rewrite list_lookup_insert_eq by exact Hlt. split; intros _.
      * exists (mkThread t st'). now split.
      * exists (mkThread t st). now split.
    + now rewrite list_lookup_insert_ne by exact Hne.
  - rewrite (tasks_from_insert _ _ _ _ _ _ _ Hn). exact Hrun.
  - intros j th Hj Hl. simpl in Hl.
    destruct (decide (n = j)) as [->|Hne].
    + rewrite list_lookup_insert_eq in Hl by exact Hlt.
      injection Hl as <-. exact Hst'.
    + rewrite list_lookup_insert_ne in Hl by exact Hne. eapply Hpre; eassumption.
  - simpl. now rewrite length_insert.
Qed.

(** A thread runs its task: its run comes last in the order. *)
Lemma ran_inv_run n0 m0 (w : World U) n t r m' :
  all_threads w !! n = Some (mkThread t Started) ->
  call TaskCall t tt (spawned n) (memory w) = Returned r m' ->
  ran_inv n0 m0 w ->
  ran_inv n0 m0
    (mkWorld m' (<[n := mkThread t Finished]> (all_threads w)) (executors w)).
Proof.
  intros Hn Hc (order & Hnd & Hiff & Hrun & Hpre & Hle).
  pose proof (lookup_lt_Some _ _ _ Hn) as Hlt.
  assert (Hge : (n0 <= n)%nat).
  { destruct (decide (n < n0)%nat) as [Hlt0|]; [|lia].
    now destruct (Hpre _ _ Hlt0 Hn). }
  assert (Hi : exists i, n = (n0 + i)%nat) by (exists (n - n0)%nat; lia).
  destruct Hi as (i & Hi).
  assert (Hnotin : i ∉ order).
  { intros Hin. apply Hiff in Hin as (th & Hth & Hs).
    rewrite <- Hi, Hn in Hth. injection Hth as <-. now apply Hs. }
  exists (order ++ [i]). split; [|split; [|split; [|split]]].
  - apply NoDup_app. split; [exact Hnd|]. split; [|apply NoDup_singleton].
    intros x Hx Hx'. apply list_elem_of_singleton in Hx'. now subst.
  - intros j. rewrite elem_of_app, list_elem_of_singleton, Hiff. simpl.
    destruct (decide (j = i)) as [Hji|Hne]; [subst j|].
    + rewrite <- Hi, list_lookup_insert_eq by exact Hlt. split; intros _.
      * exists (mkThread t Finished). now split.
      * now right.
    + rewrite list_lookup_insert_ne by lia. split.
      * intros [H|H]; [exact H|contradiction].
      * intros H. now left.
  - apply (run_tasks_snoc _ _ _ _ t r) with (m1 := memory w).
    + rewrite tasks_from_lookup. simpl.
      now rewrite <- Hi, list_lookup_insert_eq by exact Hlt.
    + rewrite (tasks_from_insert _ _ _ _ _ _ _ Hn). exact Hrun.
    + rewrite <- Hi. exact Hc.
  - intros j th Hj Hl. simpl in Hl.
    rewrite list_lookup_insert_ne in Hl by lia. eapply Hpre; eassumption.
  - simpl. now rewrite length_insert.
Qed.

Lemma run_thread_ran n0 m0 n (w w' : World U) :
  run_thread n w = Ok tt w' -> ran_inv n0 m0 w -> ran_inv n0 m0 w'.
Proof.
  unfold run_thread.
  destruct (all_threads w !! n) as [[t st]|] eqn:Hn;
    [destruct st|]; try (intros [= <-]; trivial).
  destruct (call TaskCall t tt (spawned n) (memory w)) as [r m'|ex m'] eqn:Hc;
    [|discriminate].
  intros [= <-] H. eapply ran_inv_run; eassumption.
Qed.

Lemma run_thread_executors n (w w' : World U) :
  run_thread n w = Ok tt w' -> executors w' = executors w.
Proof.
  unfold run_thread.
  destruct (all_threads w !! n) as [[t [| | |]]|];
    try (intros [= <-]; reflexivity).
  destruct (call TaskCall t tt (spawned n) (memory w));
    [intros [= <-]; reflexivity|discriminate].
Qed.

Lemma schedule_ran n0 m0 ns :
  forall w w' : World U,
    schedule ns w = Ok tt w' ->
    ran_inv n0 m0 w -> ran_inv n0 m0 w' /\ executors w' = executors w.
Proof.
  induction ns as [|n ns IH]; intros w w' Hs H.
  - injection Hs as <-. now split.
  - unfold schedule in Hs. cbn [for_each] in Hs. unfold mbind in Hs.
    destruct (run_thread n w) as [[] w1|e w1] eqn:Hr; [|discriminate].
    destruct (IH _ _ Hs (run_thread_ran _ _ _ _ _ Hr H)) as [H' He].
    split; [exact H'|]. rewrite He. eapply run_thread_executors; exact Hr.
Qed.

Lemma join_ran n0 m0 n (w w' : World U) :
  join n w = Ok tt w' -> ran_inv n0 m0 w -> ran_inv n0 m0 w'.
Proof.
  unfold join, mbind.
  destruct (run_thread n w) as [[] w1|e w1] eqn:Hr; [|discriminate].
  destruct (all_threads w1 !! n) as [[t st]|] eqn:Hn; [|discriminate].
  destruct st; try discriminate. intros [= <-] H.
  eapply ran_inv_set_status; [exact Hn|discriminate|discriminate|].
  eapply run_thread_ran; eassumption.
Qed.

Lemma delete_ran n0 m0 n (w w' : World U) :
  delete n w = Ok tt w' -> ran_inv n0 m0 w -> ran_inv n0 m0 w'.
Proof.
  unfold delete.
  destruct (all_threads w !! n) as [[t st]|] eqn:Hn; [|discriminate].
  destruct st; try discriminate. intros [= <-] H.
  eapply ran_inv_set_status; [exact Hn|discriminate|discriminate|exact H].
Qed.

Lemma join_all_ran n0 m0 threads :
  forall interleaving (w w' : World U),
    join_all interleaving threads w = Ok tt w' ->
    ran_inv n0 m0 w -> ran_inv n0 m0 w'.
Proof.
  induction threads as [|n threads IH]; intros interleaving w w' Hj H.
  - injection Hj as <-. exact H.
  - cbn [join_all] in Hj. unfold mbind in Hj.
    destruct (schedule (hd [] interleaving) w) as [[] w1|e w1] eqn:Hs;
      [|discriminate].
    destruct (join n w1) as [[] w2|e w2] eqn:Hjoin; [|discriminate].
    destruct (delete n w2) as [[] w3|e w3] eqn:Hdel; [|discriminate].
    eapply IH; [exact Hj|].
    eapply delete_ran; [exact Hdel|].
    eapply join_ran; [exact Hjoin|].
    exact (proj1 (schedule_ran _ _ _ _ _ Hs H)).
Qed.

(** A submission to a thread-per-task executor starts a thread that has
    not run. *)
Lemma Spawn_ran n0 m0 executor ths t (w w' : World U) :
  executors w !! executor = Some (ThreadPerTaskExecutor ths) ->
  Spawn executor t w = Ok tt w' ->
  ran_inv n0 m0 w ->
  ran_inv n0 m0 w'
  /\ executors w' !! executor
     = Some (ThreadPerTaskExecutor (ths ++ [length (all_threads w)])).
Proof.
  intros He. unfold Spawn. rewrite He. intros [= <-].
  intros (order & Hnd & Hiff & Hrun & Hpre & Hle). split.
  - exists order. split; [exact Hnd|]. split; [|split; [|split]].
    + intros i. rewrite Hiff. simpl. split.
      * intros (th & Hth & Hs). exists th. split; [|exact Hs].
        now apply lookup_app_l_Some.
      * intros (th & Hth & Hs). exists th. split; [|exact Hs].
        apply lookup_app_Some in Hth as [Hth|[Hlen Hth]]; [exact Hth|].
        destruct (n0 + i - length (all_threads w))%nat; [|discriminate].
        injection Hth as <-. now destruct Hs.
    + cbn [memory]. rewrite <- Hrun. apply run_tasks_ext. intros i Hi.
      rewrite !tasks_from_lookup. cbn [all_threads].
      apply Hiff in Hi as (th & Hth & _).
      now rewrite (lookup_app_l_Some _ _ _ _ Hth), Hth.
    + intros j th Hj Hl. simpl in Hl.
      rewrite lookup_app_l in Hl by lia. eapply Hpre; eassumption.
    + simpl. rewrite length_app. lia.
  - simpl. apply list_lookup_insert_eq. eapply lookup_lt_Some; exact He.
Qed.

Lemma submit_all_ran n0 m0 executor tasks :
  forall ths (w w' : World U),
    executors w !! executor = Some (ThreadPerTaskExecutor ths) ->
    submit_all executor tasks w = Ok tt w' ->
    ran_inv n0 m0 w ->
    ran_inv n0 m0 w'.
Proof.
  induction tasks as [|[t ns] tasks IH]; intros ths w w' He Hs H.
  - injection Hs as <-. exact H.
  - unfold submit_all in Hs. cbn [for_each] in Hs. unfold mbind at 1 2 in Hs.
    destruct (Spawn executor t w) as [[] w1|e w1] eqn:Hsp; [|discriminate].
    destruct (schedule ns w1) as [[] w2|e w2] eqn:Hsch; [|discriminate].
    destruct (Spawn_ran _ _ _ _ _ _ _ He Hsp H) as [H1 He1].
    destruct (schedule_ran _ _ _ _ _ Hsch H1) as [H2 He2].
    eapply IH; [|exact Hs|exact H2]. rewrite He2. exact He1.
Qed.

Lemma executor_block_ran tasks interleaving (w : World U) executor w' :
  Forall (fun th => status th <> Started) (all_threads w) ->
  executor_block tasks interleaving w = Ok executor w' ->
  ran_inv (length (all_threads w)) (memory w) w'.
Proof.
  intros Hpre. unfold executor_block, mbind at 1, new_executor.
  set (w0 := mkWorld (memory w) (all_threads w)
               (executors w ++ [ThreadPerTaskExecutor []])).
  assert (H0 : ran_inv (length (all_threads w)) (memory w) w0).
  { exists []. split; [constructor|]. split; [|split; [|split]].
    - intros i. split; [intros Hin; now apply elem_of_nil in Hin|].
      intros (th & Hth & _). apply lookup_lt_Some in Hth. simpl in Hth. lia.
    - reflexivity.
    - intros j th _ Hl. rewrite Forall_lookup in Hpre. eapply Hpre; exact Hl.
    - reflexivity. }
  assert (He0 : executors w0 !! length (executors w)
                = Some (ThreadPerTaskExecutor [])).
  { simpl. now apply list_lookup_middle. }
  unfold mbind.
  destruct (submit_all (length (executors w)) tasks w0) as [[] w1|e w1] eqn:Hs;
    [|discriminate].
  pose proof (submit_all_ran _ _ _ _ _ _ _ He0 Hs H0) as H1.
  unfold ThreadPerTaskExecutor_destroy.
  destruct (executors w1 !! length (executors w)) as [[|threads]|];
    try discriminate.
  destruct (join_all interleaving threads w1) as [[] w2|e w2] eqn:Hj;
    [|discriminate].
  intros [= _ <-]. eapply join_all_ran; eassumption.
Qed.

Lemma fmap_task_zip_with (ts : list (Task U)) :
  forall sts, length sts = length ts ->
  task <$> zip_with mkThread ts sts = ts.
Proof.
  induction ts as [|t ts IH]; intros [|st sts] Hlen; try discriminate;
    [reflexivity|].
  simpl. f_equal. apply IH. now injection Hlen.
Qed.

(** C9. A block that makes a thread-per-task executor, submits tasks to
    it and destroys it, under any schedule of the threads: every task
    gets a thread of its own, started by its submission; when the
    destructor returns, every one of these threads has been joined and
    deleted, and the task of each has been run exactly once, on that
    thread: the memory at the end of the block is the memory at its
    start after the runs of all the tasks, each on its own thread, one
    after the other in some order. Nothing has run on any other
    thread. *)
Theorem threads_joined_at_teardown (tasks : list (Task U * list nat))
  (interleaving : list (list nat)) (w : World U) :
  Forall (fun t => well_behaved t.1) tasks ->
  Forall (fun th => status th <> Started) (all_threads w) ->
  exists w' new,
    executor_block tasks interleaving w = Ok (length (executors w)) w'
    /\ executors w' !! length (executors w)
       = Some (ThreadPerTaskExecutor
                 (seq (length (all_threads w)) (length tasks)))
    /\ (forall i t, tasks.*1 !! i = Some t ->
          all_threads w' !! (length (all_threads w) + i)%nat
          = Some (mkThread t Deleted))
    /\ trace (memory w') = trace (memory w) ++ new
    /\ (forall i, (i < length tasks)%nat ->
          count_occ Event_eq_dec new
            (EvCall TaskCall (spawned (length (all_threads w) + i))) = 1%nat)
    /\ Forall (fun ev => exists site i,
                  (i < length tasks)%nat
                  /\ ev = EvCall site (spawned (length (all_threads w) + i))) new
    /\ exists order,
         order ≡ₚ seq 0 (length tasks)
         /\ run_tasks tasks.*1 (length (all_threads w)) order (memory w)
            = Some (memory w').
Proof.
  intros Hwb Hpre.
  set (pre := all_threads w). set (exs0 := executors w).
  set (w0 := mkWorld (memory w) pre (exs0 ++ [ThreadPerTaskExecutor []])).
  assert (H0 : block_inv pre exs0 (trace (memory w)) [] [] [] w0).
  { constructor; simpl; try reflexivity; try constructor.
    - now rewrite app_nil_r.
    - now rewrite app_nil_r.
    - intros i st Hi. now rewrite lookup_nil in Hi.
    - assumption. }
  destruct (submit_all_inv _ _ _ tasks _ _ _ _ H0 ltac:(constructor) Hwb)
    as (w1 & sts1 & new1 & Hr1 & H1 & Hj1).
  simpl app in H1.
  assert (Hlen1 : length sts1 = length tasks.*1)
    by exact (inv_length H1).
  destruct (join_all_inv pre exs0 (trace (memory w)) (tasks.*1)
              (length tasks.*1) 0 interleaving sts1 new1 w1 eq_refl H1)
    as (w2 & new2 & Hr2 & H2).
  { intros i Hi. lia. }
  { intros i Hi. destruct (sts1 !! i) as [st|] eqn:Hs.
    - exists st. split; [reflexivity|]. rewrite Forall_lookup in Hj1. eauto.
    - apply lookup_ge_None in Hs. lia. }
  rewrite Nat.add_0_r in Hr2.
  assert (Hblock : executor_block tasks interleaving w
                   = Ok (length (executors w)) w2).
  { unfold executor_block, mbind, new_executor. fold pre exs0 w0.
    rewrite Hr1. unfold ThreadPerTaskExecutor_destroy.
    rewrite (inv_execs H1), list_lookup_middle by reflexivity.
    rewrite length_fmap. rewrite length_fmap in Hr2. now rewrite Hr2. }
  pose proof (executor_block_ran _ _ _ _ _ Hpre Hblock)
    as (order & Hnd & Hiff & Hrun & _ & _).
  fold pre in Hiff, Hrun.
  assert (Hts : tasks_from (length pre) w2 = tasks.*1).
  { unfold tasks_from. rewrite (inv_threads H2), fmap_app.
    rewrite drop_app_length' by now rewrite length_fmap.
    apply fmap_task_zip_with. now rewrite length_replicate. }
  rewrite Hts in Hrun.
  assert (Hall : forall i, i ∈ order <-> (i < length tasks)%nat).
  { intros i. rewrite Hiff. split.
    - intros (th & Hth & _). apply lookup_lt_Some in Hth.
      rewrite (inv_threads H2), length_app, length_zip_with,
        length_replicate, length_fmap in Hth. lia.
    - intros Hi.
      destruct (tasks.*1 !! i) as [t|] eqn:Ht.
      2:{ apply lookup_ge_None in Ht. rewrite length_fmap in Ht. lia. }
      exists (mkThread t Deleted). split; [|discriminate].
      eapply block_thread; [exact H2|exact Ht|].
      apply lookup_replicate_2. now rewrite length_fmap. }
  exists w2, new2. rewrite length_fmap in *.
  split; [exact Hblock|]. split; [|split; [|split; [|split; [|split]]]].
  - rewrite (inv_execs H2), list_lookup_middle by reflexivity.
    now rewrite length_fmap.
  - intros i t Ht. eapply block_thread; [exact H2|exact Ht|].
    apply lookup_replicate_2. apply lookup_lt_Some in Ht.
    now rewrite length_fmap in *.
  - exact (inv_trace H2).
  - intros i Hi.
    apply (inv_count H2 i Deleted).
    now apply lookup_replicate_2.
  - eapply Forall_impl; [exact (inv_ours H2)|].
    intros ev (site & i & Hi & ->). exists site, i.
    split; [now rewrite length_fmap in Hi|reflexivity].
  - exists order. split; [|exact Hrun].
    apply NoDup_Permutation; [exact Hnd|apply NoDup_seq|].
    intros i. rewrite Hall, elem_of_seq. lia.
Qed.

End WithUserState.

(** The test [LazyFutureTest.Callback]: under a thread-per-task
    executor the consumer has run when the block is left; it received 5
    and ran on a thread that is not the caller's. The user state is
    [callback_ran] with the value received. *)
Example LazyFutureTest_Callback :
  (executor <- new_executor (ThreadPerTaskExecutor []) ;;
   ConsumeAsync
     (mkLazyFuture (lambda (fun _ u => (ResultValue 5, u))) executor)
     (lambda (fun val _ => (tt, (true, match val with
                                       | ResultValue v => Some v
                                       | ResultStatus _ => None
                                       end)))) ;;
   ThreadPerTaskExecutor_destroy [] executor)
    (mkWorld (mkMemory (false, None) []) [] [])
  = Ok tt (mkWorld
             (mkMemory (true, Some 5)
                [EvCall TaskCall (spawned 0); EvCall SupplierCall (spawned 0);
                 EvCall ConsumerCall (spawned 0)])
             [mkThread
                (FutureRunningTask (lambda (fun _ u => (ResultValue 5, u)))
                   (lambda (fun val _ => (tt, (true, match val with
                                                     | ResultValue v => Some v
                                                     | ResultStatus _ => None
                                                     end)))))
                Deleted]
             [ThreadPerTaskExecutor [0]]).
Proof. reflexivity. Qed.

(** The test [LazyFutureTest.CallbackError]: the consumer receives the
    failure of the supplier. *)
Example LazyFutureTest_CallbackError :
  match (executor <- new_executor (ThreadPerTaskExecutor []) ;;
         ConsumeAsync
           (mkLazyFuture
              (lambda (fun _ u => (@ResultStatus nat (Status_Invalid "XYZ"), u)))
              executor)
           (lambda (fun val _ => (tt, (true, match val with
                                             | ResultValue _ => true
                                             | ResultStatus s => ok s
                                             end)))) ;;
         ThreadPerTaskExecutor_destroy [] executor)
          (mkWorld (mkMemory (false, true) []) [] [])
  with
  | Ok _ w => Some (user (memory w))
  | Fail _ _ => None
  end
  = Some (true, false).
Proof. reflexivity. Qed.

Lemma promise_callback_at_most_once_witness :
  Promise_life
    (Some (fun (r : Result nat) (_ : ThreadId) (m : Memory nat) =>
             Returned tt (mkMemory (S (user m)) (trace m))))
    [ResultValue 5; ResultValue 6] main_thread (mkMemory 0 [])
  = Threw bad_function_call (mkMemory 1 [EvCall CallbackCall main_thread]).
Proof.
  exact (proj1 (promise_callback_at_most_once
                  (fun (r : Result nat) (_ : ThreadId) (m : Memory nat) =>
                     Returned tt (mkMemory (S (user m)) (trace m)))
                  (ResultValue 5) [ResultValue 6] main_thread
                  (mkMemory 0 [])) _ eq_refl).
Defined.

Lemma Then_composes_and_inline_consumes_witness :
  ConsumeAsync
    (Then (mkLazyFuture (lambda (fun _ u => (ResultValue 5, u))) 0)
       (lambda (fun r u => (r, S u))))
    (lambda (fun r u => (tt, match r with
                             | ResultValue v => v + u
                             | ResultStatus _ => 0
                             end)))
    (mkWorld (mkMemory 0 []) [] [InlineExecutor])
  = Ok tt (mkWorld
             (mkMemory 6
                [EvCall TaskCall main_thread; EvCall SupplierCall main_thread;
                 EvCall SupplierCall main_thread;
                 EvCall ContinuationCall main_thread;
                 EvCall ConsumerCall main_thread])
             [] [InlineExecutor]).
Proof.
  exact (proj2 (proj2 (Then_composes_and_inline_consumes
                         (fun _ u => (ResultValue 5, u)) (fun r u => (r, S u))
                         (fun r u => (tt, match r with
                                          | ResultValue v => v + u
                                          | ResultStatus _ => 0
                                          end))
                         0 (mkWorld (mkMemory 0 []) [] [InlineExecutor])
                         eq_refl))).
Defined.

Lemma threads_joined_at_teardown_witness :
  exists w',
    executor_block
      [(FutureRunningTask (lambda (fun _ u => (ResultValue 5, u)))
          (lambda (fun r u => (tt, match r with
                                   | ResultValue v => v + u
                                   | ResultStatus _ => 0
                                   end))), [1; 0]);
       (lambda (fun _ u => (tt, 2 * u)), [])]
      [[]; [0]] (mkWorld (mkMemory 1 []) [] [InlineExecutor])
    = Ok 1 w'
    /\ user (memory w') = 12
    /\ trace (memory w')
       = [EvCall TaskCall (spawned 0); EvCall SupplierCall (spawned 0);
          EvCall ConsumerCall (spawned 0); EvCall TaskCall (spawned 1)]
    /\ status <$> all_threads w' = [Deleted; Deleted].
Proof.
  destruct (threads_joined_at_teardown
              [(FutureRunningTask (lambda (fun _ u => (ResultValue 5, u)))
                  (lambda (fun r u => (tt, match r with
                                           | ResultValue v => v + u
                                           | ResultStatus _ => 0
                                           end))), [1; 0]);
               (lambda (fun _ u => (tt, 2 * u)), [])]
              [[]; [0]] (mkWorld (mkMemory 1 []) [] [InlineExecutor]))
    as (w' & new & Hrun & _ & _ & _ & _ & _ & order & Hperm & Htasks).
  - repeat constructor.
    + apply FutureRunningTask_well_behaved.
    + apply lambda_well_behaved.
  - constructor.
  - exists w'. split; [exact Hrun|].
    vm_compute in Hrun. injection Hrun as <-.
    split; [reflexivity|]. split; reflexivity.
Defined.

End LazyFacts.

(** ** Properties of the printing of a status *)

Module StatusFacts.

Lemma append_empty (a : string) : String.append a "" = a.
Proof.
  induction a as [|ch a IH]; [reflexivity|].
  change (String ch (String.append a "") = String ch a). now rewrite IH.
Qed.

(** X10. The labels tell the codes apart as far as the switch goes:
    two codes with the same label are the same code, or neither has a
    case in the switch and both print as "Unknown". No code with a case
    prints as "Unknown". *)
Theorem CodeAsString_inj (c1 c2 : StatusCode) :
  CodeAsString c1 = CodeAsString c2 ->
  c1 = c2
  \/ (listed c1 = false /\ listed c2 = false
      /\ CodeAsString c1 = "Unknown").
Proof.
  destruct c1, c2; simpl; intros H;
    first [left; reflexivity | discriminate H | right; now repeat split].
Qed.

Lemma CodeAsString_inj_witness :
  OtherCode 13 = OtherCode 45
  \/ (listed (OtherCode 13) = false /\ listed (OtherCode 45) = false
      /\ CodeAsString (OtherCode 13) = "Unknown").
Proof. exact (CodeAsString_inj (OtherCode 13) (OtherCode 45) eq_refl). Defined.

(** X11. The text of a status without detail tells the status as far
    as the labels go: two statuses that print alike are the same status,
    or both carry a code without a case in the switch and the same
    message. Only the OK status prints as "OK". *)
Theorem Status_ToString_inj (s1 s2 : Status) :
  Status_ToString s1 None = Status_ToString s2 None ->
  s1 = s2
  \/ (exists r1 r2 m,
        s1 = Status_make (OtherCode r1) m /\ s2 = Status_make (OtherCode r2) m).
Proof.
  destruct s1 as [[c1 m1]|], s2 as [[c2 m2]|]; simpl;
    rewrite ?append_empty; intros H.
  - destruct c1, c2; cbv [CodeAsString String.append] in H;
      try discriminate H; injection H as H; subst;
      first [left; reflexivity | right; now eexists _, _, _].
  - destruct c1; cbv [CodeAsString String.append] in H; discriminate H.
  - destruct c2; cbv [CodeAsString String.append] in H; discriminate H.
  - left. reflexivity.
Qed.

Lemma Status_ToString_inj_witness :
  Status_make (OtherCode 13) "late" = Status_make (OtherCode 45) "late"
  \/ (exists r1 r2 m,
        Status_make (OtherCode 13) "late" = Status_make (OtherCode r1) m
        /\ Status_make (OtherCode 45) "late" = Status_make (OtherCode r2) m).
Proof.
  exact (Status_ToString_inj (Status_make (OtherCode 13) "late")
           (Status_make (OtherCode 45) "late") eq_refl).
Defined.

End StatusFacts.

(** ** Invariants of client programs over the future core *)

Module ClientFacts.
Import Core Client.
Local Open Scope m_scope.

Arguments run_callback : simpl never.
Arguments release : simpl never.

(** *** Reading a run that returned *)

Lemma bind_inv {A B} (m : M A) (k : A -> M B) w b w2 :
  bind m k w = Ok b w2 -> exists a w1, m w = Ok a w1 /\ k a w1 = Ok b w2.
Proof. unfold bind. destruct (m w) as [a w1|e]; [eauto|discriminate]. Qed.

Lemma ret_inv {A} (a b : A) w w' : ret a w = Ok b w' -> a = b /\ w = w'.
Proof. unfold ret. intros H. injection H as -> ->. now split. Qed.

Lemma lock_inv {A} m (k : unit -> M A) w a w' :
  bind (lock m) k w = Ok a w' ->
  (m ∉ held w) /\ k tt (add_event (EvLock m) (set_held (cons m) w)) = Ok a w'.
Proof.
  unfold lock, bind, gets, modify, log, fail.
  destruct (decide (m ∈ held w)); [discriminate|]. intros H. now split.
Qed.

Lemma get_core_inv {A} self (k : FutureImpl -> M A) w a w' :
  bind (get_core self) k w = Ok a w' ->
  exists c, cores w !! self = Some c /\ k c w = Ok a w'.
Proof.
  unfold bind, get_core. destruct (cores w !! self); [eauto|discriminate].
Qed.

Lemma fetch_sub_inv {A} state arg (k : Z -> M A) w a w' :
  bind (fetch_sub state arg) k w = Ok a w' ->
  exists old f, k old (set_counters f w) = Ok a w'.
Proof.
  unfold bind, fetch_sub. destruct (counters w !! state); [eauto|discriminate].
Qed.

Lemma Future_status_inv {A} self (k : Status -> M A) w a w' :
  bind (Future_status self) k w = Ok a w' -> exists s, k s w = Ok a w'.
Proof.
  unfold Future_status. rewrite CoreFacts.bind_assoc.
  intros (c & _ & H)%get_core_inv.
  destruct (result_ c) as [[s|results]|]; try discriminate H.
  exists s. exact H.
Qed.

Lemma Future_is_finished_inv {A} self (k : bool -> M A) w a w' :
  bind (Future_is_finished self) k w = Ok a w' -> exists b, k b w = Ok a w'.
Proof.
  unfold Future_is_finished. rewrite CoreFacts.bind_assoc.
  intros (c & _ & H)%get_core_inv. eexists. exact H.
Qed.

Lemma bind_unlock {A} m (k : unit -> M A) w :
  bind (unlock m) k w
  = k tt (add_event (EvUnlock m) (set_held (release m) w)).
Proof. reflexivity. Qed.

Lemma unlock_eq m w :
  unlock m w = Ok tt (add_event (EvUnlock m) (set_held (release m) w)).
Proof. reflexivity. Qed.

Lemma bind_gets {A B} (f : World -> A) (k : A -> M B) w :
  bind (gets f) k w = k (f w) w.
Proof. reflexivity. Qed.

Lemma bind_ret {A B} (a : A) (k : A -> M B) w : bind (ret a) k w = k a w.
Proof. reflexivity. Qed.

Lemma bind_log {A} e (k : unit -> M A) w :
  bind (log e) k w = k tt (add_event e w).
Proof. reflexivity. Qed.

Lemma bind_put_core {A} self c (k : unit -> M A) w :
  bind (put_core self c) k w = k tt (set_cores (fun cs => <[self := c]> cs) w).
Proof. reflexivity. Qed.

Lemma put_core_eq self c w :
  put_core self c w = Ok tt (set_cores (fun cs => <[self := c]> cs) w).
Proof. reflexivity. Qed.

Lemma bind_new_core {A} c (k : nat -> M A) w :
  bind (new_core c) k w
  = k (length (cores w)) (set_cores (fun cs => cs ++ [c]) w).
Proof. reflexivity. Qed.

Lemma bind_new_State {A} n (k : nat -> M A) w :
  bind (new_State n) k w
  = k (length (counters w))
      (set_counters (fun cs => cs ++ [to_size_t (to_int64 n)]) w).
Proof. reflexivity. Qed.

(** *** The preserved relation *)

Lemma core_stays_refl c : core_stays c c = true.
Proof. unfold core_stays. now destruct (IsFutureFinished (state_ c)). Qed.

Lemma stays_finished_refl cs : stays_finished cs cs.
Proof. intros self c Hc. exists c. split; [exact Hc|apply core_stays_refl]. Qed.

Lemma stays_finished_trans cs1 cs2 cs3 :
  stays_finished cs1 cs2 -> stays_finished cs2 cs3 -> stays_finished cs1 cs3.
Proof.
  intros H12 H23 self c Hc.
  destruct (H12 self c Hc) as (c2 & Hc2 & Hs2).
  destruct (H23 self c2 Hc2) as (c3 & Hc3 & Hs3).
  exists c3. split; [exact Hc3|].
  unfold core_stays in *.
  destruct (IsFutureFinished (state_ c)), (IsFutureFinished (state_ c2));
    simpl in *; congruence.
Qed.

Lemma preserved_refl w : preserved w w.
Proof.
  split; [reflexivity|]. split; [apply stays_finished_refl|tauto].
Qed.

Lemma preserved_trans w1 w2 w3 :
  preserved w1 w2 -> preserved w2 w3 -> preserved w1 w3.
Proof.
  intros (Hh & Hs & Hd) (Hh' & Hs' & Hd').
  split; [congruence|].
  split; [eapply stays_finished_trans; eassumption|tauto].
Qed.

Lemma preserved_from w1 w w' :
  held w1 = held w -> cores w1 = cores w -> preserved w1 w' -> preserved w w'.
Proof.
  unfold preserved, queues_drained. intros <- <- H. exact H.
Qed.

Lemma drained_lookup cs self c :
  forallb core_drained cs = true -> cs !! self = Some c ->
  core_drained c = true.
Proof.
  revert self. induction cs as [|x cs IH]; intros self H Hc; [discriminate|].
  simpl in H. apply andb_true_iff in H as [Hx Hcs].
  destruct self as [|self]; simpl in Hc.
  - congruence.
  - eapply IH; eassumption.
Qed.

Lemma drained_insert cs self c :
  forallb core_drained cs = true -> core_drained c = true ->
  forallb core_drained (<[self := c]> cs) = true.
Proof.
  revert self. induction cs as [|x cs IH]; intros self H Hc; [reflexivity|].
  simpl in H. apply andb_true_iff in H as [Hx Hcs].
  destruct self as [|self]; simpl.
  - now rewrite Hc, Hcs.
  - rewrite Hx. simpl. now apply IH.
Qed.

Lemma preserved_insert w w' self c c' :
  cores w !! self = Some c ->
  held w' = held w ->
  cores w' = <[self := c']> (cores w) ->
  core_stays c c' = true ->
  (core_drained c = true -> core_drained c' = true) ->
  preserved w w'.
Proof.
  intros Hc Hh Hcs Hst Hdr. split; [exact Hh|]. split.
  - intros i ci Hi. rewrite Hcs. destruct (decide (i = self)) as [->|Hne].
    + exists c'. split.
      * apply list_lookup_insert_eq. eapply lookup_lt_Some. exact Hc.
      * congruence.
    + exists ci. split.
      * rewrite list_lookup_insert_ne by congruence. exact Hi.
      * apply core_stays_refl.
  - unfold queues_drained. rewrite Hcs. intros H.
    apply drained_insert; [exact H|].
    apply Hdr. eapply drained_lookup; eassumption.
Qed.

Lemma preserved_append w w' c :
  held w' = held w ->
  cores w' = cores w ++ [c] ->
  core_drained c = true ->
  preserved w w'.
Proof.
  intros Hh Hcs Hdr. split; [exact Hh|]. split.
  - intros i ci Hi. exists ci. split; [|apply core_stays_refl].
    rewrite Hcs. now apply lookup_app_l_Some.
  - unfold queues_drained. rewrite Hcs, forallb_app. intros ->.
    simpl. now rewrite Hdr.
Qed.

(** A scope that locks [m], does what [preserved] allows and unlocks
    [m]. *)
Lemma preserved_bracket m w w1 w2 w' :
  m ∉ held w ->
  held w1 = m :: held w -> cores w1 = cores w ->
  preserved w1 w2 ->
  held w' = release m (held w2) -> cores w' = cores w2 ->
  preserved w w'.
Proof.
  intros Hn Hh1 Hc1 (Hh & Hs & Hd) Hh' Hc'.
  unfold preserved, queues_drained in *.
  rewrite Hh', Hc', Hh, Hh1, <- Hc1. split; [|now split].
  now apply CoreFacts.release_cons.
Qed.

Lemma for_each_preserved {A} (body : A -> M unit) xs :
  (forall x w w', body x w = Ok tt w' -> preserved w w') ->
  forall w w', for_each body xs w = Ok tt w' -> preserved w w'.
Proof.
  intros Hbody. induction xs as [|x xs IH]; intros w w' H; simpl in H.
  - apply ret_inv in H as [_ <-]. apply preserved_refl.
  - apply bind_inv in H as ([] & w1 & H1 & H2).
    eapply preserved_trans; [eapply Hbody; exact H1|eapply IH; exact H2].
Qed.

(** *** The operations of a core, for any callbacks that preserve *)

Section Invoke.

Variable invoke : Callback -> nat -> M unit.
Hypothesis invoke_preserved :
  forall callback self w w',
    invoke callback self w = Ok tt w' -> preserved w w'.

Lemma AddCallback_preserved self callback w w' :
  AddCallback invoke self callback w = Ok tt w' -> preserved w w'.
Proof.
  unfold AddCallback. intros [Hn H]%lock_inv.
  apply get_core_inv in H as (c & Hc & H). simpl in Hc.
  destruct (IsFutureFinished (state_ c)) eqn:Hfin.
  - rewrite bind_unlock in H. apply invoke_preserved in H.
    eapply preserved_from; [| |exact H]; simpl.
    + now apply CoreFacts.release_cons.
    + reflexivity.
  - rewrite bind_gets, bind_put_core, bind_log, unlock_eq in H.
    apply ret_inv in H as [_ <-].
    eapply preserved_insert; [exact Hc| | | |]; simpl.
    + now apply CoreFacts.release_cons.
    + reflexivity.
    + unfold core_stays; simpl. now rewrite Hfin.
    + intros _. unfold core_drained; simpl. now rewrite Hfin.
Qed.

Lemma TryAddCallback_preserved self callback w b w' :
  TryAddCallback self (ret callback) w = Ok b w' -> preserved w w'.
Proof.
  unfold TryAddCallback. intros [Hn H]%lock_inv.
  apply get_core_inv in H as (c & Hc & H). simpl in Hc.
  destruct (IsFutureFinished (state_ c)) eqn:Hfin.
  - rewrite bind_unlock in H. apply ret_inv in H as [_ <-].
    eapply preserved_from; [| |apply preserved_refl]; simpl.
    + now apply CoreFacts.release_cons.
    + reflexivity.
  - rewrite bind_ret in H.
    apply get_core_inv in H as (c' & Hc' & H). simpl in Hc'.
    assert (c' = c) as -> by congruence.
    rewrite bind_gets, bind_put_core, bind_log, bind_unlock in H.
    apply ret_inv in H as [_ <-].
    eapply preserved_insert; [exact Hc| | | |]; simpl.
    + now apply CoreFacts.release_cons.
    + reflexivity.
    + unfold core_stays; simpl. now rewrite Hfin.
    + intros _. unfold core_drained; simpl. now rewrite Hfin.
Qed.

Lemma DoMarkFinishedOrFailed_preserved self st w w' :
  IsFutureFinished st = true ->
  DoMarkFinishedOrFailed invoke self st w = Ok tt w' -> preserved w w'.
Proof.
  intros Hst. unfold DoMarkFinishedOrFailed. intros [Hg H]%lock_inv.
  apply lock_inv in H as [Hm H]. simpl in Hm.
  apply get_core_inv in H as (c & Hc & H). simpl in Hc.
  rewrite bind_gets, bind_put_core, bind_log, !bind_unlock, bind_log in H.
  apply get_core_inv in H as (c1 & Hc1 & H). simpl in Hc1.
  rewrite list_lookup_insert_eq in Hc1 by (eapply lookup_lt_Some; exact Hc).
  injection Hc1 as <-. simpl in H.
  rewrite bind_put_core in H.
  eapply preserved_trans;
    [|eapply (for_each_preserved _ _ (fun x => invoke_preserved x self));
      exact H].
  eapply preserved_insert; [exact Hc| | | |]; simpl.
  - rewrite CoreFacts.release_cons by exact Hm.
    now apply CoreFacts.release_cons.
  - apply list_insert_insert_eq.
  - unfold core_stays; simpl. rewrite Hst. apply implb_true_r.
  - intros _. unfold core_drained; simpl. apply orb_true_r.
Qed.

Lemma set_result_preserved self res w w' :
  set_result self res w = Ok tt w' -> preserved w w'.
Proof.
  unfold set_result. intros (c & Hc & H)%get_core_inv.
  rewrite put_core_eq in H. apply ret_inv in H as [_ <-].
  eapply preserved_insert; [exact Hc| | | |]; simpl.
  - reflexivity.
  - reflexivity.
  - unfold core_stays; simpl. now destruct (IsFutureFinished (state_ c)).
  - intros Hd. exact Hd.
Qed.

Lemma Future_MarkFinished_preserved self s w w' :
  Future_MarkFinished invoke self s w = Ok tt w' -> preserved w w'.
Proof.
  unfold Future_MarkFinished. intros ([] & w1 & H1 & H2)%bind_inv.
  apply set_result_preserved in H1.
  eapply preserved_trans; [exact H1|].
  destruct (ok s);
    eapply DoMarkFinishedOrFailed_preserved; [|exact H2| |exact H2];
    reflexivity.
Qed.

Lemma AllComplete_lambda_preserved state out self w w' :
  AllComplete_lambda invoke state out self w = Ok tt w' -> preserved w w'.
Proof.
  unfold AllComplete_lambda. intros (s & H)%Future_status_inv.
  destruct (negb (ok s)).
  - apply lock_inv in H as [Hn H].
    apply Future_is_finished_inv in H as (b & H).
    apply bind_inv in H as ([] & w2 & H1 & H2).
    rewrite unlock_eq in H2. apply ret_inv in H2 as [_ <-].
    assert (Hp : preserved
                   (add_event (EvLock (State_mutex state))
                      (set_held (cons (State_mutex state)) w)) w2).
    { destruct b; simpl in H1.
      - apply ret_inv in H1 as [_ <-]. apply preserved_refl.
      - eapply Future_MarkFinished_preserved; exact H1. }
    eapply preserved_bracket; [exact Hn| | |exact Hp| |]; reflexivity.
  - apply fetch_sub_inv in H as (old & f & H).
    eapply preserved_from with (w1 := set_counters f w);
      [reflexivity|reflexivity|].
    destruct (decide (old <> 1%Z)).
    + apply ret_inv in H as [_ <-]. apply preserved_refl.
    + eapply Future_MarkFinished_preserved; exact H.
Qed.

Lemma All_collect_preserved out futures results w w' :
  All_collect invoke out futures results w = Ok tt w' -> preserved w w'.
Proof.
  revert results. induction futures as [|f futures IH]; intros results H;
    simpl in H.
  - apply bind_inv in H as ([] & w1 & H1 & H2).
    eapply preserved_trans; [eapply set_result_preserved; exact H1|].
    eapply DoMarkFinishedOrFailed_preserved; [|exact H2]. reflexivity.
  - apply Future_status_inv in H as (s & H). eapply IH; exact H.
Qed.

Lemma All_lambda_preserved state out futures w w' :
  All_lambda invoke state out futures w = Ok tt w' -> preserved w w'.
Proof.
  unfold All_lambda. intros (old & f & H)%fetch_sub_inv.
  eapply preserved_from with (w1 := set_counters f w);
    [reflexivity|reflexivity|].
  destruct (decide (old <> 1%Z)).
  - apply ret_inv in H as [_ <-]. apply preserved_refl.
  - eapply All_collect_preserved; exact H.
Qed.

Lemma Then_lambda_preserved on_success next self w w' :
  Then_lambda invoke on_success next self w = Ok tt w' -> preserved w w'.
Proof.
  unfold Then_lambda. intros (c & _ & H)%get_core_inv.
  destruct (result_ c) as [[s|results]|]; try discriminate H.
  eapply Future_MarkFinished_preserved; exact H.
Qed.

(** *** The constructors and the combinators *)

Lemma new_core_preserved {A} c (k : nat -> M A) w a w' :
  core_drained c = true ->
  (forall self w1, k self w1 = Ok a w' -> preserved w1 w') ->
  bind (new_core c) k w = Ok a w' -> preserved w w'.
Proof.
  intros Hd Hk H. rewrite bind_new_core in H. apply Hk in H.
  eapply preserved_trans; [|exact H].
  eapply preserved_append; [| |exact Hd]; reflexivity.
Qed.

Lemma Future_MakeFinished_preserved s w self w' :
  Future_MakeFinished s w = Ok self w' -> preserved w w'.
Proof.
  unfold Future_MakeFinished, MakeFinished.
  apply new_core_preserved; [apply orb_true_r|].
  intros self' w1 ([] & w2 & H1 & H2)%bind_inv.
  apply ret_inv in H2 as [_ <-]. eapply set_result_preserved; exact H1.
Qed.

Lemma register_preserved callback futures w w' :
  for_each (fun future => Future_AddCallback invoke future callback) futures w
  = Ok tt w' ->
  preserved w w'.
Proof.
  apply for_each_preserved. intros future w1 w2 H.
  eapply AddCallback_preserved; exact H.
Qed.

Lemma combinator_preserved n callback futures w out w' :
  (state <- new_State n ;;
   out <- Future_Make ;;
   for_each (fun future => Future_AddCallback invoke future (callback state out))
            futures ;;
   ret out) w = Ok out w' ->
  preserved w w'.
Proof.
  rewrite bind_new_State. unfold Future_Make, Make. rewrite bind_new_core.
  intros ([] & w2 & H1 & H2)%bind_inv.
  apply ret_inv in H2 as [_ <-]. apply register_preserved in H1.
  eapply preserved_trans; [|exact H1].
  apply preserved_append with (c := mkFutureImpl PENDING [] None);
    reflexivity.
Qed.

Lemma AllComplete_preserved futures w out w' :
  AllComplete invoke futures w = Ok out w' -> preserved w w'.
Proof.
  destruct futures as [|f futures]; intros H.
  - eapply Future_MakeFinished_preserved; exact H.
  - exact (combinator_preserved _ AllCompleteCallback (f :: futures) _ _ _ H).
Qed.

Lemma All_preserved futures w out w' :
  All invoke futures w = Ok out w' -> preserved w w'.
Proof.
  destruct futures as [|f futures].
  - unfold All, MakeFinished.
    apply new_core_preserved; [reflexivity|].
    intros self' w1 ([] & w2 & H1 & H2)%bind_inv.
    apply ret_inv in H2 as [_ <-]. eapply set_result_preserved; exact H1.
  - intros H.
    exact (combinator_preserved _
             (fun state out => AllCallback state out (f :: futures))
             (f :: futures) _ _ _ H).
Qed.

Lemma Then_preserved self on_success w next w' :
  Then invoke self on_success w = Ok next w' -> preserved w w'.
Proof.
  unfold Then, Future_Make, Make.
  apply new_core_preserved; [reflexivity|].
  intros next' w1 ([] & w2 & H1 & H2)%bind_inv.
  apply ret_inv in H2 as [_ <-]. eapply AddCallback_preserved; exact H1.
Qed.

Lemma AllFinished_preserved futures w out w' :
  AllFinished invoke futures w = Ok out w' -> preserved w w'.
Proof.
  unfold AllFinished. intros (all & w1 & H1 & H2)%bind_inv.
  eapply preserved_trans;
    [eapply All_preserved; exact H1|eapply Then_preserved; exact H2].
Qed.

End Invoke.

(** *** The stored closures and the client programs *)

Lemma log_eq e w : log e w = Ok tt (add_event e w).
Proof. reflexivity. Qed.

Lemma new_core_eq c w :
  new_core c w = Ok (length (cores w)) (set_cores (fun cs => cs ++ [c]) w).
Proof. reflexivity. Qed.

Lemma run_callback_preserved fuel :
  forall callback self w w',
    run_callback fuel callback self w = Ok tt w' -> preserved w w'.
Proof.
  induction fuel as [|fuel IH];
    intros [tag|state out|state out futures|on_success next] self w w' H.
  all: try (rewrite CoreFacts.run_callback_UserCallback in H;
            apply get_core_inv in H as (c & _ & H);
            rewrite bind_gets, log_eq in H; apply ret_inv in H as [_ <-];
            eapply preserved_from; [| |apply preserved_refl]; reflexivity).
  all: try (change (fail OutOfFuel w = Ok tt w') in H; discriminate H).
  - change (AllComplete_lambda (run_callback fuel) state out self w = Ok tt w')
      in H.
    eapply AllComplete_lambda_preserved; [exact IH|exact H].
  - change (All_lambda (run_callback fuel) state out futures w = Ok tt w') in H.
    eapply All_lambda_preserved; [exact IH|exact H].
  - change (Then_lambda (run_callback fuel) on_success next self w = Ok tt w')
      in H.
    eapply Then_lambda_preserved; [exact IH|exact H].
Qed.

Lemma discard_preserved {A} (m : M A) w w' :
  (forall a w1, m w = Ok a w1 -> preserved w w1) ->
  (m ;; ret tt) w = Ok tt w' -> preserved w w'.
Proof.
  intros Hm (a & w1 & H1 & H2)%bind_inv.
  apply ret_inv in H2 as [_ <-]. eapply Hm; exact H1.
Qed.

Lemma run_op_preserved fuel op w w' :
  run_op fuel op w = Ok tt w' -> preserved w w'.
Proof.
  pose proof (run_callback_preserved fuel) as Hcb.
  destruct op; unfold run_op.
  - apply discard_preserved. intros a w1 H.
    unfold Future_Make, Make in H. rewrite new_core_eq in H.
    apply ret_inv in H as [_ <-].
    apply preserved_append with (c := mkFutureImpl PENDING [] None);
      reflexivity.
  - apply discard_preserved. intros a w1 H.
    eapply Future_MakeFinished_preserved; exact H.
  - apply Future_MarkFinished_preserved; exact Hcb.
  - apply DoMarkFinishedOrFailed_preserved; [exact Hcb|reflexivity].
  - apply DoMarkFinishedOrFailed_preserved; [exact Hcb|reflexivity].
  - apply AddCallback_preserved; exact Hcb.
  - apply discard_preserved. intros a w1 H.
    eapply TryAddCallback_preserved; exact H.
  - apply discard_preserved. intros a w1 H.
    eapply AllComplete_preserved; [exact Hcb|exact H].
  - apply discard_preserved. intros a w1 H.
    eapply All_preserved; [exact Hcb|exact H].
  - apply discard_preserved. intros a w1 H.
    eapply Then_preserved; [exact Hcb|exact H].
  - apply discard_preserved. intros a w1 H.
    eapply AllFinished_preserved; [exact Hcb|exact H].
Qed.

Lemma run_ops_preserved fuel ops w w' :
  run_ops fuel ops w = Ok tt w' -> preserved w w'.
Proof.
  unfold run_ops. apply for_each_preserved. apply run_op_preserved.
Qed.

(** X1. [TryAddCallback] on a core whose mutex the caller does not
    hold. On a finished core it declines: it returns false without
    calling the factory, whatever the factory would do, and nothing is
    queued or invoked. On a pending core it calls the factory once,
    under the mutex of the core, appends the callback the factory
    returns to the queue and returns true; a failure of the factory is
    the failure of the call. With a factory that only makes a callback,
    it queues that callback exactly as [AddCallback] does. *)
Theorem TryAddCallback_queues_or_declines invoke self
    (callback_factory : M Callback) cs cnt h tr c :
  mutex_ self ∉ h ->
  cs !! self = Some c ->
  (IsFutureFinished (state_ c) = true ->
   TryAddCallback self callback_factory (mkWorld cs cnt h tr)
   = Ok false
       (mkWorld cs cnt h
          (tr ++ [EvLock (mutex_ self); EvUnlock (mutex_ self)])))
  /\ (IsFutureFinished (state_ c) = false ->
      TryAddCallback self callback_factory (mkWorld cs cnt h tr)
      = match callback_factory
                (mkWorld cs cnt (mutex_ self :: h)
                   (tr ++ [EvLock (mutex_ self)])) with
        | Ok callback w1 =>
            match cores w1 !! self with
            | Some c1 =>
                Ok true
                  (mkWorld
                     (<[self := mkFutureImpl (state_ c1)
                                  (callbacks_ c1 ++ [callback])
                                  (result_ c1)]> (cores w1))
                     (counters w1) (release (mutex_ self) (held w1))
                     (trace w1 ++ [EvPush self (held w1);
                                   EvUnlock (mutex_ self)]))
            | None => Fail InvalidAccess
            end
        | Fail e => Fail e
        end)
  /\ (IsFutureFinished (state_ c) = false ->
      forall callback,
        TryAddCallback self (ret callback) (mkWorld cs cnt h tr)
        = (AddCallback invoke self callback ;; ret true)
            (mkWorld cs cnt h tr)).
Proof.
  intros Hn Hc.
  assert (Hrun : forall A (k : unit -> M A),
             bind (lock (mutex_ self)) k (mkWorld cs cnt h tr)
             = k tt (mkWorld cs cnt (mutex_ self :: h)
                       (tr ++ [EvLock (mutex_ self)]))).
  { intros A k. apply CoreFacts.bind_Ok. now apply CoreFacts.lock_Ok. }
  split; [|split]; intros Hfin.
  - unfold TryAddCallback. rewrite Hrun.
    unfold bind at 1. unfold get_core. simpl. rewrite Hc, Hfin.
    unfold bind, unlock, modify, log, ret, set_held, add_event; simpl.
    rewrite CoreFacts.release_cons by exact Hn.
    now rewrite <- app_assoc.
  - unfold TryAddCallback. rewrite Hrun.
    unfold bind at 1. unfold get_core at 1. simpl. rewrite Hc, Hfin.
    unfold bind at 1.
    destruct (callback_factory _) as [callback w1|e]; [|reflexivity].
    unfold bind at 1. unfold get_core.
    destruct (cores w1 !! self) as [c1|]; [|reflexivity].
    unfold bind, gets, put_core, unlock, modify, log, ret, set_held,
      set_cores, add_event; simpl.
    now rewrite <- app_assoc.
  - intros callback. unfold TryAddCallback, AddCallback.
    rewrite CoreFacts.bind_assoc, !Hrun.
    unfold bind, get_core, gets, put_core, unlock, modify, log, ret,
      set_held, set_cores, add_event; simpl.
    rewrite Hc, Hfin. simpl. rewrite Hc. reflexivity.
Qed.

Lemma TryAddCallback_queues_or_declines_witness :
  TryAddCallback 0 (fail InvalidAccess)
    (mkWorld [mkFutureImpl SUCCESS [] None] [] [State_mutex 3] [])
  = Ok false
      (mkWorld [mkFutureImpl SUCCESS [] None] [] [State_mutex 3]
         [EvLock (mutex_ 0); EvUnlock (mutex_ 0)]).
Proof.
  refine (proj1 (TryAddCallback_queues_or_declines (run_callback 0) 0
                   (fail InvalidAccess)
                   [mkFutureImpl SUCCESS [] None] [] [State_mutex 3] []
                   (mkFutureImpl SUCCESS [] None) _ eq_refl)
            eq_refl).
  compute_done.
Defined.

(** X2. Whatever a client program does, and however deep the callbacks it
    fires nest, when it returns the thread holds exactly the mutexes it
    held before: every lock taken by the core has been released. *)
Theorem locks_released_on_return fuel ops w w' :
  run_ops fuel ops w = Ok tt w' -> held w' = held w.
Proof.
  intros H. destruct (run_ops_preserved _ _ _ _ H) as (Hh & _ & _).
  exact Hh.
Qed.

Lemma locks_released_on_return_witness :
  exists w', run_ops 3 sample_program empty_world = Ok tt w' /\ held w' = [].
Proof.
  eexists. split; [vm_compute; reflexivity|].
  apply (locks_released_on_return 3 sample_program empty_world).
  vm_compute; reflexivity.
Defined.

(** X3. A finished core has no callback left in its queue: if that holds
    before a client program, it holds when the program returns. Every
    callback registered on a future that finished has been moved out and
    run. *)
Theorem finished_queues_stay_empty fuel ops w w' :
  queues_drained w = true ->
  run_ops fuel ops w = Ok tt w' ->
  queues_drained w' = true.
Proof.
  intros Hd H. destruct (run_ops_preserved _ _ _ _ H) as (_ & _ & Hd').
  exact (Hd' Hd).
Qed.

Lemma finished_queues_stay_empty_witness :
  exists w', run_ops 3 sample_program empty_world = Ok tt w'
             /\ queues_drained w' = true.
Proof.
  eexists. split; [vm_compute; reflexivity|].
  apply (finished_queues_stay_empty 3 sample_program empty_world);
    vm_compute; reflexivity.
Defined.

(** X4. No operation of a client program takes a finished core back to
    pending or removes a core: a core that was finished before the
    program is finished when the program returns (its state and result
    may have been overwritten by a later completion). *)
Theorem finished_stays_finished fuel ops w w' self c :
  run_ops fuel ops w = Ok tt w' ->
  cores w !! self = Some c ->
  IsFutureFinished (state_ c) = true ->
  exists c', cores w' !! self = Some c'
             /\ IsFutureFinished (state_ c') = true.
Proof.
  intros H Hc Hfin. destruct (run_ops_preserved _ _ _ _ H) as (_ & Hs & _).
  destruct (Hs self c Hc) as (c' & Hc' & Hst).
  exists c'. split; [exact Hc'|].
  unfold core_stays in Hst. rewrite Hfin in Hst. exact Hst.
Qed.

Lemma finished_stays_finished_witness :
  exists c', cores (mkWorld [mkFutureImpl FAILURE [] None;
                             mkFutureImpl PENDING [] None] [] [] 
                      [EvLock global_waiter_mutex; EvLock (mutex_ 0);
                       EvStore 0 FAILURE [mutex_ 0; global_waiter_mutex];
                       EvUnlock (mutex_ 0); EvUnlock global_waiter_mutex;
                       EvNotifyAll 0]) !! 0 = Some c'
             /\ IsFutureFinished (state_ c') = true.
Proof.
  apply (finished_stays_finished 0 [OpDoMarkFailed 0; OpMake]
           (mkWorld [mkFutureImpl SUCCESS [] None] [] [] [])
           _ 0 (mkFutureImpl SUCCESS [] None)); reflexivity.
Defined.

End ClientFacts.

(** ** Properties of the void variants, the chains and the block of the
    tests *)

Module LazyVoidFacts.
Import Lazy LazyVoid.

Section WithUserState.

Context {U : Type}.

(** *** What composed suppliers compute *)

Lemma supplies_ext {R} (supplier : FuncType U unit R) g g' evs evs' :
  (forall u, g u = g' u) -> (forall thread, evs thread = evs' thread) ->
  supplies supplier g evs -> supplies supplier g' evs'.
Proof.
  intros Hg Hevs (body & -> & Hbody). exists body. split; [reflexivity|].
  intros thread m. now rewrite Hbody, Hg, Hevs.
Qed.

Lemma supplies_lambda {R} (s : unit -> U -> R * U) :
  supplies (lambda s) (s tt) (fun _ => []).
Proof.
  eexists. split; [reflexivity|]. intros thread m. simpl.
  now rewrite app_nil_r.
Qed.

(** The four compositions of the header have the same body. *)
Lemma supplies_composition {R R'} (supplier : FuncType U unit R) g evs
    (f : R -> U -> R' * U) :
  supplies supplier g evs ->
  supplies
    (Some (fun _ : unit =>
             bind (call SupplierCall supplier tt)
                  (fun r => call ContinuationCall (lambda f) r)))
    (fun u => f (fst (g u)) (snd (g u)))
    (fun thread => [EvCall SupplierCall thread] ++ evs thread
                   ++ [EvCall ContinuationCall thread]).
Proof.
  intros (body & -> & Hbody). eexists. split; [reflexivity|].
  intros thread m. unfold bind, call, lambda. rewrite Hbody. simpl.
  now rewrite <- !app_assoc.
Qed.

(** The task of a consumption: the supplier runs, then the consumer, on
    what the supplier returned. *)
Lemma running_task_returns {R} (supplier : FuncType U unit R) g evs
    (c : R -> U -> unit * U) thread (m : Memory U) :
  supplies supplier g evs ->
  call TaskCall
    (Some (fun _ : unit =>
             bind (call SupplierCall supplier tt)
                  (fun r => call ConsumerCall (lambda c) r)))
    tt thread m
  = Returned tt
      (mkMemory (snd (c (fst (g (user m))) (snd (g (user m)))))
         (trace m ++ [EvCall TaskCall thread; EvCall SupplierCall thread]
          ++ evs thread ++ [EvCall ConsumerCall thread])).
Proof.
  intros (body & -> & Hbody). unfold bind, call, lambda. rewrite Hbody.
  simpl. rewrite <- !app_assoc. simpl.
  now destruct (c _ _) as [[] u].
Qed.

Lemma Spawn_inline task executor (w : World U) m' :
  executors w !! executor = Some InlineExecutor ->
  call TaskCall task tt main_thread (memory w) = Returned tt m' ->
  Spawn executor task w = Ok tt (mkWorld m' (all_threads w) (executors w)).
Proof. intros He Hc. unfold Spawn. now rewrite He, Hc. Qed.

Lemma executor_Then_all {T} (map_funcs : list (MapTask U T T)) :
  forall l : LazyFuture U T, executor_ (Then_all l map_funcs) = executor_ l.
Proof.
  unfold Then_all. induction map_funcs as [|f fs IH]; intros l; simpl.
  - reflexivity.
  - now rewrite IH.
Qed.

Lemma replicate_snoc {A} (k : nat) (x : A) :
  replicate k x ++ [x] = x :: replicate k x.
Proof. induction k as [|k IH]; simpl; [reflexivity|now rewrite IH]. Qed.

Lemma supplies_Then_all {T} (fs : list (Result T -> U -> Result T * U)) :
  forall (l : LazyFuture U T) g k,
    supplies (supplier_ l) g
      (fun thread => replicate k (EvCall SupplierCall thread)
                     ++ replicate k (EvCall ContinuationCall thread)) ->
    supplies (supplier_ (Then_all l (map lambda fs)))
      (fun u => fold_left (fun ru f => f (fst ru) (snd ru)) fs (g u))
      (fun thread =>
         replicate (k + length fs) (EvCall SupplierCall thread)
         ++ replicate (k + length fs) (EvCall ContinuationCall thread)).
Proof.
  unfold Then_all. induction fs as [|f fs IH]; intros l g k H; simpl.
  - rewrite Nat.add_0_r. exact H.
  - apply (supplies_composition _ _ _ f) in H.
    assert (H' : supplies (supplier_ (Then l (lambda f)))
                   (fun u => f (fst (g u)) (snd (g u)))
                   (fun thread =>
                      replicate (S k) (EvCall SupplierCall thread)
                      ++ replicate (S k) (EvCall ContinuationCall thread))).
    { eapply supplies_ext; [| |exact H].
      - intros u. reflexivity.
      - intros thread. simpl. f_equal.
        rewrite <- app_assoc. f_equal. apply replicate_snoc. }
    apply IH in H'. eapply supplies_ext; [| |exact H'].
    + intros u. reflexivity.
    + intros thread. now rewrite Nat.add_succ_r.
Qed.

Lemma supplies_chain {T} (s : unit -> U -> Result T * U)
    (fs : list (Result T -> U -> Result T * U)) executor :
  supplies
    (supplier_ (Then_all (mkLazyFuture (lambda s) executor) (map lambda fs)))
    (chain s fs)
    (fun thread =>
       replicate (length fs) (EvCall SupplierCall thread)
       ++ replicate (length fs) (EvCall ContinuationCall thread)).
Proof.
  apply (supplies_Then_all fs (mkLazyFuture (lambda s) executor) (s tt) 0).
  apply supplies_lambda.
Qed.

(** *** One thread, spawned by a thread-per-task executor *)

Lemma run_thread_settled n m pre task st exs :
  Forall (fun th : Thread U => status th <> Started) pre ->
  st <> Started ->
  run_thread n (mkWorld m (pre ++ [mkThread task st]) exs)
  = Ok tt (mkWorld m (pre ++ [mkThread task st]) exs).
Proof.
  intros Hpre Hst. unfold run_thread. simpl.
  destruct ((pre ++ [mkThread task st]) !! n) as [[t s]|] eqn:Hn;
    [|reflexivity].
  destruct s; try reflexivity.
  exfalso. apply list_elem_of_lookup_2 in Hn.
  apply elem_of_app in Hn as [Hin|Hin].
  - rewrite Forall_forall in Hpre. now apply (Hpre _ Hin).
  - apply list_elem_of_singleton in Hin. injection Hin as _ Hs.
    now apply Hst.
Qed.

Lemma run_thread_other n m pre task exs :
  Forall (fun th : Thread U => status th <> Started) pre ->
  n <> length pre ->
  run_thread n (mkWorld m (pre ++ [mkThread task Started]) exs)
  = Ok tt (mkWorld m (pre ++ [mkThread task Started]) exs).
Proof.
  intros Hpre Hne. unfold run_thread. simpl.
  destruct ((pre ++ [mkThread task Started]) !! n) as [[t s]|] eqn:Hn;
    [|reflexivity].
  destruct s; try reflexivity.
  exfalso. destruct (decide (n < length pre)%nat) as [Hlt|Hge].
  - rewrite lookup_app_l in Hn by exact Hlt.
    apply list_elem_of_lookup_2 in Hn.
    rewrite Forall_forall in Hpre. now apply (Hpre _ Hn).
  - apply lookup_lt_Some in Hn. rewrite length_app in Hn. simpl in Hn. lia.
Qed.

Lemma run_thread_own m pre task exs :
  run_thread (length pre) (mkWorld m (pre ++ [mkThread task Started]) exs)
  = match call TaskCall task tt (spawned (length pre)) m with
    | Returned _ m' =>
        Ok tt (mkWorld (U := U) m' (pre ++ [mkThread task Finished]) exs)
    | Threw _ m' =>
        Fail Terminate (mkWorld m' (pre ++ [mkThread task Started]) exs)
    end.
Proof.
  unfold run_thread. simpl. rewrite list_lookup_middle by reflexivity.
  destruct (call TaskCall task tt (spawned (length pre)) m); [|reflexivity].
  rewrite insert_app_r_alt by lia. now rewrite Nat.sub_diag.
Qed.

Lemma schedule_cons n ns (w : World U) :
  schedule (n :: ns) w
  = match run_thread n w with
    | Ok _ w' => schedule ns w'
    | Fail e w' => Fail e w'
    end.
Proof. reflexivity. Qed.

Lemma schedule_settled ns m pre task st exs :
  Forall (fun th : Thread U => status th <> Started) pre ->
  st <> Started ->
  schedule ns (mkWorld m (pre ++ [mkThread task st]) exs)
  = Ok tt (mkWorld m (pre ++ [mkThread task st]) exs).
Proof.
  intros Hpre Hst. induction ns as [|n ns IH]; [reflexivity|].
  now rewrite schedule_cons, run_thread_settled.
Qed.

(** Whether and when the scheduler runs the thread is not known: either
    it has not run, or it has run its task. *)
Lemma schedule_returns ns m pre task exs m' :
  Forall (fun th : Thread U => status th <> Started) pre ->
  call TaskCall task tt (spawned (length pre)) m = Returned tt m' ->
  schedule ns (mkWorld m (pre ++ [mkThread task Started]) exs)
  = Ok tt (mkWorld m (pre ++ [mkThread task Started]) exs)
  \/ schedule ns (mkWorld m (pre ++ [mkThread task Started]) exs)
     = Ok tt (mkWorld m' (pre ++ [mkThread task Finished]) exs).
Proof.
  intros Hpre Hc. induction ns as [|n ns IH]; [now left|].
  rewrite !schedule_cons.
  destruct (decide (n = length pre)) as [->|Hne].
  - right. rewrite run_thread_own, Hc.
    now apply (schedule_settled ns).
  - rewrite run_thread_other by assumption. exact IH.
Qed.

Lemma schedule_throws ns m pre task exs ex m' :
  Forall (fun th : Thread U => status th <> Started) pre ->
  call TaskCall task tt (spawned (length pre)) m = Threw ex m' ->
  schedule ns (mkWorld m (pre ++ [mkThread task Started]) exs)
  = Ok tt (mkWorld m (pre ++ [mkThread task Started]) exs)
  \/ schedule ns (mkWorld m (pre ++ [mkThread task Started]) exs)
     = Fail Terminate (mkWorld m' (pre ++ [mkThread task Started]) exs).
Proof.
  intros Hpre Hc. induction ns as [|n ns IH]; [now left|].
  rewrite !schedule_cons.
  destruct (decide (n = length pre)) as [->|Hne].
  - right. now rewrite run_thread_own, Hc.
  - rewrite run_thread_other by assumption. exact IH.
Qed.

Lemma join_started m pre task exs m' :
  call TaskCall task tt (spawned (length pre)) m = Returned tt m' ->
  join (length pre) (mkWorld (U := U) m (pre ++ [mkThread task Started]) exs)
  = Ok tt (mkWorld m' (pre ++ [mkThread task Joined]) exs).
Proof.
  intros Hc. unfold join, mbind. rewrite run_thread_own, Hc. simpl.
  rewrite list_lookup_middle by reflexivity.
  rewrite insert_app_r_alt by lia. now rewrite Nat.sub_diag.
Qed.

Lemma join_finished m pre task exs :
  Forall (fun th : Thread U => status th <> Started) pre ->
  join (length pre) (mkWorld m (pre ++ [mkThread task Finished]) exs)
  = Ok tt (mkWorld m (pre ++ [mkThread task Joined]) exs).
Proof.
  intros Hpre. unfold join, mbind.
  rewrite run_thread_settled by (assumption || discriminate). simpl.
  rewrite list_lookup_middle by reflexivity.
  rewrite insert_app_r_alt by lia. now rewrite Nat.sub_diag.
Qed.

Lemma join_throws m pre task exs ex m' :
  call TaskCall task tt (spawned (length pre)) m = Threw ex m' ->
  join (length pre) (mkWorld (U := U) m (pre ++ [mkThread task Started]) exs)
  = Fail Terminate (mkWorld m' (pre ++ [mkThread task Started]) exs).
Proof. intros Hc. unfold join, mbind. now rewrite run_thread_own, Hc. Qed.

Lemma delete_joined m pre task exs :
  delete (length pre) (mkWorld (U := U) m (pre ++ [mkThread task Joined]) exs)
  = Ok tt (mkWorld m (pre ++ [mkThread task Deleted]) exs).
Proof.
  unfold delete. simpl. rewrite list_lookup_middle by reflexivity.
  rewrite insert_app_r_alt by lia. now rewrite Nat.sub_diag.
Qed.

Lemma join_all_cons interleaving n (w : World U) :
  join_all interleaving [n] w
  = match schedule (hd [] interleaving) w with
    | Ok _ w1 =>
        match join n w1 with
        | Ok _ w2 => delete n w2
        | Fail e w2 => Fail e w2
        end
    | Fail e w1 => Fail e w1
    end.
Proof.
  simpl. unfold mbind.
  destruct (schedule (hd [] interleaving) w) as [[] w1|e w1]; [|reflexivity].
  destruct (join n w1) as [[] w2|e w2]; [|reflexivity].
  destruct (delete n w2) as [[] w3|e w3]; reflexivity.
Qed.

(** The end of the block when the task returns: whatever the scheduler
    did before and does during the teardown, the thread has run its
    task once and has been joined and deleted. *)
Lemma teardown_returns ns interleaving m pre task exs m' :
  Forall (fun th : Thread U => status th <> Started) pre ->
  call TaskCall task tt (spawned (length pre)) m = Returned tt m' ->
  mbind (schedule ns) (fun _ => join_all interleaving [length pre])
    (mkWorld m (pre ++ [mkThread task Started]) exs)
  = Ok tt (mkWorld m' (pre ++ [mkThread task Deleted]) exs).
Proof.
  intros Hpre Hc.
  assert (Hfin : join_all interleaving [length pre]
                   (mkWorld m' (pre ++ [mkThread task Finished]) exs)
                 = Ok tt (mkWorld m' (pre ++ [mkThread task Deleted]) exs)).
  { rewrite join_all_cons.
    rewrite schedule_settled by (assumption || discriminate).
    rewrite join_finished by assumption. apply delete_joined. }
  assert (Hst : join_all interleaving [length pre]
                  (mkWorld m (pre ++ [mkThread task Started]) exs)
                = Ok tt (mkWorld m' (pre ++ [mkThread task Deleted]) exs)).
  { rewrite join_all_cons.
    destruct (schedule_returns (hd [] interleaving) m pre task exs m' Hpre Hc)
      as [-> | ->].
    - rewrite (join_started _ _ _ _ _ Hc). apply delete_joined.
    - rewrite join_finished by assumption. apply delete_joined. }
  unfold mbind at 1.
  destruct (schedule_returns ns m pre task exs m' Hpre Hc) as [-> | ->];
    assumption.
Qed.

(** The end of the block when an exception leaves the task: the program
    is terminated when the thread runs, at the latest when the
    destructor joins it. *)
Lemma teardown_terminates ns interleaving m pre task exs ex m' :
  Forall (fun th : Thread U => status th <> Started) pre ->
  call TaskCall task tt (spawned (length pre)) m = Threw ex m' ->
  mbind (schedule ns) (fun _ => join_all interleaving [length pre])
    (mkWorld m (pre ++ [mkThread task Started]) exs)
  = Fail Terminate (mkWorld m' (pre ++ [mkThread task Started]) exs).
Proof.
  intros Hpre Hc. unfold mbind at 1.
  destruct (schedule_throws ns m pre task exs ex m' Hpre Hc) as [-> | ->];
    [|reflexivity].
  rewrite join_all_cons.
  destruct (schedule_throws (hd [] interleaving) m pre task exs ex m' Hpre Hc)
    as [-> | ->]; [|reflexivity].
  now rewrite (join_throws _ _ _ _ _ _ Hc).
Qed.

Lemma schedule_executors ns :
  forall w w1 : World U, schedule ns w = Ok tt w1 -> executors w1 = executors w.
Proof.
  induction ns as [|n ns IH]; intros w w1 Hs.
  - injection Hs as <-. reflexivity.
  - rewrite schedule_cons in Hs.
    destruct (run_thread n w) as [[] w2|e w2] eqn:Hr; [|discriminate].
    rewrite (IH _ _ Hs). unfold run_thread in Hr.
    destruct (all_threads w !! n) as [[t [| | |]]|];
      try (injection Hr as <-; reflexivity).
    destruct (call TaskCall t tt (spawned n) (memory w));
      [injection Hr as <-; reflexivity|discriminate].
Qed.

(** The start of the block: the executor is made at a fresh address and
    gets one thread for the task of the consumption. *)
Lemma consume_block_start {T} (make_future : nat -> LazyFuture U T) consumer
    ns interleaving (w : World U) :
  executor_ (make_future (length (executors w))) = length (executors w) ->
  consume_block make_future consumer ns interleaving w
  = mbind (schedule ns)
      (fun _ => join_all interleaving [length (all_threads w)])
      (mkWorld (memory w)
         (all_threads w
          ++ [mkThread
                (FutureRunningTask
                   (supplier_ (make_future (length (executors w)))) consumer)
                Started])
         (executors w
          ++ [ThreadPerTaskExecutor [length (all_threads w)]])).
Proof.
  intros He. unfold consume_block, mbind at 1 2, new_executor, ConsumeAsync.
  cbn [executors all_threads memory]. rewrite He. unfold Spawn.
  cbn [executors all_threads memory].
  rewrite list_lookup_middle by reflexivity.
  rewrite insert_app_r_alt by lia. rewrite Nat.sub_diag. simpl.
  unfold mbind.
  destruct (schedule ns _) as [[] w1|e w1] eqn:Hs; [|reflexivity].
  unfold ThreadPerTaskExecutor_destroy.
  apply schedule_executors in Hs. cbn [executors] in Hs.
  rewrite Hs, list_lookup_middle by reflexivity. reflexivity.
Qed.

(** *** Chains and blocks *)

(** X5. A chain [fut.Then(f1)...Then(fn)] of any length, consumed on an
    inline executor: the supplier runs, then every continuation once, in
    the order of attachment and each on the result of the one before,
    then the consumer on the last result; all of it on the calling
    thread, before [ConsumeAsync] returns. *)
Theorem Then_chain_consumed_inline {T : Type}
    (s : unit -> U -> Result T * U)
    (fs : list (Result T -> U -> Result T * U))
    (c : Result T -> U -> unit * U) (executor : nat) (w : World U) :
  executors w !! executor = Some InlineExecutor ->
  ConsumeAsync (Then_all (mkLazyFuture (lambda s) executor) (map lambda fs))
    (lambda c) w
  = Ok tt
      (mkWorld
         (mkMemory
            (snd (c (fst (chain s fs (user (memory w))))
                    (snd (chain s fs (user (memory w))))))
            (trace (memory w)
             ++ [EvCall TaskCall main_thread]
             ++ replicate (S (length fs)) (EvCall SupplierCall main_thread)
             ++ replicate (length fs) (EvCall ContinuationCall main_thread)
             ++ [EvCall ConsumerCall main_thread]))
         (all_threads w) (executors w)).
Proof.
  intros He. unfold ConsumeAsync. rewrite executor_Then_all.
  cbn [executor_]. apply Spawn_inline; [exact He|].
  unfold FutureRunningTask.
  rewrite (running_task_returns _ _ _ c main_thread (memory w)
             (supplies_chain s fs executor)).
  f_equal. f_equal. simpl. now rewrite <- !app_assoc.
Qed.

(** X6. The block of the tests with a chain of continuations, under a
    thread-per-task executor and any schedule: when the block is left
    the consumer has run, once, on the spawned thread, and the user
    state is the one the inline consumption computes; the thread has
    been joined and deleted. *)
Theorem consume_block_any_schedule {T : Type}
    (s : unit -> U -> Result T * U)
    (fs : list (Result T -> U -> Result T * U))
    (c : Result T -> U -> unit * U)
    (ns : list nat) (interleaving : list (list nat)) (w : World U) :
  Forall (fun th => status th <> Started) (all_threads w) ->
  consume_block
    (fun executor =>
       Then_all (mkLazyFuture (lambda s) executor) (map lambda fs))
    (lambda c) ns interleaving w
  = Ok tt
      (mkWorld
         (mkMemory
            (snd (c (fst (chain s fs (user (memory w))))
                    (snd (chain s fs (user (memory w))))))
            (trace (memory w)
             ++ [EvCall TaskCall (spawned (length (all_threads w)))]
             ++ replicate (S (length fs))
                  (EvCall SupplierCall (spawned (length (all_threads w))))
             ++ replicate (length fs)
                  (EvCall ContinuationCall (spawned (length (all_threads w))))
             ++ [EvCall ConsumerCall (spawned (length (all_threads w)))]))
         (all_threads w
          ++ [mkThread
                (FutureRunningTask
                   (supplier_
                      (Then_all
                         (mkLazyFuture (lambda s) (length (executors w)))
                         (map lambda fs)))
                   (lambda c))
                Deleted])
         (executors w ++ [ThreadPerTaskExecutor [length (all_threads w)]])).
Proof.
  intros Hpre. rewrite consume_block_start by apply executor_Then_all.
  apply teardown_returns; [exact Hpre|].
  unfold FutureRunningTask.
  rewrite (running_task_returns _ _ _ c _ (memory w)
             (supplies_chain s fs (length (executors w)))).
  f_equal. f_equal. simpl. now rewrite <- !app_assoc.
Qed.

(** X7. The void variants compose as the typed ones do. A future turned
    void by [ThenVoid], continued by [ThenVoid] of the void future and
    consumed by a void consumer, and the same void future taken back to a
    typed one by [Then] and consumed: on an inline executor each
    callable runs once, in the order of attachment, on what the one
    before returned. *)
Theorem void_variants_compose {T V : Type}
    (s : unit -> U -> Result T * U) (f1 : Result T -> U -> Status * U)
    (f2 : Status -> U -> Status * U) (f3 : Status -> U -> Result V * U)
    (cv : Status -> U -> unit * U) (c : Result V -> U -> unit * U)
    (executor : nat) (w : World U) :
  executors w !! executor = Some InlineExecutor ->
  let r0 := s tt (user (memory w)) in
  let r1 := f1 (fst r0) (snd r0) in
  let r2 := f2 (fst r1) (snd r1) in
  let r3 := f3 (fst r1) (snd r1) in
  let calls :=
    [EvCall TaskCall main_thread; EvCall SupplierCall main_thread;
     EvCall SupplierCall main_thread; EvCall SupplierCall main_thread;
     EvCall ContinuationCall main_thread;
     EvCall ContinuationCall main_thread;
     EvCall ConsumerCall main_thread] in
  ConsumeAsync_void
    (ThenVoid_void (ThenVoid (mkLazyFuture (lambda s) executor) (lambda f1))
       (lambda f2))
    (lambda cv) w
  = Ok tt (mkWorld (mkMemory (snd (cv (fst r2) (snd r2)))
                      (trace (memory w) ++ calls))
             (all_threads w) (executors w))
  /\ ConsumeAsync
       (Then_void (ThenVoid (mkLazyFuture (lambda s) executor) (lambda f1))
          (lambda f3))
       (lambda c) w
     = Ok tt (mkWorld (mkMemory (snd (c (fst r3) (snd r3)))
                         (trace (memory w) ++ calls))
                (all_threads w) (executors w)).
Proof.
  intros He r0 r1 r2 r3 calls.
  pose proof (supplies_composition _ _ _ f1 (supplies_lambda s)) as H1.
  split.
  - pose proof (supplies_composition _ _ _ f2 H1) as H2.
    unfold ConsumeAsync_void. cbn [void_executor_ ThenVoid_void ThenVoid
                                   executor_].
    apply Spawn_inline; [exact He|].
    exact (running_task_returns _ _ _ cv main_thread (memory w) H2).
  - pose proof (supplies_composition _ _ _ f3 H1) as H3.
    unfold ConsumeAsync. cbn [void_executor_ Then_void ThenVoid executor_].
    apply Spawn_inline; [exact He|].
    exact (running_task_returns _ _ _ c main_thread (memory w) H3).
Qed.

(** X8. An empty callable is noticed only when it is called. On an inline
    executor [ConsumeAsync] throws [bad_function_call] to its caller: at
    once for an empty supplier, also behind a continuation, and then no
    continuation and no consumer runs; after the supplier has run, and
    with its effect, for an empty continuation or an empty consumer. *)
Theorem empty_callable_throws_on_consumption {T V : Type}
    (s : unit -> U -> Result T * U) (f : MapTask U T V)
    (consumer : Consumer U T) (consumer' : Consumer U V)
    (executor : nat) (w : World U) :
  executors w !! executor = Some InlineExecutor ->
  ConsumeAsync (mkLazyFuture None executor) consumer w
  = Fail (Uncaught bad_function_call)
      (mkWorld (mkMemory (user (memory w))
                  (trace (memory w) ++ [EvCall TaskCall main_thread]))
         (all_threads w) (executors w))
  /\ ConsumeAsync (Then (mkLazyFuture None executor) f) consumer' w
     = Fail (Uncaught bad_function_call)
         (mkWorld (mkMemory (user (memory w))
                     (trace (memory w)
                      ++ [EvCall TaskCall main_thread;
                          EvCall SupplierCall main_thread]))
            (all_threads w) (executors w))
  /\ ConsumeAsync (Then (mkLazyFuture (lambda s) executor) None) consumer' w
     = Fail (Uncaught bad_function_call)
         (mkWorld (mkMemory (snd (s tt (user (memory w))))
                     (trace (memory w)
                      ++ [EvCall TaskCall main_thread;
                          EvCall SupplierCall main_thread;
                          EvCall SupplierCall main_thread]))
            (all_threads w) (executors w))
  /\ ConsumeAsync (mkLazyFuture (lambda s) executor) None w
     = Fail (Uncaught bad_function_call)
         (mkWorld (mkMemory (snd (s tt (user (memory w))))
                     (trace (memory w)
                      ++ [EvCall TaskCall main_thread;
                          EvCall SupplierCall main_thread]))
            (all_threads w) (executors w)).
Proof.
  intros He. unfold ConsumeAsync, Spawn; cbn [executor_ supplier_ Then].
  rewrite !He.
  unfold FutureRunningTask, Compose, call, bind, lambda; simpl.
  rewrite <- !app_assoc. simpl.
  split; [reflexivity|]. split; [reflexivity|]. split; reflexivity.
Qed.

(** X9. Under a thread-per-task executor the same mistake does not reach
    the caller: the exception leaves the task on the spawned thread and
    the program is terminated, whatever the schedule, at the latest when
    the destructor of the executor joins the thread. *)
Theorem empty_callable_terminates_block {T : Type}
    (s : unit -> U -> Result T * U) (consumer : Consumer U T)
    (ns : list nat) (interleaving : list (list nat)) (w : World U) :
  Forall (fun th => status th <> Started) (all_threads w) ->
  consume_block (fun executor => mkLazyFuture None executor) consumer
    ns interleaving w
  = Fail Terminate
      (mkWorld
         (mkMemory (user (memory w))
            (trace (memory w)
             ++ [EvCall TaskCall (spawned (length (all_threads w)))]))
         (all_threads w
          ++ [mkThread (FutureRunningTask None consumer) Started])
         (executors w ++ [ThreadPerTaskExecutor [length (all_threads w)]]))
  /\ consume_block (fun executor => mkLazyFuture (lambda s) executor) None
       ns interleaving w
     = Fail Terminate
         (mkWorld
            (mkMemory (snd (s tt (user (memory w))))
               (trace (memory w)
                ++ [EvCall TaskCall (spawned (length (all_threads w)));
                    EvCall SupplierCall (spawned (length (all_threads w)))]))
            (all_threads w
             ++ [mkThread (FutureRunningTask (lambda s) None) Started])
            (executors w ++ [ThreadPerTaskExecutor [length (all_threads w)]])).
Proof.
  intros Hpre. split.
  - rewrite consume_block_start by reflexivity.
    apply (teardown_terminates _ _ _ _ _ _ bad_function_call);
      [exact Hpre|reflexivity].
  - rewrite consume_block_start by reflexivity.
    apply (teardown_terminates _ _ _ _ _ _ bad_function_call);
      [exact Hpre|].
    unfold FutureRunningTask, call, bind, lambda; simpl.
    now rewrite <- !app_assoc.
Qed.

End WithUserState.

Lemma Then_chain_consumed_inline_witness :
  ConsumeAsync
    (Then_all (mkLazyFuture (lambda (fun _ u => (ResultValue 5, u))) 0)
       (map lambda
          [fun r u => (r, S u);
           fun r u => (match r with
                       | ResultValue v => ResultValue (v * 2)
                       | ResultStatus st => ResultStatus st
                       end, u + 10)]))
    (lambda (fun r u => (tt, match r with
                             | ResultValue v => v + u
                             | ResultStatus _ => 0
                             end)))
    (mkWorld (mkMemory 0 []) [] [InlineExecutor])
  = Ok tt (mkWorld
             (mkMemory 21
                [EvCall TaskCall main_thread; EvCall SupplierCall main_thread;
                 EvCall SupplierCall main_thread;
                 EvCall SupplierCall main_thread;
                 EvCall ContinuationCall main_thread;
                 EvCall ContinuationCall main_thread;
                 EvCall ConsumerCall main_thread])
             [] [InlineExecutor]).
Proof.
  exact (Then_chain_consumed_inline (U := nat) (T := nat)
           (fun _ u => (ResultValue 5, u))
           [fun r u => (r, S u);
            fun r u => (match r with
                        | ResultValue v => ResultValue (v * 2)
                        | ResultStatus st => ResultStatus st
                        end, u + 10)]
           (fun r u => (tt, match r with
                            | ResultValue v => v + u
                            | ResultStatus _ => 0
                            end))
           0 (mkWorld (mkMemory 0 []) [] [InlineExecutor]) eq_refl).
Defined.

Lemma consume_block_any_schedule_witness :
  match
    consume_block
      (fun executor =>
         Then_all
           (mkLazyFuture (lambda (fun _ u => (ResultValue 5, u))) executor)
           (map lambda [fun r u => (r, S u)]))
      (lambda (fun r u => (tt, match r with
                               | ResultValue v => v + u
                               | ResultStatus _ => 0
                               end)))
      [0; 0] [[0]] (mkWorld (mkMemory 0 []) [] [])
  with
  | Ok _ w' => Some (user (memory w'), map status (all_threads w'))
  | Fail _ _ => None
  end
  = Some (6, [Deleted]).
Proof.
  rewrite (consume_block_any_schedule (U := nat) (T := nat)
             (fun _ u => (ResultValue 5, u)) [fun r u => (r, S u)]
             (fun r u => (tt, match r with
                              | ResultValue v => v + u
                              | ResultStatus _ => 0
                              end))
             [0; 0] [[0]] (mkWorld (mkMemory 0 []) [] []))
    by constructor.
  reflexivity.
Defined.

Lemma void_variants_compose_witness :
  match
    ConsumeAsync_void
      (ThenVoid_void
         (ThenVoid (mkLazyFuture (lambda (fun _ u => (ResultValue 5, u))) 0)
            (lambda (fun r u => (match r with
                                 | ResultValue _ => Status_OK
                                 | ResultStatus st => st
                                 end, S u))))
         (lambda (fun st u => (Status_Invalid "late", u + 2))))
      (lambda (fun st u => (tt, if ok st then u else u + 100)))
      (mkWorld (mkMemory 0 []) [] [InlineExecutor])
  with
  | Ok _ w' => Some (user (memory w'))
  | Fail _ _ => None
  end
  = Some 103.
Proof.
  rewrite (proj1 (void_variants_compose (U := nat) (T := nat) (V := nat)
                    (fun _ u => (ResultValue 5, u))
                    (fun r u => (match r with
                                 | ResultValue _ => Status_OK
                                 | ResultStatus st => st
                                 end, S u))
                    (fun st u => (Status_Invalid "late", u + 2))
                    (fun st u => (ResultValue 7, u))
                    (fun st u => (tt, if ok st then u else u + 100))
                    (fun r u => (tt, u))
                    0 (mkWorld (mkMemory 0 []) [] [InlineExecutor]) eq_refl)).
  reflexivity.
Defined.

Lemma empty_callable_throws_on_consumption_witness :
  ConsumeAsync
    (Then (mkLazyFuture (T := nat) None 0)
       (lambda (fun (r : Result nat) u => (r, S u))))
    (lambda (fun r u => (tt, S u)))
    (mkWorld (mkMemory 0 []) [] [InlineExecutor])
  = Fail (Uncaught bad_function_call)
      (mkWorld
         (mkMemory 0
            [EvCall TaskCall main_thread; EvCall SupplierCall main_thread])
         [] [InlineExecutor]).
Proof.
  exact (proj1 (proj2 (empty_callable_throws_on_consumption
                         (U := nat) (T := nat) (V := nat)
                         (fun _ u => (ResultValue 5, u))
                         (lambda (fun r u => (r, S u)))
                         (lambda (fun r u => (tt, S u)))
                         (lambda (fun r u => (tt, S u)))
                         0 (mkWorld (mkMemory 0 []) [] [InlineExecutor])
                         eq_refl))).
Defined.

Lemma empty_callable_terminates_block_witness :
  consume_block (fun executor => mkLazyFuture (T := nat) None executor)
    (lambda (fun r u => (tt, S u))) [0] []
    (mkWorld (mkMemory 0 []) [] [])
  = Fail Terminate
      (mkWorld (mkMemory 0 [EvCall TaskCall (spawned 0)])
         [mkThread
            (FutureRunningTask (T := nat) None (lambda (fun r u => (tt, S u))))
            Started]
         [ThreadPerTaskExecutor [0]]).
Proof.
  refine (proj1 (empty_callable_terminates_block (U := nat) (T := nat)
                   (fun _ u => (ResultValue 5, u))
                   (lambda (fun r u => (tt, S u))) [0] []
                   (mkWorld (mkMemory 0 []) [] []) _)).
  constructor.
Defined.

End LazyVoidFacts.

(** ** No callback is lost or invoked twice *)

Module DeliveryFacts.
Import Core Client ClientFacts.
Local Open Scope m_scope.

Arguments run_callback : simpl never.
Arguments release : simpl never.

Lemma count_cons {A} (p : A -> bool) x xs :
  count p (x :: xs) = (Nat.b2n (p x) + count p xs)%nat.
Proof. unfold count. simpl. now destruct (p x). Qed.

Lemma count_app {A} (p : A -> bool) xs ys :
  count p (xs ++ ys) = (count p xs + count p ys)%nat.
Proof. unfold count. now rewrite List.filter_app, length_app. Qed.

Lemma queued_insert tag cs self c c' :
  cs !! self = Some c ->
  (count (is_tag tag) (flat_map callbacks_ (<[self := c']> cs))
   + count (is_tag tag) (callbacks_ c)
   = count (is_tag tag) (flat_map callbacks_ cs)
     + count (is_tag tag) (callbacks_ c'))%nat.
Proof.
  revert self. induction cs as [|x cs IH]; intros self Hc; [discriminate|].
  destruct self as [|self]; simpl in *.
  - injection Hc as ->. rewrite !count_app. lia.
  - rewrite !count_app. specialize (IH self Hc). lia.
Qed.

Section Accounting.

Variable tag : nat.

(** Steps that neither touch a queue nor invoke a callback. *)
Lemma accounted_quiet w w1 :
  cores w1 = cores w ->
  count (is_invoke tag) (trace w1) = count (is_invoke tag) (trace w) ->
  accounted tag w1 = accounted tag w.
Proof.
  unfold accounted, queued, delivered. intros -> ->. reflexivity.
Qed.

Lemma accounted_insert w w1 self c c' :
  cores w !! self = Some c ->
  cores w1 = <[self := c']> (cores w) ->
  count (is_invoke tag) (trace w1) = count (is_invoke tag) (trace w) ->
  (accounted tag w1 + count (is_tag tag) (callbacks_ c)
   = accounted tag w + count (is_tag tag) (callbacks_ c'))%nat.
Proof.
  unfold accounted, queued, delivered. intros Hc -> ->.
  pose proof (queued_insert tag _ _ _ c' Hc). lia.
Qed.

Lemma accounted_append w w1 c :
  cores w1 = cores w ++ [c] ->
  callbacks_ c = [] ->
  count (is_invoke tag) (trace w1) = count (is_invoke tag) (trace w) ->
  accounted tag w1 = accounted tag w.
Proof.
  unfold accounted, queued, delivered. intros -> Hq ->.
  rewrite flat_map_app, count_app. simpl. rewrite Hq. simpl.
  unfold count at 2. simpl. lia.
Qed.

Ltac quiet := simpl; rewrite ?count_app; simpl; unfold count; simpl; lia.

Section Invoke.

Variable invoke : Callback -> nat -> M unit.
Hypothesis invoke_accounted :
  forall callback self w w',
    invoke callback self w = Ok tt w' ->
    accounted tag w' = (accounted tag w + Nat.b2n (is_tag tag callback))%nat.

Lemma for_each_invoke_accounted self callbacks :
  forall w w',
    for_each (fun callback => invoke callback self) callbacks w = Ok tt w' ->
    accounted tag w' = (accounted tag w + count (is_tag tag) callbacks)%nat.
Proof.
  induction callbacks as [|cb cbs IH]; intros w w' H; simpl in H.
  - apply ret_inv in H as [_ <-]. unfold count. simpl. lia.
  - apply bind_inv in H as ([] & w1 & H1 & H2).
    apply invoke_accounted in H1. apply IH in H2.
    rewrite count_cons. lia.
Qed.

Lemma AddCallback_accounted self callback w w' :
  AddCallback invoke self callback w = Ok tt w' ->
  accounted tag w' = (accounted tag w + Nat.b2n (is_tag tag callback))%nat.
Proof.
  unfold AddCallback. intros [Hn H]%lock_inv.
  apply get_core_inv in H as (c & Hc & H). simpl in Hc.
  destruct (IsFutureFinished (state_ c)) eqn:Hfin.
  - rewrite bind_unlock in H. apply invoke_accounted in H. rewrite H.
    f_equal. apply accounted_quiet; [reflexivity|quiet].
  - rewrite bind_gets, bind_put_core, bind_log, unlock_eq in H.
    apply ret_inv in H as [_ <-].
    match goal with
    | |- accounted tag ?w1 = _ =>
        pose proof (accounted_insert w w1 self c
                      (mkFutureImpl (state_ c) (callbacks_ c ++ [callback])
                         (result_ c)) Hc eq_refl ltac:(quiet)) as Hi
    end.
    simpl in Hi. simpl. rewrite count_app, count_cons in Hi.
    change (count (is_tag tag) []) with 0%nat in Hi. lia.
Qed.

Lemma DoMarkFinishedOrFailed_accounted self st w w' :
  DoMarkFinishedOrFailed invoke self st w = Ok tt w' ->
  accounted tag w' = accounted tag w.
Proof.
  unfold DoMarkFinishedOrFailed. intros [Hg H]%lock_inv.
  apply lock_inv in H as [Hm H]. simpl in Hm.
  apply get_core_inv in H as (c & Hc & H). simpl in Hc.
  rewrite bind_gets, bind_put_core, bind_log, !bind_unlock, bind_log in H.
  apply get_core_inv in H as (c1 & Hc1 & H). simpl in Hc1.
  rewrite list_lookup_insert_eq in Hc1 by (eapply lookup_lt_Some; exact Hc).
  injection Hc1 as <-. simpl in H.
  rewrite bind_put_core in H.
  apply for_each_invoke_accounted in H. rewrite H.
  match goal with
  | |- (accounted tag ?w1 + _)%nat = _ =>
      pose proof (accounted_insert w w1 self c
                    (mkFutureImpl st [] (result_ c)) Hc
                    (list_insert_insert_eq _ _ _ _) ltac:(quiet)) as Hi
  end.
  simpl in Hi. simpl. change (count (is_tag tag) []) with 0%nat in Hi. lia.
Qed.

Lemma set_result_accounted self res w w' :
  set_result self res w = Ok tt w' -> accounted tag w' = accounted tag w.
Proof.
  unfold set_result. intros (c & Hc & H)%get_core_inv.
  rewrite put_core_eq in H. apply ret_inv in H as [_ <-].
  match goal with
  | |- accounted tag ?w1 = _ =>
      pose proof (accounted_insert w w1 self c
                    (mkFutureImpl (state_ c) (callbacks_ c) (Some res)) Hc
                    eq_refl eq_refl) as Hi
  end.
  simpl in Hi. simpl. lia.
Qed.

Lemma Future_MarkFinished_accounted self s w w' :
  Future_MarkFinished invoke self s w = Ok tt w' ->
  accounted tag w' = accounted tag w.
Proof.
  unfold Future_MarkFinished. intros ([] & w1 & H1 & H2)%bind_inv.
  apply set_result_accounted in H1. rewrite <- H1.
  destruct (ok s); eapply DoMarkFinishedOrFailed_accounted; exact H2.
Qed.

Lemma AllComplete_lambda_accounted state out self w w' :
  AllComplete_lambda invoke state out self w = Ok tt w' ->
  accounted tag w' = accounted tag w.
Proof.
  unfold AllComplete_lambda. intros (s & H)%Future_status_inv.
  destruct (negb (ok s)).
  - apply lock_inv in H as [Hn H].
    apply Future_is_finished_inv in H as (b & H).
    apply bind_inv in H as ([] & w2 & H1 & H2).
    rewrite unlock_eq in H2. apply ret_inv in H2 as [_ <-].
    transitivity (accounted tag w2); [apply accounted_quiet; [reflexivity|quiet]|].
    destruct b; simpl in H1.
    + apply ret_inv in H1 as [_ <-].
      apply accounted_quiet; [reflexivity|quiet].
    + apply Future_MarkFinished_accounted in H1. rewrite H1.
      apply accounted_quiet; [reflexivity|quiet].
  - apply fetch_sub_inv in H as (old & f & H).
    destruct (decide (old <> 1%Z)).
    + apply ret_inv in H as [_ <-]. reflexivity.
    + apply Future_MarkFinished_accounted in H. rewrite H. reflexivity.
Qed.

Lemma All_collect_accounted out futures results w w' :
  All_collect invoke out futures results w = Ok tt w' ->
  accounted tag w' = accounted tag w.
Proof.
  revert results. induction futures as [|f futures IH]; intros results H;
    simpl in H.
  - apply bind_inv in H as ([] & w1 & H1 & H2).
    apply set_result_accounted in H1. rewrite <- H1.
    eapply DoMarkFinishedOrFailed_accounted; exact H2.
  - apply Future_status_inv in H as (s & H). eapply IH; exact H.
Qed.

Lemma All_lambda_accounted state out futures w w' :
  All_lambda invoke state out futures w = Ok tt w' ->
  accounted tag w' = accounted tag w.
Proof.
  unfold All_lambda. intros (old & f & H)%fetch_sub_inv.
  destruct (decide (old <> 1%Z)).
  - apply ret_inv in H as [_ <-]. reflexivity.
  - apply All_collect_accounted in H. rewrite H. reflexivity.
Qed.

Lemma Then_lambda_accounted on_success next self w w' :
  Then_lambda invoke on_success next self w = Ok tt w' ->
  accounted tag w' = accounted tag w.
Proof.
  unfold Then_lambda. intros (c & _ & H)%get_core_inv.
  destruct (result_ c) as [[s|results]|]; try discriminate H.
  eapply Future_MarkFinished_accounted; exact H.
Qed.

Lemma register_accounted callback futures :
  is_tag tag callback = false ->
  forall w w',
    for_each (fun future => Future_AddCallback invoke future callback)
      futures w = Ok tt w' ->
    accounted tag w' = accounted tag w.
Proof.
  intros Hcb. induction futures as [|f fs IH]; intros w w' H; simpl in H.
  - apply ret_inv in H as [_ <-]. reflexivity.
  - apply bind_inv in H as ([] & w1 & H1 & H2).
    apply AddCallback_accounted in H1. apply IH in H2.
    rewrite Hcb in H1. simpl in H1. lia.
Qed.

Lemma combinator_accounted n callback futures w out w' :
  (forall state out, is_tag tag (callback state out) = false) ->
  (state <- new_State n ;;
   out <- Future_Make ;;
   for_each (fun future => Future_AddCallback invoke future (callback state out))
            futures ;;
   ret out) w = Ok out w' ->
  accounted tag w' = accounted tag w.
Proof.
  intros Hcb. rewrite bind_new_State. unfold Future_Make, Make.
  rewrite bind_new_core.
  intros ([] & w2 & H1 & H2)%bind_inv.
  apply ret_inv in H2 as [_ <-].
  apply register_accounted in H1; [|apply Hcb]. rewrite H1.
  apply accounted_append with (c := mkFutureImpl PENDING [] None);
    reflexivity.
Qed.

Lemma Future_MakeFinished_accounted s w self w' :
  Future_MakeFinished s w = Ok self w' -> accounted tag w' = accounted tag w.
Proof.
  unfold Future_MakeFinished, MakeFinished. rewrite bind_new_core.
  intros ([] & w2 & H1 & H2)%bind_inv.
  apply ret_inv in H2 as [_ <-]. apply set_result_accounted in H1.
  rewrite H1.
  eapply accounted_append; [reflexivity|reflexivity|reflexivity].
Qed.

Lemma AllComplete_accounted futures w out w' :
  AllComplete invoke futures w = Ok out w' -> accounted tag w' = accounted tag w.
Proof.
  destruct futures as [|f futures]; intros H.
  - eapply Future_MakeFinished_accounted; exact H.
  - exact (combinator_accounted _ AllCompleteCallback (f :: futures) _ _ _
             (fun _ _ => eq_refl) H).
Qed.

Lemma All_accounted futures w out w' :
  All invoke futures w = Ok out w' -> accounted tag w' = accounted tag w.
Proof.
  destruct futures as [|f futures]; intros H.
  - unfold All, MakeFinished in H. rewrite bind_new_core in H.
    apply bind_inv in H as ([] & w2 & H1 & H2).
    apply ret_inv in H2 as [_ <-]. apply set_result_accounted in H1.
    rewrite H1.
    eapply accounted_append; [reflexivity|reflexivity|reflexivity].
  - exact (combinator_accounted _
             (fun state out => AllCallback state out (f :: futures))
             (f :: futures) _ _ _ (fun _ _ => eq_refl) H).
Qed.

Lemma Then_accounted self on_success w next w' :
  Then invoke self on_success w = Ok next w' -> accounted tag w' = accounted tag w.
Proof.
  unfold Then, Future_Make, Make. rewrite bind_new_core.
  intros ([] & w2 & H1 & H2)%bind_inv.
  apply ret_inv in H2 as [_ <-]. apply AddCallback_accounted in H1.
  simpl in H1. rewrite H1, Nat.add_0_r.
  apply accounted_append with (c := mkFutureImpl PENDING [] None);
    reflexivity.
Qed.

Lemma AllFinished_accounted futures w out w' :
  AllFinished invoke futures w = Ok out w' -> accounted tag w' = accounted tag w.
Proof.
  unfold AllFinished. intros (all & w1 & H1 & H2)%bind_inv.
  apply All_accounted in H1. apply Then_accounted in H2. congruence.
Qed.

End Invoke.

Lemma TryAddCallback_accounted self callback w b w' :
  TryAddCallback self (ret callback) w = Ok b w' ->
  accounted tag w'
  = (accounted tag w + if b then Nat.b2n (is_tag tag callback) else 0)%nat.
Proof.
  unfold TryAddCallback. intros [Hn H]%lock_inv.
  apply get_core_inv in H as (c & Hc & H). simpl in Hc.
  destruct (IsFutureFinished (state_ c)) eqn:Hfin.
  - rewrite bind_unlock in H. apply ret_inv in H as [<- <-].
    rewrite Nat.add_0_r. apply accounted_quiet; [reflexivity|quiet].
  - rewrite bind_ret in H.
    apply get_core_inv in H as (c' & Hc' & H). simpl in Hc'.
    assert (c' = c) as -> by congruence.
    rewrite bind_gets, bind_put_core, bind_log, bind_unlock in H.
    apply ret_inv in H as [<- <-].
    match goal with
    | |- accounted tag ?w1 = _ =>
        pose proof (accounted_insert w w1 self c
                      (mkFutureImpl (state_ c)
                         (callbacks_ c ++ [callback])
                         (result_ c)) Hc eq_refl ltac:(quiet)) as Hi
    end.
    simpl in Hi. simpl. rewrite count_app, count_cons in Hi.
    change (count (is_tag tag) []) with 0%nat in Hi. lia.
Qed.

Lemma run_callback_accounted fuel :
  forall callback self w w',
    run_callback fuel callback self w = Ok tt w' ->
    accounted tag w'
    = (accounted tag w + Nat.b2n (is_tag tag callback))%nat.
Proof.
  induction fuel as [|fuel IH];
    intros [tag'|state out|state out futures|on_success next] self w w' H.
  all: try (rewrite CoreFacts.run_callback_UserCallback in H;
            apply get_core_inv in H as (c & _ & H);
            rewrite bind_gets, log_eq in H; apply ret_inv in H as [_ <-];
            unfold accounted, queued, delivered; simpl;
            rewrite count_app, count_cons; simpl;
            change (count (is_invoke tag) []) with 0%nat; lia).
  all: try (change (fail OutOfFuel w = Ok tt w') in H; discriminate H).
  all: simpl; rewrite Nat.add_0_r.
  - change (AllComplete_lambda (run_callback fuel) state out self w = Ok tt w')
      in H.
    eapply AllComplete_lambda_accounted; [exact IH|exact H].
  - change (All_lambda (run_callback fuel) state out futures w = Ok tt w') in H.
    eapply All_lambda_accounted; [exact IH|exact H].
  - change (Then_lambda (run_callback fuel) on_success next self w = Ok tt w')
      in H.
    eapply Then_lambda_accounted; [exact IH|exact H].
Qed.

Lemma run_op_accounted fuel op w w' :
  foreign tag op = true ->
  run_op fuel op w = Ok tt w' ->
  accounted tag w' = (accounted tag w + Nat.b2n (registers tag op))%nat.
Proof.
  pose proof (run_callback_accounted fuel) as Hcb.
  destruct op; unfold run_op, foreign; intros Hf H;
    cbn [registers Nat.b2n]; rewrite ?Nat.add_0_r.
  - apply bind_inv in H as (a & w1 & H1 & H2).
    apply ret_inv in H2 as [_ <-].
    unfold Future_Make, Make in H1. rewrite new_core_eq in H1.
    apply ret_inv in H1 as [_ <-].
    apply accounted_append with (c := mkFutureImpl PENDING [] None);
      reflexivity.
  - apply bind_inv in H as (a & w1 & H1 & H2).
    apply ret_inv in H2 as [_ <-].
    eapply Future_MakeFinished_accounted; exact H1.
  - eapply Future_MarkFinished_accounted; [exact Hcb|exact H].
  - eapply DoMarkFinishedOrFailed_accounted; [exact Hcb|exact H].
  - eapply DoMarkFinishedOrFailed_accounted; [exact Hcb|exact H].
  - eapply AddCallback_accounted; [exact Hcb|exact H].
  - apply bind_inv in H as (b & w1 & H1 & H2).
    apply ret_inv in H2 as [_ <-].
    apply TryAddCallback_accounted in H1. rewrite H1.
    apply negb_true_iff in Hf. rewrite Hf. destruct b; simpl; lia.
  - apply bind_inv in H as (a & w1 & H1 & H2).
    apply ret_inv in H2 as [_ <-].
    eapply AllComplete_accounted; [exact Hcb|exact H1].
  - apply bind_inv in H as (a & w1 & H1 & H2).
    apply ret_inv in H2 as [_ <-].
    eapply All_accounted; [exact Hcb|exact H1].
  - apply bind_inv in H as (a & w1 & H1 & H2).
    apply ret_inv in H2 as [_ <-].
    eapply Then_accounted; [exact Hcb|exact H1].
  - apply bind_inv in H as (a & w1 & H1 & H2).
    apply ret_inv in H2 as [_ <-].
    eapply AllFinished_accounted; [exact Hcb|exact H1].
Qed.

Lemma run_ops_accounted fuel ops :
  forallb (foreign tag) ops = true ->
  forall w w',
    run_ops fuel ops w = Ok tt w' ->
    accounted tag w' = (accounted tag w + requests tag ops)%nat.
Proof.
  unfold run_ops, requests.
  induction ops as [|op ops IH]; intros Hf w w' H; simpl in H.
  - apply ret_inv in H as [_ <-]. unfold count. simpl. lia.
  - simpl in Hf. apply andb_true_iff in Hf as [Hop Hops].
    apply bind_inv in H as ([] & w1 & H1 & H2).
    apply (run_op_accounted _ _ _ _ Hop) in H1.
    apply (IH Hops) in H2. rewrite count_cons. lia.
Qed.

Lemma drained_finished_empty cs :
  forallb core_drained cs = true ->
  forallb (fun c => IsFutureFinished (state_ c)) cs = true ->
  flat_map callbacks_ cs = [].
Proof.
  induction cs as [|c cs IH]; intros Hd Hf; [reflexivity|].
  simpl in *. apply andb_true_iff in Hd as [Hc Hd].
  apply andb_true_iff in Hf as [Hfc Hf].
  rewrite (IH Hd Hf), app_nil_r.
  unfold core_drained in Hc. rewrite Hfc in Hc. simpl in Hc.
  now destruct (callbacks_ c).
Qed.

(** X12. The callbacks of the client are accounted for. Over any client
    program that offers the callback only through [AddCallback], the
    number of times it sits in a queue plus the number of times it has
    been invoked grows by exactly the number of [AddCallback] calls
    that passed it: no completion, combinator or nested callback loses
    a queued callback or invokes one twice. *)
Theorem callbacks_neither_lost_nor_duplicated fuel ops w w' :
  forallb (foreign tag) ops = true ->
  run_ops fuel ops w = Ok tt w' ->
  (queued tag w' + delivered tag w')%nat
  = (queued tag w + delivered tag w + requests tag ops)%nat.
Proof.
  intros Hf H. pose proof (run_ops_accounted fuel ops Hf w w' H) as Ha.
  unfold accounted in Ha. exact Ha.
Qed.

(** X13. Once every future is finished, every callback has been invoked
    exactly once for each time it was registered: from a store without
    stale queues, when a client program returns with all cores
    finished, the invocations of a callback on the trace are those
    before the program, plus one for each time it was queued before,
    plus one for each [AddCallback] that passed it. *)
Theorem every_callback_delivered_once fuel ops w w' :
  forallb (foreign tag) ops = true ->
  queues_drained w = true ->
  run_ops fuel ops w = Ok tt w' ->
  all_finished w' = true ->
  delivered tag w'
  = (delivered tag w + queued tag w + requests tag ops)%nat.
Proof.
  intros Hf Hd H Hfin.
  pose proof (run_ops_accounted fuel ops Hf w w' H) as Ha.
  destruct (run_ops_preserved _ _ _ _ H) as (_ & _ & Hd').
  specialize (Hd' Hd). unfold queues_drained in Hd'.
  unfold all_finished in Hfin.
  unfold accounted in Ha. unfold queued at 1 in Ha.
  rewrite (drained_finished_empty _ Hd' Hfin) in Ha.
  change (count (is_tag tag) []) with 0%nat in Ha. lia.
Qed.

End Accounting.

Lemma callbacks_neither_lost_nor_duplicated_witness :
  exists w', run_ops 3 sample_program empty_world = Ok tt w'
             /\ (queued 7 w' + delivered 7 w')%nat = 1%nat.
Proof.
  eexists. split; [vm_compute; reflexivity|].
  apply (callbacks_neither_lost_nor_duplicated 7 3 sample_program empty_world);
    vm_compute; reflexivity.
Defined.

Lemma every_callback_delivered_once_witness :
  exists w', run_ops 3 sample_program empty_world = Ok tt w'
             /\ delivered 7 w' = 1%nat.
Proof.
  eexists. split; [vm_compute; reflexivity|].
  apply (every_callback_delivered_once 7 3 sample_program empty_world);
    vm_compute; reflexivity.
Defined.

End DeliveryFacts.
